(** * csvn: a shallow embedding of the tokenizer in [csvn.h]

    The header holds the whole parser: [csvn_init], the token allocator
    [csvn_allocate_token], [csvn_fill_token], the two field scanners
    [csvn_parse_quotes] and [csvn_parse_normal], and the dispatch loop
    [csvn_parse].  Each C function is rendered below as a function of the same
    name over explicit state: the parser record [csv_p] is passed in and
    returned, and the caller's token array is a store of descriptor slots.

    Conventions of the embedding.
    - [int] values are integers of [Z], without overflow (which C leaves
      undefined for [int]): [parse_loop_bound] shows that [pos] stops within
      two bytes of the end of the text and that the other counters grow no
      faster than [pos].
    - The text is a [string]; reading [text[i]] at or past its end yields the
      NUL byte (the terminator of the C string and zero padding after it).
    - [tokpool] is [None] for a NULL pointer and [Some m] for a pointer to
      descriptor slots, [m !! i] being the content of slot [tokens[i]]; the
      caller declares the capacity separately as [num_tok], exactly as in C,
      so a store at an index beyond [num_tok] is visible in [m].
    - The preprocessor options are the fields of [config].
    - Loops take a fuel argument and return [None] when it runs out;
      [parse_loop_total] shows that [enough_fuel] always suffices. *)

From Stdlib Require Import ZArith String Ascii Lia.
From stdpp Require Import base option gmap.

Local Open Scope Z_scope.

(** ** Constants, enumerations and records *)

Definition NUL : ascii := "000"%char.
Definition CSVN_NEWLINE : ascii := "010"%char.
Definition CSVN_DELIM : ascii := ","%char.
Definition DQ : ascii := "034"%char.
Definition SPACE : ascii := " "%char.

(** [enum csv_err] *)
Definition NOT_ENOUGH_MEM : Z := -1.
Definition INVALID_CHARACTER : Z := -2.

(** [enum csv_tok] *)
Inductive csv_tok : Set := UNASSIGN | DQUOTE | TEXT | EMPTY.

(** [struct csv_p] *)
Record csv_p : Set := mk_csv_p { pos : Z; toknext : Z; line : Z }.

(** [struct csv_t]; the C fields [end] and [line] are [tend] and [tline]. *)
Record csv_t : Set :=
  mk_csv_t { start : Z; tend : Z; tline : Z; size : Z; token : csv_tok }.

(** The build options: [CSVN_STRICT], [CSVN_CONSIDER_NL],
    [CSVN_NO_EMPTY_FIELD], [CSVN_IGNORE_EMPTY_FIELD] (tested with [#elif], so
    it counts when defined to a non-zero value) and [CSVN_SKIP_WHITESPACE].
    In the header the [line++] guarded by [CSVN_CONSIDER_NL] lacks its
    semicolon; the option is modelled as the statement reads. *)
Record config : Set := mk_config {
  strict : bool;
  consider_nl : bool;
  no_empty_field : bool;
  ignore_empty_field : bool;
  skip_whitespace : bool
}.

Definition default_config : config := mk_config false false false false false.
Definition strict_config : config := mk_config true false false false false.

Abbreviation tokmem := (gmap Z csv_t).
Abbreviation tokpool := (option (gmap Z csv_t)).

(** What a scanning loop hands back: it ran to its exit test, or it left the
    enclosing function through [return code]. *)
Inductive scan : Set :=
| Done (p : csv_p)
| Abort (code : Z) (p : csv_p).

(** What one iteration of the dispatch loop does: [break] out of the switch
    and test the loop condition again, or [return] from [csvn_parse]. *)
Inductive flow : Type :=
| Continue (p : csv_p) (pool : tokpool) (parsed : Z)
| Return (r : Z) (p : csv_p) (pool : tokpool).

(** The parser [p] with another value in [toknext]. *)
Definition with_toknext (p : csv_p) (n : Z) : csv_p :=
  mk_csv_p (pos p) n (line p).

Definition set_pos (p : csv_p) (z : Z) : csv_p :=
  mk_csv_p z (toknext p) (line p).

(** [text[i]] *)
Definition char_at (text : string) (i : Z) : ascii :=
  if i <? 0 then NUL
  else match String.get (Z.to_nat i) text with
       | Some c => c
       | None => NUL
       end.

(** [i < n] with [i] an [int] and [n] a [size_t]: the [int] is converted to
    the unsigned type, which sends a negative value above every length. *)
Definition int_lt_size (i n : Z) : bool := (0 <=? i) && (i <? n).

(** [i > n], same conversion. *)
Definition int_gt_size (i n : Z) : bool := (i <? 0) || (n <? i).

(** ** [csvn_init] *)

Definition csvn_init (p : csv_p) : csv_p := mk_csv_p 0 0 1.

(** ** [csvn_allocate_token]

    [None] is the NULL result; otherwise the index of the slot handed out, the
    parser with [toknext] advanced and the store with that slot cleared. *)
Definition csvn_allocate_token (p : csv_p) (tokens : tokpool) (num_tok : Z)
  : option (Z * csv_p * tokmem) :=
  match tokens with
  | None => None
  | Some m =>
      if int_gt_size (toknext p) num_tok then None
      else
        let i := toknext p in
        Some (i, mk_csv_p (pos p) (toknext p + 1) (line p),
              <[i := mk_csv_t 0 0 0 0 UNASSIGN]> m)
  end.

(** ** [csvn_fill_token], on the slot [i] of the store *)
Definition csvn_fill_token (m : tokmem) (i : Z)
    (start_ end_ line_ : Z) (tok : csv_tok) : tokmem :=
  <[i := mk_csv_t start_ end_ line_ (end_ - start_) tok]> m.

(** [strlen(s)] *)
Definition strlen (s : string) : Z := Z.of_nat (String.length s).

Section Parser.

Variable cfg : config.
Variable text : string.
Variable textlen : Z.
Variable num_tok : Z.

(** [text[csv_p->pos] != '\0' && csv_p->pos < textlen] *)
Definition in_text (p : csv_p) : bool :=
  negb (char_at text (pos p) =? NUL)%char && int_lt_size (pos p) textlen.

(** *** [csvn_parse_quotes] *)

(** The [while] loop; [ln] is the local [line]. *)
Fixpoint quotes_loop (fuel : nat) (p : csv_p) (ln : Z) : option (csv_p * Z) :=
  match fuel with
  | O => None
  | S f =>
      if in_text p then
        if (char_at text (pos p) =? DQ)%char
           && (char_at text (pos p + 1) =? DQ)%char
        then quotes_loop f (set_pos p (pos p + 2)) ln
        else if (char_at text (pos p) =? DQ)%char
                && negb (char_at text (pos p + 1) =? DQ)%char
        then Some (p, ln)
        else if (char_at text (pos p) =? CSVN_NEWLINE)%char
        then quotes_loop f (mk_csv_p (pos p + 1) (toknext p) (line p + 1))
               (if consider_nl cfg then ln + 1 else ln)
        else quotes_loop f (set_pos p (pos p + 1)) ln
      else Some (p, ln)
  end.

Definition csvn_parse_quotes (fuel : nat) (p : csv_p) (pool : tokpool)
  : option (Z * csv_p * tokpool) :=
  let start_ := pos p in
  match quotes_loop fuel p (line p) with
  | None => None
  | Some (p1, ln) =>
      let end_ := pos p1 - 1 in
      match pool with
      | None => Some (0, p1, pool)
      | Some _ =>
          match csvn_allocate_token p1 pool num_tok with
          | None => Some (NOT_ENOUGH_MEM, p1, pool)
          | Some (i, p2, m) =>
              Some (0, p2, Some (csvn_fill_token m i start_ end_ ln DQUOTE))
          end
      end
  end.

(** *** [csvn_parse_normal] *)

(** The [for] loop. *)
Fixpoint normal_loop (fuel : nat) (p : csv_p) : option scan :=
  match fuel with
  | O => None
  | S f =>
      if in_text p
         && negb (char_at text (pos p) =? CSVN_NEWLINE)%char
         && negb (char_at text (pos p) =? CSVN_DELIM)%char
      then
        if strict cfg && (char_at text (pos p) =? DQ)%char
        then Some (Abort INVALID_CHARACTER p)
        else normal_loop f (set_pos p (pos p + 1))
      else Some (Done p)
  end.

Definition csvn_parse_normal (fuel : nat) (p : csv_p) (pool : tokpool)
  : option (Z * csv_p * tokpool) :=
  let start_ := pos p in
  let line_ := line p in
  match normal_loop fuel p with
  | None => None
  | Some (Abort r p1) => Some (r, p1, pool)
  | Some (Done p1) =>
      let p2 :=
        if (char_at text (pos p1) =? CSVN_NEWLINE)%char
           || (char_at text (pos p1) =? CSVN_DELIM)%char
        then set_pos p1 (pos p1 - 1)
        else p1 in
      let end_ := pos p2 in
      match pool with
      | None => Some (0, p2, pool)
      | Some _ =>
          match csvn_allocate_token p2 pool num_tok with
          | None => Some (NOT_ENOUGH_MEM, p2, pool)
          | Some (i, p3, m) =>
              Some (0, p3, Some (csvn_fill_token m i start_ end_ line_ DQUOTE))
          end
      end
  end.

(** *** [csvn_parse] *)

(** [do { csv_p->pos++; } while (text[csv_p->pos] == ' ');] *)
Fixpoint skip_spaces (fuel : nat) (p : csv_p) : option csv_p :=
  match fuel with
  | O => None
  | S f =>
      let p1 := set_pos p (pos p + 1) in
      if (char_at text (pos p1) =? SPACE)%char then skip_spaces f p1
      else Some p1
  end.

(** The body of [case CSVN_DELIM], entered with the delimiter at [pos p]. *)
Definition on_delim (fuel : nat) (p : csv_p) (pool : tokpool) (parsed : Z)
  : option flow :=
  let p1 := set_pos p (pos p + 1) in
  match (if skip_whitespace cfg && (char_at text (pos p1) =? SPACE)%char
         then skip_spaces fuel p1 else Some p1) with
  | None => None
  | Some p2 =>
      if (char_at text (pos p2) =? CSVN_DELIM)%char then
        if no_empty_field cfg then Some (Return INVALID_CHARACTER p2 pool)
        else if ignore_empty_field cfg then Some (Continue p2 pool parsed)
        else
          match pool with
          | None => Some (Continue p2 pool (parsed + 1))
          | Some _ =>
              match csvn_allocate_token p2 pool num_tok with
              | None => Some (Return NOT_ENOUGH_MEM p2 pool)
              | Some (i, p3, m) =>
                  Some (Continue p3
                          (Some (csvn_fill_token m i (pos p3 - 1) (pos p3)
                                   (line p3) EMPTY))
                          (parsed + 1))
              end
          end
      else Some (Continue p2 pool parsed)
  end.

(** The body of the quote case, entered with the opening quote at [pos p]. *)
Definition on_quote (fuel : nat) (p : csv_p) (pool : tokpool) (parsed : Z)
  : option flow :=
  match csvn_parse_quotes fuel (set_pos p (pos p + 1)) pool with
  | None => None
  | Some (res, p2, pool2) =>
      if negb (res =? 0) then Some (Return res p2 pool2)
      else
        let p3 := set_pos p2 (pos p2 + 1) in
        if strict cfg then
          if (char_at text (pos p3) =? CSVN_DELIM)%char
             || (char_at text (pos p3) =? CSVN_NEWLINE)%char
          then Some (Continue p3 pool2 (parsed + 1))
          else if negb (char_at text (pos p3) =? NUL)%char
                  && int_lt_size (pos p3) textlen
          then Some (Return INVALID_CHARACTER p3 pool2)
          else Some (Continue p3 pool2 (parsed + 1))
        else Some (Continue p3 pool2 (parsed + 1))
  end.

(** The [default] case. *)
Definition on_other (fuel : nat) (p : csv_p) (pool : tokpool) (parsed : Z)
  : option flow :=
  match csvn_parse_normal fuel p pool with
  | None => None
  | Some (res, p1, pool1) =>
      if negb (res =? 0) then Some (Return res p1 pool1)
      else Some (Continue (set_pos p1 (pos p1 + 1)) pool1 (parsed + 1))
  end.

(** The [switch] on [text[csv_p->pos]]: one iteration of the loop body. *)
Definition dispatch (fuel : nat) (p : csv_p) (pool : tokpool) (parsed : Z)
  : option flow :=
  let c := char_at text (pos p) in
  if (c =? CSVN_NEWLINE)%char then
    Some (Continue (mk_csv_p (pos p + 1) (toknext p) (line p + 1)) pool parsed)
  else if (c =? CSVN_DELIM)%char then on_delim fuel p pool parsed
  else if (c =? DQ)%char then on_quote fuel p pool parsed
  else on_other fuel p pool parsed.

(** The [while] loop of [csvn_parse], from a given count of parsed fields. *)
Fixpoint parse_loop (fuel : nat) (p : csv_p) (pool : tokpool) (parsed : Z)
  : option (Z * csv_p * tokpool) :=
  match fuel with
  | O => None
  | S f =>
      if in_text p then
        match dispatch f p pool parsed with
        | None => None
        | Some (Return r p1 pool1) => Some (r, p1, pool1)
        | Some (Continue p1 pool1 parsed1) => parse_loop f p1 pool1 parsed1
        end
      else Some (parsed, p, pool)
  end.

(** The furthest any loop can get is the declared or the actual end of the
    text, whichever is later; every iteration of every loop moves [pos]
    forward, which bounds the fuel that is ever needed. *)
Definition horizon : Z := Z.max textlen (strlen text).

Definition enough_fuel (p : csv_p) : nat := Z.to_nat (horizon - pos p) + 2.

(** [csvn_parse]: the return value, the parser and the token store. *)
Definition csvn_parse (p : csv_p) (pool : tokpool)
  : option (Z * csv_p * tokpool) :=
  parse_loop (enough_fuel p) p pool 0.

End Parser.

(** ** The driver's [get_parsed]

    [strncpy(parsed, text + token->start, token->size + 1)]: the bytes of the
    text from [start] to [end], both included, cut at a NUL byte. *)
Fixpoint upto_nul (s : string) : string :=
  match s with
  | EmptyString => EmptyString
  | String c s' => if (c =? NUL)%char then EmptyString else String c (upto_nul s')
  end.

Definition get_parsed (t : csv_t) (text : string) : string :=
  upto_nul (substring (Z.to_nat (start t)) (Z.to_nat (size t + 1)) text).

(** ** Sample texts *)

Definition q : string := String DQ EmptyString.
Definition nl : string := String CSVN_NEWLINE EmptyString.

Definition text_abc : string := "a,b,c".
Definition text_a_empty_b : string := "a,,b".
Definition text_escaped : string :=
  (q ++ "a" ++ q ++ q ++ "b" ++ q)%string.
Definition text_quote_then_b : string := (q ++ "a" ++ q ++ "b")%string.
Definition text_two_rows : string := ("a,b" ++ nl ++ "c,d")%string.
Definition text_delim_newline : string := ("a," ++ nl ++ "b")%string.
Definition text_trailing_delim : string := "a,".
Definition text_plain_quoted : string := ("a," ++ q ++ "b" ++ q)%string.

(** ** Shapes used in the statements *)

(** Where an iteration that started at [p] with [parsed] fields may end:
    [k] bytes further at least when the loop goes on, not behind [p] and
    with an error code when [csvn_parse] returns. *)
Definition flow_after (p : csv_p) (parsed k : Z) (fl : flow) : Prop :=
  match fl with
  | Continue p1 _ parsed1 =>
      pos p + k <= pos p1 /\ line p <= line p1
      /\ parsed <= parsed1 <= parsed + 1
  | Return r p1 _ =>
      pos p <= pos p1 /\ (r = NOT_ENOUGH_MEM \/ r = INVALID_CHARACTER)
  end.

(** ** Observation points of the dispatch loop

    A loop state is the parser, the token store and the count of parsed
    fields at the moment the loop condition is tested.  [iterates s s'] holds
    when the loop, started in [s], tests its condition in [s'] after zero or
    more iterations. *)
Definition loop_state : Type := csv_p * tokpool * Z.

Definition parser_of (s : loop_state) : csv_p := fst (fst s).

Inductive iterates (cfg : config) (text : string) (textlen num_tok : Z)
  : loop_state -> loop_state -> Prop :=
| iterates_here (s : loop_state) : iterates cfg text textlen num_tok s s
| iterates_next (fuel : nat) (p : csv_p) (pool : tokpool) (parsed : Z)
    (p1 : csv_p) (pool1 : tokpool) (parsed1 : Z) (s : loop_state) :
    in_text text textlen p = true ->
    dispatch cfg text textlen num_tok fuel p pool parsed
    = Some (Continue p1 pool1 parsed1) ->
    iterates cfg text textlen num_tok (p1, pool1, parsed1) s ->
    iterates cfg text textlen num_tok (p, pool, parsed) s.

(** ** Reading a result of [csvn_parse] *)

(** The value returned to the caller. *)
Definition retval (r : option (Z * csv_p * tokpool)) : option Z :=
  match r with
  | Some (v, _, _) => Some v
  | None => None
  end.

(** The content of slot [tokens[i]] after the call. *)
Definition slot (r : option (Z * csv_p * tokpool)) (i : Z) : option csv_t :=
  match r with
  | Some (_, _, Some m) => m !! i
  | _ => None
  end.

(** A parser record on which [csvn_init] has just run. *)
Definition fresh : csv_p := csvn_init (mk_csv_p 0 0 0).

(** ** Runs of bytes and stored descriptors

    Vocabulary for the properties of the scanners and of the token store. *)

(** [f] holds at every index from [a] on, [n] indexes in all. *)
Fixpoint all_from (f : Z -> bool) (a : Z) (n : nat) : bool :=
  match n with
  | O => true
  | S k => f a && all_from f (a + 1) k
  end.

(** How many of the [n] indexes from [a] on satisfy [f]. *)
Fixpoint count_from (f : Z -> bool) (a : Z) (n : nat) : Z :=
  match n with
  | O => 0
  | S k => (if f a then 1 else 0) + count_from f (a + 1) k
  end.

Definition is_newline (text : string) (i : Z) : bool :=
  (char_at text i =? CSVN_NEWLINE)%char.

Definition is_space (text : string) (i : Z) : bool :=
  (char_at text i =? SPACE)%char.

(** The newline bytes of the text at the offsets from [a] up to [b],
    [b] excluded. *)
Definition newlines_between (text : string) (a b : Z) : Z :=
  count_from (is_newline text) a (Z.to_nat (b - a)).

(** The loop condition of [csvn_parse] at offset [i]. *)
Definition byte_in_text (text : string) (textlen : Z) (i : Z) : bool :=
  in_text text textlen (mk_csv_p i 0 0).

(** A byte the [for] loop of [csvn_parse_normal] steps over: inside the text,
    neither newline nor delimiter, and under [CSVN_STRICT] not a quote. *)
Definition plain_byte (cfg : config) (text : string) (textlen : Z) (i : Z)
  : bool :=
  byte_in_text text textlen i
  && negb (char_at text i =? CSVN_NEWLINE)%char
  && negb (char_at text i =? CSVN_DELIM)%char
  && negb (strict cfg && (char_at text i =? DQ)%char).

(** The condition of that [for] loop at offset [i]. *)
Definition scan_byte (text : string) (textlen : Z) (i : Z) : bool :=
  byte_in_text text textlen i
  && negb (char_at text i =? CSVN_NEWLINE)%char
  && negb (char_at text i =? CSVN_DELIM)%char.

(** A byte of a quoted body other than a quote. *)
Definition body_byte (text : string) (textlen : Z) (i : Z) : bool :=
  byte_in_text text textlen i && negb (char_at text i =? DQ)%char.

(** A quote that closes a quoted field: not followed by another quote. *)
Definition lone_quote (text : string) (i : Z) : bool :=
  (char_at text i =? DQ)%char && negb (char_at text (i + 1) =? DQ)%char.

(** What holds of a descriptor that an iteration started at [p] and ended at
    [p1] has stored. *)
Definition well_filled (p p1 : csv_p) (d : csv_t) : Prop :=
  (token d = DQUOTE \/ token d = EMPTY)
  /\ size d = tend d - start d /\ -1 <= size d
  /\ pos p <= start d /\ tend d <= pos p1
  /\ line p <= tline d <= line p1.

(** Where the parser stands when [INVALID_CHARACTER] is returned: on the
    second delimiter of an empty field, or on a byte of the text that
    [CSVN_STRICT] does not accept there. *)
Definition offending_byte (cfg : config) (text : string) (textlen : Z)
    (p : csv_p) : Prop :=
  (no_empty_field cfg = true /\ char_at text (pos p) = CSVN_DELIM)
  \/ (strict cfg = true /\ in_text text textlen p = true
      /\ char_at text (pos p) <> CSVN_DELIM
      /\ char_at text (pos p) <> CSVN_NEWLINE).

(** What one iteration started at [p] does to the token store, to [toknext]
    and to the count of parsed fields. *)
Definition step_effect (cfg : config) (text : string) (textlen num_tok : Z)
    (p : csv_p) (pool : tokpool) (parsed : Z) (fl : flow) : Prop :=
  match fl with
  | Continue p1 pool1 parsed1 =>
      (pool1 = pool /\ toknext p1 = toknext p
       /\ (parsed1 = parsed \/ (pool = None /\ parsed1 = parsed + 1)))
      \/ (exists m d,
            pool = Some m /\ 0 <= toknext p <= num_tok
            /\ pool1 = Some (<[toknext p := d]> m)
            /\ toknext p1 = toknext p + 1 /\ parsed1 = parsed + 1
            /\ well_filled p p1 d)
  | Return r p1 pool1 =>
      (r = NOT_ENOUGH_MEM /\ pool1 = pool /\ pool <> None
       /\ toknext p1 = toknext p
       /\ int_gt_size (toknext p) num_tok = true)
      \/ (r = INVALID_CHARACTER /\ offending_byte cfg text textlen p1
          /\ ((pool1 = pool /\ toknext p1 = toknext p)
              \/ (exists m d,
                    pool = Some m /\ 0 <= toknext p <= num_tok
                    /\ pool1 = Some (<[toknext p := d]> m)
                    /\ toknext p1 = toknext p + 1
                    /\ well_filled p p1 d)))
  end.

(** ** Rows of unquoted fields

    Vocabulary for the behaviour of the parser on a well-formed text: fields
    of bytes the unquoted-field scanner accepts, each followed by a delimiter
    or a newline, the last one by the end of the text. *)

(** A byte that may stand inside an unquoted field under the options. *)
Definition char_ok (cfg : config) (c : ascii) : bool :=
  negb (c =? NUL)%char && negb (c =? CSVN_NEWLINE)%char
  && negb (c =? CSVN_DELIM)%char
  && negb (strict cfg && (c =? DQ)%char).

(** A byte that may open one: not a quote either, nor a space that
    [CSVN_SKIP_WHITESPACE] would skip. *)
Definition first_ok (cfg : config) (c : ascii) : bool :=
  char_ok cfg c && negb (c =? DQ)%char
  && negb (skip_whitespace cfg && (c =? SPACE)%char).

Fixpoint all_chars (f : ascii -> bool) (s : string) : bool :=
  match s with
  | EmptyString => true
  | String c r => f c && all_chars f r
  end.

Definition field_ok (cfg : config) (s : string) : bool :=
  match s with
  | EmptyString => false
  | String c r => first_ok cfg c && all_chars (char_ok cfg) r
  end.

Definition sep_ok (c : ascii) : bool :=
  (c =? CSVN_DELIM)%char || (c =? CSVN_NEWLINE)%char.

(** The text made of the fields [fs], each with the separator that follows
    it, and of the field [last]. *)
Fixpoint table (fs : list (string * ascii)) (last : string) : string :=
  match fs with
  | nil => last
  | (f, s) :: rest => (f ++ String s (table rest last))%string
  end.

Fixpoint table_ok (cfg : config) (fs : list (string * ascii)) (last : string)
  : bool :=
  match fs with
  | nil => field_ok cfg last
  | (f, s) :: rest => field_ok cfg f && sep_ok s && table_ok cfg rest last
  end.

Definition table_fields (fs : list (string * ascii)) (last : string)
  : list string :=
  map fst fs ++ [last].

(** The newlines among the separators. *)
Fixpoint newline_seps (fs : list (string * ascii)) : Z :=
  match fs with
  | nil => 0
  | (_, s) :: rest =>
      (if (s =? CSVN_NEWLINE)%char then 1 else 0) + newline_seps rest
  end.

(** [n] bytes of the buffer from the offset [a] on.  The byte at the offset
    [strlen text] is the NUL that ends the text. *)
Fixpoint bytes_at (text : string) (a : Z) (n : nat) : string :=
  match n with
  | O => EmptyString
  | S k => String (char_at text a) (bytes_at text (a + 1) k)
  end.

(** The bytes of the buffer that a descriptor designates: the [size + 1]
    bytes from [start] to [end], both included. *)
Definition span_text (text : string) (d : csv_t) : string :=
  bytes_at text (start d) (Z.to_nat (size d + 1)).

(** The offset of the field of index [j] of a row, counted from the first
    byte of the row. *)
Fixpoint field_start (fs : list (string * ascii)) (j : nat) : Z :=
  match j, fs with
  | S k, (f, _) :: rest => strlen f + 1 + field_start rest k
  | _, _ => 0
  end.

(** The descriptor [d] is the one [csvn_parse_normal] stores for the field
    [f] found at the offset [a] on the line [l].  A field followed by a
    separator ([inner]) ends on its last byte; the field that ends the text
    ends one byte further, on the terminating NUL, which its span includes.
    The driver's copy stops at that NUL. *)
Definition field_stored (text : string) (a : Z) (f : string) (inner : bool)
    (l : Z) (d : csv_t) : Prop :=
  start d = a
  /\ tend d = a + strlen f - (if inner then 1 else 0)
  /\ size d = tend d - start d
  /\ token d = DQUOTE
  /\ tline d = l
  /\ span_text text d
     = (if inner then f else (f ++ String NUL EmptyString)%string)
  /\ get_parsed d text = f.

(** The store and [toknext] after one descriptor has been stored, if there
    is a store. *)
Definition store_one (pool : tokpool) (i : Z) (d : csv_t) : tokpool :=
  match pool with
  | None => None
  | Some m => Some (<[i := d]> m)
  end.

Definition next_tn (pool : tokpool) (i : Z) : Z :=
  match pool with
  | None => i
  | Some _ => i + 1
  end.


(** Two sample rows: fields with the separator that follows each. *)
Definition row_a_b : list (string * ascii) :=
  [("a"%string, CSVN_DELIM); ("b"%string, CSVN_NEWLINE)].

Definition row_ab_cd : list (string * ascii) :=
  [("ab"%string, CSVN_DELIM); ("c d"%string, CSVN_NEWLINE)].

(** The text of the driver's [test_normal], less its last field. *)
Definition row_test_normal : list (string * ascii) :=
  [("parse"%string, CSVN_DELIM); (" this"%string, CSVN_DELIM);
   (" text"%string, CSVN_NEWLINE); ("then"%string, CSVN_DELIM)].
(** ** Elementary facts *)

Arguments csvn_allocate_token : simpl never.
Arguments csvn_fill_token : simpl never.

Ltac break_if_in H :=
  repeat match type of H with
         | context [if ?b then _ else _] => destruct b eqn:?
         end.

Lemma get_past_end (s : string) :
  forall n : nat, (String.length s <= n)%nat -> String.get n s = None.
Proof.
  induction s as [|c s IH]; intros n Hn; simpl in *.
  - reflexivity.
  - destruct n as [|n]; [lia|]. apply IH. lia.
Qed.

Lemma char_at_outside (text : string) (i : Z) :
  i < 0 \/ strlen text <= i -> char_at text i = NUL.
Proof.
  unfold char_at, strlen. intros Hi.
  destruct (i <? 0) eqn:Hneg; [reflexivity|].
  apply Z.ltb_ge in Hneg.
  rewrite get_past_end; [reflexivity|lia].
Qed.

Lemma char_at_inside (text : string) (i : Z) :
  char_at text i <> NUL -> 0 <= i < strlen text.
Proof.
  intros Hc.
  destruct (Z_lt_dec i 0) as [Hlt|Hge].
  - exfalso. apply Hc. apply char_at_outside. lia.
  - destruct (Z_le_dec (strlen text) i) as [Hout|Hin]; [|lia].
    exfalso. apply Hc. apply char_at_outside. lia.
Qed.

Lemma allocate_inv (p : csv_p) (pool : tokpool) (num_tok i : Z)
    (p' : csv_p) (m' : tokmem) :
  csvn_allocate_token p pool num_tok = Some (i, p', m') ->
  exists m, pool = Some m
    /\ 0 <= toknext p <= num_tok
    /\ i = toknext p
    /\ p' = mk_csv_p (pos p) (toknext p + 1) (line p)
    /\ m' = <[toknext p := mk_csv_t 0 0 0 0 UNASSIGN]> m.
Proof.
  unfold csvn_allocate_token, int_gt_size. intros H.
  destruct pool as [m|]; [|discriminate].
  destruct (toknext p <? 0) eqn:H0; simpl in H; [discriminate|].
  destruct (num_tok <? toknext p) eqn:H1; [discriminate|].
  apply Z.ltb_ge in H0, H1. inversion H; subst.
  exists m. repeat split; lia.
Qed.

Lemma allocate_ok (p : csv_p) (m : tokmem) (num_tok : Z) :
  0 <= toknext p <= num_tok ->
  csvn_allocate_token p (Some m) num_tok =
    Some (toknext p, mk_csv_p (pos p) (toknext p + 1) (line p),
          <[toknext p := mk_csv_t 0 0 0 0 UNASSIGN]> m).
Proof.
  intros H. unfold csvn_allocate_token, int_gt_size.
  destruct (toknext p <? 0) eqn:H0; [apply Z.ltb_lt in H0; lia|].
  destruct (num_tok <? toknext p) eqn:H1; [apply Z.ltb_lt in H1; lia|].
  reflexivity.
Qed.

Section ParserFacts.

Variable cfg : config.
Variable text : string.
Variable textlen : Z.
Variable num_tok : Z.

Local Abbreviation in_text := (in_text text textlen).
Local Abbreviation quotes_loop := (quotes_loop cfg text textlen).
Local Abbreviation normal_loop := (normal_loop cfg text textlen).
Local Abbreviation skip_spaces := (skip_spaces text).
Local Abbreviation csvn_parse_quotes := (csvn_parse_quotes cfg text textlen num_tok).
Local Abbreviation csvn_parse_normal := (csvn_parse_normal cfg text textlen num_tok).
Local Abbreviation on_delim := (on_delim cfg text num_tok).
Local Abbreviation on_quote := (on_quote cfg text textlen num_tok).
Local Abbreviation on_other := (on_other cfg text textlen num_tok).
Local Abbreviation dispatch := (dispatch cfg text textlen num_tok).
Local Abbreviation parse_loop := (parse_loop cfg text textlen num_tok).
Local Abbreviation horizon := (horizon text textlen).

Lemma in_text_inv (p : csv_p) :
  in_text p = true ->
  char_at text (pos p) <> NUL /\ 0 <= pos p < textlen /\ pos p < strlen text.
Proof.
  unfold in_text, int_lt_size. intros H.
  apply andb_prop in H as [Hc Hb]. apply andb_prop in Hb as [H0 H1].
  apply Z.leb_le in H0. apply Z.ltb_lt in H1.
  apply negb_true_iff in Hc. apply Ascii.eqb_neq in Hc.
  pose proof (char_at_inside _ _ Hc). repeat split; (assumption || lia).
Qed.

(** *** The scanners only move forward *)

Lemma quotes_loop_advance (fuel : nat) :
  forall p ln p1 ln1,
    quotes_loop fuel p ln = Some (p1, ln1) ->
    pos p <= pos p1 /\ toknext p1 = toknext p /\ line p <= line p1.
Proof.
  induction fuel as [|f IH]; intros p ln p1 ln1 H; simpl in H; [discriminate|].
  break_if_in H;
    try (apply IH in H; simpl in H; lia);
    inversion H; subst; lia.
Qed.

Lemma normal_loop_advance (fuel : nat) :
  forall p s,
    normal_loop fuel p = Some s ->
    match s with
    | Done p1 => pos p <= pos p1 /\ toknext p1 = toknext p /\ line p1 = line p
    | Abort code p1 =>
        code = INVALID_CHARACTER /\ strict cfg = true
        /\ pos p <= pos p1 /\ toknext p1 = toknext p /\ line p1 = line p
    end.
Proof.
  induction fuel as [|f IH]; intros p s H; simpl in H; [discriminate|].
  destruct (_ && _ && _) eqn:Hc.
  - destruct (strict cfg) eqn:Hs; simpl in H.
    + destruct (char_at text (pos p) =? DQ)%char.
      * inversion H; subst. repeat split; lia.
      * apply IH in H. destruct s; simpl in H; repeat split; lia || tauto.
    + apply IH in H. destruct s; simpl in H; repeat split; lia || tauto.
  - inversion H; subst. lia.
Qed.

Lemma normal_loop_first (fuel : nat) (p p1 : csv_p) :
  in_text p = true ->
  char_at text (pos p) <> CSVN_NEWLINE ->
  char_at text (pos p) <> CSVN_DELIM ->
  normal_loop fuel p = Some (Done p1) ->
  pos p + 1 <= pos p1 /\ toknext p1 = toknext p /\ line p1 = line p.
Proof.
  intros Hin Hnl Hd H. destruct fuel as [|f]; simpl in H; [discriminate|].
  rewrite Hin in H.
  apply Ascii.eqb_neq in Hnl, Hd. rewrite Hnl, Hd in H. simpl in H.
  destruct (strict cfg && _); [discriminate|].
  apply normal_loop_advance in H. simpl in H. lia.
Qed.

Lemma skip_spaces_advance (fuel : nat) :
  forall p p1,
    skip_spaces fuel p = Some p1 ->
    pos p + 1 <= pos p1 /\ toknext p1 = toknext p /\ line p1 = line p.
Proof.
  induction fuel as [|f IH]; intros p p1 H; simpl in H; [discriminate|].
  destruct (_ =? _)%char.
  - apply IH in H. simpl in H. lia.
  - inversion H; subst; simpl; lia.
Qed.

Lemma parse_quotes_advance (fuel : nat) (p : csv_p) (pool : tokpool)
    (res : Z) (p1 : csv_p) (pool1 : tokpool) :
  csvn_parse_quotes fuel p pool = Some (res, p1, pool1) ->
  pos p <= pos p1 /\ line p <= line p1
  /\ (res = 0 \/ res = NOT_ENOUGH_MEM).
Proof.
  unfold csvn_parse_quotes. intros H.
  destruct (quotes_loop fuel p (line p)) as [[pq ln]|] eqn:Hq; [|discriminate].
  apply quotes_loop_advance in Hq.
  destruct pool as [m|].
  - destruct (csvn_allocate_token pq (Some m) num_tok) as [[[i p2] m2]|] eqn:Ha.
    + apply allocate_inv in Ha as (m0 & _ & _ & _ & -> & _).
      inversion H; subst; simpl. lia.
    + inversion H; subst. lia.
  - inversion H; subst. lia.
Qed.

Lemma parse_normal_advance (fuel : nat) (p : csv_p) (pool : tokpool)
    (res : Z) (p1 : csv_p) (pool1 : tokpool) :
  in_text p = true ->
  char_at text (pos p) <> CSVN_NEWLINE ->
  char_at text (pos p) <> CSVN_DELIM ->
  csvn_parse_normal fuel p pool = Some (res, p1, pool1) ->
  pos p <= pos p1 /\ line p1 = line p
  /\ (res = 0 \/ res = NOT_ENOUGH_MEM \/ res = INVALID_CHARACTER).
Proof.
  unfold csvn_parse_normal. intros Hin Hnl Hd H.
  destruct (normal_loop fuel p) as [[pn|code pn]|] eqn:Hn; [| |discriminate].
  - apply normal_loop_first in Hn; [|assumption..].
    set (p2 := if _ || _ then set_pos pn (pos pn - 1) else pn) in H.
    assert (Hp2 : pos p <= pos p2 /\ line p2 = line p /\ toknext p2 = toknext p).
    { subst p2. destruct (_ || _); simpl; lia. }
    destruct pool as [m|].
    + destruct (csvn_allocate_token p2 (Some m) num_tok) as [[[i p3] m3]|] eqn:Ha.
      * apply allocate_inv in Ha as (m0 & _ & _ & _ & -> & _).
        inversion H; subst; simpl. lia.
      * inversion H; subst. lia.
    + inversion H; subst. lia.
  - apply normal_loop_advance in Hn as (-> & _ & Ha).
    inversion H; subst. lia.
Qed.

(** *** One iteration of the dispatch loop *)

Lemma on_delim_advance (fuel : nat) (p : csv_p) (pool : tokpool)
    (parsed : Z) (fl : flow) :
  on_delim fuel p pool parsed = Some fl -> flow_after p parsed 1 fl.
Proof.
  unfold on_delim. intros H.
  set (p1 := set_pos p (pos p + 1)) in *.
  destruct (if skip_whitespace cfg && _ then skip_spaces fuel p1 else Some p1)
    as [p2|] eqn:Hs; [|discriminate].
  assert (Hp2 : pos p + 1 <= pos p2 /\ line p2 = line p).
  { destruct (skip_whitespace cfg && _).
    - apply skip_spaces_advance in Hs. simpl in Hs. lia.
    - inversion Hs; subst; simpl. lia. }
  destruct (char_at text (pos p2) =? CSVN_DELIM)%char;
    [|inversion H; subst; simpl; lia].
  destruct (no_empty_field cfg); [inversion H; subst; simpl; intuition lia|].
  destruct (ignore_empty_field cfg); [inversion H; subst; simpl; lia|].
  destruct pool as [m|]; [|inversion H; subst; simpl; lia].
  destruct (csvn_allocate_token p2 (Some m) num_tok) as [[[i p3] m3]|] eqn:Ha.
  - apply allocate_inv in Ha as (m0 & _ & _ & _ & -> & _).
    inversion H; subst; simpl. lia.
  - inversion H; subst; simpl. intuition lia.
Qed.

Lemma on_quote_advance (fuel : nat) (p : csv_p) (pool : tokpool)
    (parsed : Z) (fl : flow) :
  on_quote fuel p pool parsed = Some fl -> flow_after p parsed 2 fl.
Proof.
  unfold on_quote. intros H.
  destruct (csvn_parse_quotes fuel (set_pos p (pos p + 1)) pool)
    as [[[res p2] pool2]|] eqn:Hq; [|discriminate].
  apply parse_quotes_advance in Hq as (Hpos & Hline & Hres). simpl in Hpos, Hline.
  destruct (negb (res =? 0)) eqn:Hz.
  - inversion H; subst; simpl. split; [lia|].
    destruct Hres as [->| ->]; [discriminate|tauto].
  - break_if_in H; inversion H; subst; simpl; intuition lia.
Qed.

Lemma on_other_advance (fuel : nat) (p : csv_p) (pool : tokpool)
    (parsed : Z) (fl : flow) :
  in_text p = true ->
  char_at text (pos p) <> CSVN_NEWLINE ->
  char_at text (pos p) <> CSVN_DELIM ->
  on_other fuel p pool parsed = Some fl -> flow_after p parsed 1 fl.
Proof.
  unfold on_other. intros Hin Hnl Hd H.
  destruct (csvn_parse_normal fuel p pool) as [[[res p1] pool1]|] eqn:Hn;
    [|discriminate].
  apply parse_normal_advance in Hn as (Hpos & Hline & Hres); [|assumption..].
  destruct (negb (res =? 0)) eqn:Hz.
  - inversion H; subst; simpl. split; [lia|].
    destruct Hres as [->|[->| ->]]; [discriminate|tauto|tauto].
  - inversion H; subst; simpl. lia.
Qed.

Lemma dispatch_advance (fuel : nat) (p : csv_p) (pool : tokpool)
    (parsed : Z) (fl : flow) :
  in_text p = true ->
  dispatch fuel p pool parsed = Some fl -> flow_after p parsed 1 fl.
Proof.
  unfold dispatch. intros Hin H.
  destruct (Ascii.eqb_spec (char_at text (pos p)) CSVN_NEWLINE) as [Hnl|Hnl].
  { inversion H; subst; simpl. lia. }
  destruct (Ascii.eqb_spec (char_at text (pos p)) CSVN_DELIM) as [Hd|Hd].
  { eapply on_delim_advance; eassumption. }
  destruct (char_at text (pos p) =? DQ)%char.
  - apply on_quote_advance in H. destruct fl; simpl in *; intuition lia.
  - eapply on_other_advance; eassumption.
Qed.

(** *** How far the counters can go

    Every [int] of the parser grows with [pos], and [pos] stops within two
    bytes of the later end of the text: the arithmetic of the embedding, done
    in [Z], stays inside the range of [int] for every text whose length is
    below that range. *)

Lemma quotes_loop_bound (fuel : nat) :
  forall p ln p1 ln1,
    quotes_loop fuel p ln = Some (p1, ln1) ->
    pos p1 <= Z.max (pos p) (textlen + 1)
    /\ line p1 - line p <= pos p1 - pos p
    /\ ln1 - ln <= pos p1 - pos p.
Proof.
  induction fuel as [|f IH]; intros p ln p1 ln1 H; simpl in H; [discriminate|].
  destruct (in_text p) eqn:Hin; [|inversion H; subst; lia].
  apply in_text_inv in Hin.
  break_if_in H;
    try (apply IH in H; simpl in H; lia);
    inversion H; subst; lia.
Qed.

Lemma normal_loop_bound (fuel : nat) :
  forall p s,
    normal_loop fuel p = Some s ->
    match s with
    | Done p1 | Abort _ p1 => pos p1 <= Z.max (pos p) textlen
    end.
Proof.
  induction fuel as [|f IH]; intros p s H; simpl in H; [discriminate|].
  destruct (in_text p) eqn:Hin; simpl in H; [|inversion H; subst; lia].
  apply in_text_inv in Hin.
  break_if_in H; try (inversion H; subst; lia).
  apply IH in H. destruct s; simpl in H; lia.
Qed.

Lemma skip_spaces_bound (fuel : nat) :
  forall p p1,
    skip_spaces fuel p = Some p1 ->
    pos p1 <= Z.max (pos p + 1) (strlen text).
Proof.
  induction fuel as [|f IH]; intros p p1 H; simpl in H; [discriminate|].
  destruct (Ascii.eqb_spec (char_at text (pos p + 1)) SPACE) as [Hsp|Hsp].
  - assert (Hin : 0 <= pos p + 1 < strlen text).
    { apply char_at_inside. rewrite Hsp. discriminate. }
    apply IH in H. simpl in H. lia.
  - inversion H; subst; simpl. lia.
Qed.

Lemma dispatch_bound (fuel : nat) (p : csv_p) (pool : tokpool)
    (parsed : Z) (fl : flow) :
  in_text p = true ->
  dispatch fuel p pool parsed = Some fl ->
  match fl with
  | Continue p1 _ _ | Return _ p1 _ =>
      pos p1 <= horizon + 2
      /\ line p1 - line p <= pos p1 - pos p
      /\ toknext p <= toknext p1 <= toknext p + (pos p1 - pos p)
  end.
Proof.
  unfold dispatch, horizon. intros Hin H.
  pose proof (in_text_inv _ Hin) as (_ & Hpos & Hlen).
  destruct (Ascii.eqb_spec (char_at text (pos p)) CSVN_NEWLINE) as [Hnl|Hnl].
  { inversion H; subst; simpl. lia. }
  destruct (Ascii.eqb_spec (char_at text (pos p)) CSVN_DELIM) as [Hd|Hd].
  { unfold on_delim in H.
    set (p1 := set_pos p (pos p + 1)) in *.
    destruct (if skip_whitespace cfg && _ then skip_spaces fuel p1 else Some p1)
      as [p2|] eqn:Hs; [|discriminate].
    assert (Hp2 : pos p + 1 <= pos p2 <= Z.max textlen (strlen text)
                  /\ line p2 = line p /\ toknext p2 = toknext p).
    { destruct (skip_whitespace cfg && _) eqn:Hsk.
      - apply andb_prop in Hsk as [_ Hsp]. apply Ascii.eqb_eq in Hsp.
        assert (Hin1 : 0 <= pos p1 < strlen text).
        { apply char_at_inside. rewrite Hsp. discriminate. }
        pose proof (skip_spaces_advance _ _ _ Hs) as Ha.
        apply skip_spaces_bound in Hs. simpl in Hs, Ha, Hin1. lia.
      - inversion Hs; subst; simpl. lia. }
    destruct (char_at text (pos p2) =? CSVN_DELIM)%char;
      [|inversion H; subst; simpl; lia].
    destruct (no_empty_field cfg); [inversion H; subst; simpl; lia|].
    destruct (ignore_empty_field cfg); [inversion H; subst; simpl; lia|].
    destruct pool as [m|]; [|inversion H; subst; simpl; lia].
    destruct (csvn_allocate_token p2 (Some m) num_tok) as [[[i p3] m3]|] eqn:Ha.
    - apply allocate_inv in Ha as (m0 & _ & _ & _ & -> & _).
      inversion H; subst; simpl. lia.
    - inversion H; subst; simpl. lia. }
  destruct (char_at text (pos p) =? DQ)%char.
  { unfold on_quote, csvn_parse_quotes in H.
    destruct (quotes_loop fuel (set_pos p (pos p + 1)) _) as [[pq ln]|] eqn:Hq;
      [|discriminate].
    pose proof (quotes_loop_advance _ _ _ _ _ Hq) as Ha.
    apply quotes_loop_bound in Hq. simpl in Hq, Ha.
    destruct pool as [m|].
    - destruct (csvn_allocate_token pq (Some m) num_tok) as [[[i p3] m3]|] eqn:Hal.
      + apply allocate_inv in Hal as (m0 & _ & _ & _ & -> & _).
        simpl in H. break_if_in H; inversion H; subst; simpl; lia.
      + simpl in H. inversion H; subst; simpl. lia.
    - simpl in H. break_if_in H; inversion H; subst; simpl; lia. }
  unfold on_other, csvn_parse_normal in H.
  destruct (normal_loop fuel p) as [[pn|code pn]|] eqn:Hl; [| |discriminate].
  - pose proof (normal_loop_first _ _ _ Hin Hnl Hd Hl) as Ha.
    apply normal_loop_bound in Hl. simpl in Hl.
    set (p2 := if _ || _ then set_pos pn (pos pn - 1) else pn) in H.
    assert (Hp2 : pos p <= pos p2 <= textlen
                  /\ line p2 = line p /\ toknext p2 = toknext p).
    { subst p2. destruct (_ || _); simpl; lia. }
    destruct pool as [m|].
    + destruct (csvn_allocate_token p2 (Some m) num_tok) as [[[i p3] m3]|] eqn:Hal.
      * apply allocate_inv in Hal as (m0 & _ & _ & _ & -> & _).
        simpl in H. inversion H; subst; simpl. lia.
      * simpl in H. inversion H; subst; simpl. lia.
    + simpl in H. inversion H; subst; simpl. lia.
  - pose proof (normal_loop_advance _ _ _ Hl) as (-> & _ & Ha).
    apply normal_loop_bound in Hl. simpl in Hl.
    simpl in H. inversion H; subst; simpl. lia.
Qed.

Lemma parse_loop_bound (fuel : nat) :
  forall p pool parsed r pf poolf,
    parse_loop fuel p pool parsed = Some (r, pf, poolf) ->
    pos pf <= Z.max (pos p) (horizon + 2)
    /\ line pf - line p <= pos pf - pos p
    /\ toknext p <= toknext pf <= toknext p + (pos pf - pos p)
    /\ (0 <= r -> r <= parsed + (pos pf - pos p)).
Proof.
  induction fuel as [|f IH]; intros p pool parsed r pf poolf H; simpl in H;
    [discriminate|].
  destruct (in_text p) eqn:Hin; [|inversion H; subst; lia].
  destruct (dispatch f p pool parsed) as [fl|] eqn:Hd; [|discriminate].
  pose proof (dispatch_advance _ _ _ _ _ Hin Hd) as Ha.
  apply dispatch_bound in Hd; [|assumption].
  destruct fl as [p1 pool1 parsed1|r1 p1 pool1]; simpl in Ha.
  - apply IH in H. lia.
  - inversion H; subst. unfold NOT_ENOUGH_MEM, INVALID_CHARACTER in Ha. lia.
Qed.

(** *** Enough fuel: every loop returns *)

Lemma quotes_loop_total (fuel : nat) :
  forall p ln,
    Z.max 0 (textlen - pos p) < Z.of_nat fuel ->
    exists r, quotes_loop fuel p ln = Some r.
Proof.
  induction fuel as [|f IH]; intros p ln Hf; [lia|]. simpl.
  destruct (in_text p) eqn:Hin; [|eauto].
  apply in_text_inv in Hin.
  destruct (_ && _); [apply IH; simpl; lia|].
  destruct (_ && _); [eauto|].
  destruct (_ =? _)%char; apply IH; simpl; lia.
Qed.

Lemma normal_loop_total (fuel : nat) :
  forall p,
    Z.max 0 (textlen - pos p) < Z.of_nat fuel ->
    exists s, normal_loop fuel p = Some s.
Proof.
  induction fuel as [|f IH]; intros p Hf; [lia|]. simpl.
  destruct (in_text p) eqn:Hin; simpl; [|eauto].
  apply in_text_inv in Hin.
  destruct (_ && _); [|eauto].
  destruct (_ && _); [eauto|]. apply IH; simpl; lia.
Qed.

Lemma skip_spaces_total (fuel : nat) :
  forall p,
    strlen text - pos p <= Z.of_nat fuel -> (1 <= fuel)%nat ->
    exists p1, skip_spaces fuel p = Some p1.
Proof.
  induction fuel as [|f IH]; intros p Hf H1; [lia|]. simpl.
  destruct (Ascii.eqb_spec (char_at text (pos p + 1)) SPACE) as [Hsp|Hsp];
    [|eauto].
  assert (Hin : 0 <= pos p + 1 < strlen text).
  { apply char_at_inside. rewrite Hsp. discriminate. }
  apply IH; simpl; lia.
Qed.

Lemma parse_quotes_total (fuel : nat) (p : csv_p) (pool : tokpool) :
  Z.max 0 (textlen - pos p) < Z.of_nat fuel ->
  exists r, csvn_parse_quotes fuel p pool = Some r.
Proof.
  intros Hf. unfold csvn_parse_quotes.
  destruct (quotes_loop_total fuel p (line p) Hf) as [[pq ln] ->].
  destruct pool; [|eauto].
  destruct (csvn_allocate_token _ _ _) as [[[i p2] m2]|]; eauto.
Qed.

Lemma parse_normal_total (fuel : nat) (p : csv_p) (pool : tokpool) :
  Z.max 0 (textlen - pos p) < Z.of_nat fuel ->
  exists r, csvn_parse_normal fuel p pool = Some r.
Proof.
  intros Hf. unfold csvn_parse_normal.
  destruct (normal_loop_total fuel p Hf) as [[pn|code pn] ->]; [|eauto].
  destruct pool; [|eauto].
  destruct (csvn_allocate_token _ _ _) as [[[i p2] m2]|]; eauto.
Qed.

Lemma dispatch_total (fuel : nat) (p : csv_p) (pool : tokpool) (parsed : Z) :
  in_text p = true ->
  horizon - pos p < Z.of_nat fuel ->
  exists fl, dispatch fuel p pool parsed = Some fl.
Proof.
  intros Hin Hf. apply in_text_inv in Hin as (_ & Hpos & Hlen).
  unfold horizon in Hf. unfold dispatch.
  destruct (_ =? CSVN_NEWLINE)%char; [eauto|].
  destruct (_ =? CSVN_DELIM)%char.
  { unfold on_delim.
    destruct (skip_whitespace cfg && _).
    - destruct (skip_spaces_total fuel (set_pos p (pos p + 1))) as [p2 ->];
        [simpl; lia | lia |].
      repeat (destruct (_ : bool)); try destruct pool;
        try destruct (csvn_allocate_token _ _ _) as [[[i p3] m3]|]; eauto.
    - repeat (destruct (_ : bool)); try destruct pool;
        try destruct (csvn_allocate_token _ _ _) as [[[i p3] m3]|]; eauto. }
  destruct (_ =? DQ)%char.
  { unfold on_quote.
    destruct (parse_quotes_total fuel (set_pos p (pos p + 1)) pool)
      as [[[res p2] pool2] ->]; [simpl; lia|].
    repeat (destruct (_ : bool)); eauto. }
  unfold on_other.
  destruct (parse_normal_total fuel p pool) as [[[res p1] pool1] ->]; [lia|].
  destruct (negb _); eauto.
Qed.

Lemma parse_loop_total (fuel : nat) :
  forall p pool parsed,
    Z.max 0 (horizon - pos p) + 2 <= Z.of_nat fuel ->
    exists r, parse_loop fuel p pool parsed = Some r.
Proof.
  induction fuel as [|f IH]; intros p pool parsed Hf; [lia|]. simpl.
  destruct (in_text p) eqn:Hin; [|eauto].
  destruct (dispatch_total f p pool parsed Hin) as [fl Hfl]; [lia|].
  rewrite Hfl.
  apply dispatch_advance in Hfl; [|assumption].
  apply in_text_inv in Hin as (_ & Hpos & _). unfold horizon in *.
  destruct fl as [p1 pool1 parsed1|r p1 pool1]; [|eauto].
  simpl in Hfl. apply IH. lia.
Qed.

(** *** More fuel never changes a result *)

Lemma quotes_loop_more (f : nat) :
  forall f' p ln r,
    (f <= f')%nat -> quotes_loop f p ln = Some r -> quotes_loop f' p ln = Some r.
Proof.
  induction f as [|f IH]; intros f' p ln r Hle H; simpl in H; [discriminate|].
  destruct f' as [|f']; [lia|]. simpl.
  break_if_in H; try assumption; (apply IH; [lia|assumption]).
Qed.

Lemma normal_loop_more (f : nat) :
  forall f' p s,
    (f <= f')%nat -> normal_loop f p = Some s -> normal_loop f' p = Some s.
Proof.
  induction f as [|f IH]; intros f' p s Hle H; simpl in H; [discriminate|].
  destruct f' as [|f']; [lia|]. simpl.
  break_if_in H; try assumption; (apply IH; [lia|assumption]).
Qed.

Lemma skip_spaces_more (f : nat) :
  forall f' p p1,
    (f <= f')%nat -> skip_spaces f p = Some p1 -> skip_spaces f' p = Some p1.
Proof.
  induction f as [|f IH]; intros f' p p1 Hle H; simpl in H; [discriminate|].
  destruct f' as [|f']; [lia|]. simpl.
  break_if_in H; try assumption; (apply IH; [lia|assumption]).
Qed.

Lemma parse_quotes_more (f f' : nat) (p : csv_p) (pool : tokpool) r :
  (f <= f')%nat ->
  csvn_parse_quotes f p pool = Some r -> csvn_parse_quotes f' p pool = Some r.
Proof.
  unfold csvn_parse_quotes. intros Hle H.
  destruct (quotes_loop f p (line p)) as [[pq ln]|] eqn:Hq; [|discriminate].
  rewrite (quotes_loop_more f f' _ _ _ Hle Hq). assumption.
Qed.

Lemma parse_normal_more (f f' : nat) (p : csv_p) (pool : tokpool) r :
  (f <= f')%nat ->
  csvn_parse_normal f p pool = Some r -> csvn_parse_normal f' p pool = Some r.
Proof.
  unfold csvn_parse_normal. intros Hle H.
  destruct (normal_loop f p) as [s|] eqn:Hn; [|discriminate].
  rewrite (normal_loop_more f f' _ _ Hle Hn). assumption.
Qed.

Lemma dispatch_more (f f' : nat) (p : csv_p) (pool : tokpool) (parsed : Z) fl :
  (f <= f')%nat ->
  dispatch f p pool parsed = Some fl -> dispatch f' p pool parsed = Some fl.
Proof.
  unfold dispatch. intros Hle H.
  destruct (_ =? CSVN_NEWLINE)%char; [assumption|].
  destruct (_ =? CSVN_DELIM)%char.
  { unfold on_delim in *.
    destruct (skip_whitespace cfg && _); [|assumption].
    destruct (skip_spaces f _) as [p2|] eqn:Hs; [|discriminate].
    rewrite (skip_spaces_more f f' _ _ Hle Hs). assumption. }
  destruct (_ =? DQ)%char.
  { unfold on_quote in *.
    destruct (csvn_parse_quotes f _ pool) as [r|] eqn:Hq; [|discriminate].
    rewrite (parse_quotes_more f f' _ _ _ Hle Hq). assumption. }
  unfold on_other in *.
  destruct (csvn_parse_normal f p pool) as [r|] eqn:Hn; [|discriminate].
  rewrite (parse_normal_more f f' _ _ _ Hle Hn). assumption.
Qed.

Lemma parse_loop_more (f : nat) :
  forall f' p pool parsed r,
    (f <= f')%nat ->
    parse_loop f p pool parsed = Some r -> parse_loop f' p pool parsed = Some r.
Proof.
  induction f as [|f IH]; intros f' p pool parsed r Hle H; simpl in H;
    [discriminate|].
  destruct f' as [|f']; [lia|]. simpl.
  destruct (in_text p); [|assumption].
  destruct (dispatch f p pool parsed) as [fl|] eqn:Hd; [|discriminate].
  rewrite (dispatch_more f f' _ _ _ _ ltac:(lia) Hd).
  destruct fl; [|assumption]. apply IH; [lia|assumption].
Qed.

(** *** The loop as a whole *)

Lemma parse_loop_advance (fuel : nat) :
  forall p pool parsed r pf poolf,
    parse_loop fuel p pool parsed = Some (r, pf, poolf) ->
    pos p <= pos pf /\ (0 <= r -> parsed <= r).
Proof.
  induction fuel as [|f IH]; intros p pool parsed r pf poolf H; simpl in H;
    [discriminate|].
  destruct (in_text p) eqn:Hin; [|inversion H; subst; lia].
  destruct (dispatch f p pool parsed) as [fl|] eqn:Hd; [|discriminate].
  apply dispatch_advance in Hd; [|assumption].
  destruct fl as [p1 pool1 parsed1|r1 p1 pool1]; simpl in Hd.
  - apply IH in H. lia.
  - inversion H; subst. unfold NOT_ENOUGH_MEM, INVALID_CHARACTER in Hd. lia.
Qed.

Lemma iterates_advance (s s' : loop_state) :
  iterates cfg text textlen num_tok s s' ->
  pos (parser_of s) <= pos (parser_of s').
Proof.
  induction 1 as [s|fuel p pool parsed p1 pool1 parsed1 s Hin Hd _ IH].
  - lia.
  - apply dispatch_advance in Hd; [|assumption].
    simpl in Hd. unfold parser_of in *. simpl in *. lia.
Qed.

Lemma iterates_trans (s1 s2 s3 : loop_state) :
  iterates cfg text textlen num_tok s1 s2 ->
  iterates cfg text textlen num_tok s2 s3 ->
  iterates cfg text textlen num_tok s1 s3.
Proof.
  induction 1; intros H23; [assumption|].
  eapply iterates_next; eauto.
Qed.

(** The loop run from a later observation point gives the same result. *)
Lemma iterates_result (s s' : loop_state) :
  iterates cfg text textlen num_tok s s' ->
  forall fuel r,
    parse_loop fuel (parser_of s) (snd (fst s)) (snd s) = Some r ->
    exists fuel',
      parse_loop fuel' (parser_of s') (snd (fst s')) (snd s') = Some r.
Proof.
  induction 1 as [s|fuel0 p pool parsed p1 pool1 parsed1 s Hin Hd _ IH];
    intros fuel r H.
  - eauto.
  - unfold parser_of in *. simpl in *.
    destruct fuel as [|f]; simpl in H; [discriminate|].
    rewrite Hin in H.
    destruct (dispatch f p pool parsed) as [fl|] eqn:Hd'; [|discriminate].
    assert (fl = Continue p1 pool1 parsed1) as ->.
    { apply (dispatch_more _ (Nat.max f fuel0)) in Hd; [|lia].
      apply (dispatch_more _ (Nat.max f fuel0)) in Hd'; [|lia].
      congruence. }
    eapply IH. eassumption.
Qed.

(** *** Scanning does not look at [toknext] *)

Lemma quotes_loop_toknext (fuel : nat) (n : Z) :
  forall p ln p1 ln1,
    quotes_loop fuel p ln = Some (p1, ln1) ->
    quotes_loop fuel (with_toknext p n) ln = Some (with_toknext p1 n, ln1).
Proof.
  induction fuel as [|f IH]; intros p ln p1 ln1 H; simpl in H; [discriminate|].
  simpl. unfold in_text in *. simpl.
  break_if_in H;
    try (apply IH in H; exact H);
    inversion H; subst; reflexivity.
Qed.

Lemma normal_loop_toknext (fuel : nat) (n : Z) :
  forall p s,
    normal_loop fuel p = Some s ->
    normal_loop fuel (with_toknext p n)
    = Some (match s with
            | Done p1 => Done (with_toknext p1 n)
            | Abort code p1 => Abort code (with_toknext p1 n)
            end).
Proof.
  induction fuel as [|f IH]; intros p s H; simpl in H; [discriminate|].
  simpl. unfold in_text in *. simpl.
  break_if_in H;
    try (apply IH in H; exact H);
    inversion H; subst; reflexivity.
Qed.

Lemma skip_spaces_toknext (fuel : nat) (n : Z) :
  forall p p1,
    skip_spaces fuel p = Some p1 ->
    skip_spaces fuel (with_toknext p n) = Some (with_toknext p1 n).
Proof.
  induction fuel as [|f IH]; intros p p1 H; simpl in H; [discriminate|].
  simpl.
  break_if_in H;
    try (apply IH in H; exact H);
    inversion H; subst; reflexivity.
Qed.

(** *** A storing pass follows a counting pass *)

Lemma parse_quotes_store (fuel : nat) (p : csv_p) (res : Z) (p1 : csv_p)
    (pool1 : tokpool) (n : Z) (m : tokmem) :
  csvn_parse_quotes fuel p None = Some (res, p1, pool1) ->
  0 <= n <= num_tok ->
  res = 0 /\ pool1 = None
  /\ exists m1,
      csvn_parse_quotes fuel (with_toknext p n) (Some m)
      = Some (0, with_toknext p1 (n + 1), Some m1).
Proof.
  unfold csvn_parse_quotes. intros H Hn.
  destruct (quotes_loop fuel p (line p)) as [[pq ln]|] eqn:Hq; [|discriminate].
  inversion H; subst. repeat split.
  apply (quotes_loop_toknext _ n) in Hq. simpl. rewrite Hq.
  rewrite allocate_ok by (simpl; lia). simpl. eauto.
Qed.

Lemma parse_normal_store (fuel : nat) (p : csv_p) (p1 : csv_p)
    (pool1 : tokpool) (n : Z) (m : tokmem) :
  csvn_parse_normal fuel p None = Some (0, p1, pool1) ->
  0 <= n <= num_tok ->
  pool1 = None
  /\ exists m1,
      csvn_parse_normal fuel (with_toknext p n) (Some m)
      = Some (0, with_toknext p1 (n + 1), Some m1).
Proof.
  unfold csvn_parse_normal. intros H Hn.
  destruct (normal_loop fuel p) as [[pn|code pn]|] eqn:Hl; [| |discriminate].
  - apply (normal_loop_toknext _ n) in Hl. rewrite Hl. simpl.
    inversion H; subst. split; [reflexivity|].
    destruct (_ || _); rewrite allocate_ok by (simpl; lia); simpl; eauto.
  - apply normal_loop_advance in Hl as (-> & _). inversion H.
Qed.

Lemma dispatch_store (fuel : nat) (p : csv_p) (parsed : Z)
    (p1 : csv_p) (pool1 : tokpool) (parsed1 : Z) (n : Z) (m : tokmem) :
  dispatch fuel p None parsed = Some (Continue p1 pool1 parsed1) ->
  0 <= n <= num_tok ->
  pool1 = None
  /\ exists m1,
      dispatch fuel (with_toknext p n) (Some m) parsed
      = Some (Continue (with_toknext p1 (n + (parsed1 - parsed)))
                (Some m1) parsed1).
Proof.
  unfold dispatch. simpl. intros H Hn.
  destruct (_ =? CSVN_NEWLINE)%char.
  { inversion H; subst. split; [reflexivity|].
    exists m. unfold with_toknext. simpl. repeat f_equal. lia. }
  destruct (_ =? CSVN_DELIM)%char.
  { unfold on_delim in *. simpl.
    destruct (skip_whitespace cfg && _).
    - destruct (skip_spaces fuel (set_pos p (pos p + 1))) as [p2|] eqn:Hs;
        [|discriminate].
      apply (skip_spaces_toknext _ n) in Hs.
      change (set_pos (with_toknext p n) (pos p + 1))
        with (with_toknext (set_pos p (pos p + 1)) n).
      rewrite Hs. simpl.
      destruct (_ =? CSVN_DELIM)%char.
      + destruct (no_empty_field cfg); [discriminate|].
        destruct (ignore_empty_field cfg).
        * inversion H; subst. split; [reflexivity|]. exists m.
          repeat f_equal. lia.
        * inversion H; subst. split; [reflexivity|].
          rewrite allocate_ok by (simpl; lia). simpl.
          eexists. unfold with_toknext. simpl. repeat f_equal. lia.
      + inversion H; subst. split; [reflexivity|]. exists m.
        repeat f_equal. lia.
    - destruct (_ =? CSVN_DELIM)%char.
      + destruct (no_empty_field cfg); [discriminate|].
        destruct (ignore_empty_field cfg).
        * inversion H; subst. split; [reflexivity|]. exists m.
          unfold with_toknext, set_pos. simpl. repeat f_equal. lia.
        * inversion H; subst. split; [reflexivity|].
          rewrite allocate_ok by (simpl; lia). simpl.
          eexists. unfold with_toknext. simpl. repeat f_equal. lia.
      + inversion H; subst. split; [reflexivity|]. exists m.
        unfold with_toknext, set_pos. simpl. repeat f_equal. lia. }
  destruct (_ =? DQ)%char.
  { unfold on_quote in *.
    destruct (csvn_parse_quotes fuel (set_pos p (pos p + 1)) None)
      as [[[res p2] pool2]|] eqn:Hq; [|discriminate].
    assert (Hp1 : parsed1 = parsed + 1).
    { break_if_in H; inversion H; subst; reflexivity. }
    apply (parse_quotes_store _ _ _ _ _ n m) in Hq as (-> & -> & m1 & Hq);
      [|lia].
    change (set_pos (with_toknext p n) (pos (with_toknext p n) + 1))
      with (with_toknext (set_pos p (pos p + 1)) n).
    rewrite Hq. simpl in *. unfold in_text in *. simpl in *.
    break_if_in H; inversion H; subst; (split; [reflexivity|]);
      exists m1; unfold with_toknext, set_pos; simpl; repeat f_equal; lia. }
  unfold on_other in *.
  destruct (csvn_parse_normal fuel p None) as [[[res p2] pool2]|] eqn:Hn';
    [|discriminate].
  destruct (res =? 0) eqn:Hz; simpl in H; [|discriminate].
  apply Z.eqb_eq in Hz. subst res. inversion H; subst.
  apply (parse_normal_store _ _ _ _ n m) in Hn' as (-> & m1 & Hn'); [|lia].
  rewrite Hn'. simpl. split; [reflexivity|].
  exists m1. unfold with_toknext, set_pos. simpl. repeat f_equal. lia.
Qed.

Lemma parse_loop_store (fuel : nat) :
  forall p parsed r pf poolf n (m : tokmem),
    parse_loop fuel p None parsed = Some (r, pf, poolf) ->
    0 <= r -> 0 <= n -> n + (r - parsed) <= num_tok ->
    poolf = None
    /\ exists m1,
        parse_loop fuel (with_toknext p n) (Some m) parsed
        = Some (r, with_toknext pf (n + (r - parsed)), Some m1).
Proof.
  induction fuel as [|f IH]; intros p parsed r pf poolf n m H Hr Hn Hcap;
    simpl in H; [discriminate|].
  simpl. change (in_text (with_toknext p n)) with (in_text p).
  destruct (in_text p) eqn:Hin.
  - destruct (dispatch f p None parsed) as [fl|] eqn:Hd; [|discriminate].
    pose proof (dispatch_advance _ _ _ _ _ Hin Hd) as Hadv.
    destruct fl as [p1 pool1 parsed1|r1 p1 pool1]; simpl in Hadv.
    + pose proof (parse_loop_advance _ _ _ _ _ _ _ H) as [_ Hge].
      apply (dispatch_store _ _ _ _ _ _ n m) in Hd as (-> & m1 & Hd); [|lia].
      rewrite Hd.
      apply (IH _ _ _ _ _ (n + (parsed1 - parsed)) m1) in H
        as (-> & m2 & H); [|lia..].
      split; [reflexivity|]. exists m2. rewrite H.
      replace (n + (parsed1 - parsed) + (r - parsed1)) with (n + (r - parsed))
        by lia.
      reflexivity.
    + inversion H; subst.
      unfold NOT_ENOUGH_MEM, INVALID_CHARACTER in Hadv. lia.
  - inversion H; subst. split; [reflexivity|]. exists m.
    unfold with_toknext. repeat f_equal. lia.
Qed.

Lemma dispatch_store_return (fuel : nat) (p : csv_p) (parsed : Z)
    (r : Z) (p1 : csv_p) (pool1 : tokpool) (n : Z) (m : tokmem) :
  dispatch fuel p None parsed = Some (Return r p1 pool1) ->
  0 <= n <= num_tok ->
  exists n1 m1,
    dispatch fuel (with_toknext p n) (Some m) parsed
    = Some (Return r (with_toknext p1 n1) (Some m1)).
Proof.
  unfold dispatch. simpl. intros H Hn.
  destruct (_ =? CSVN_NEWLINE)%char; [discriminate|].
  destruct (_ =? CSVN_DELIM)%char.
  { unfold on_delim in *. simpl.
    destruct (skip_whitespace cfg && _).
    - destruct (skip_spaces fuel (set_pos p (pos p + 1))) as [p2|] eqn:Hs;
        [|discriminate].
      apply (skip_spaces_toknext _ n) in Hs.
      change (set_pos (with_toknext p n) (pos p + 1))
        with (with_toknext (set_pos p (pos p + 1)) n).
      rewrite Hs. simpl.
      destruct (_ =? CSVN_DELIM)%char; [|discriminate].
      destruct (no_empty_field cfg);
        [|destruct (ignore_empty_field cfg); discriminate].
      inversion H; subst. exists n, m. reflexivity.
    - destruct (_ =? CSVN_DELIM)%char; [|discriminate].
      destruct (no_empty_field cfg);
        [|destruct (ignore_empty_field cfg); discriminate].
      inversion H; subst. exists n, m. reflexivity. }
  destruct (_ =? DQ)%char.
  { unfold on_quote in *.
    destruct (csvn_parse_quotes fuel (set_pos p (pos p + 1)) None)
      as [[[res p2] pool2]|] eqn:Hq; [|discriminate].
    apply (parse_quotes_store _ _ _ _ _ n m) in Hq as (-> & -> & m1 & Hq);
      [|lia].
    change (set_pos (with_toknext p n) (pos (with_toknext p n) + 1))
      with (with_toknext (set_pos p (pos p + 1)) n).
    rewrite Hq. simpl in *. unfold in_text in *. simpl in *.
    break_if_in H; inversion H; subst. exists (n + 1), m1. reflexivity. }
  unfold on_other, csvn_parse_normal in *.
  destruct (normal_loop fuel p) as [[pn|code pn]|] eqn:Hl; [| |discriminate].
  - simpl in H. discriminate.
  - apply (normal_loop_toknext _ n) in Hl. rewrite Hl.
    destruct (negb (code =? 0)); inversion H; subst.
    exists n, m. reflexivity.
Qed.

(** With a capacity of at least the declared length the storing pass never
    runs out of slots, so it follows the counting pass to the same return
    value, error codes included. *)
Lemma parse_loop_store_wide (fuel : nat) :
  forall p parsed r pf poolf n (m : tokmem),
    parse_loop fuel p None parsed = Some (r, pf, poolf) ->
    0 <= n -> n + (textlen - pos p) <= num_tok + 1 ->
    exists n1 m1,
      parse_loop fuel (with_toknext p n) (Some m) parsed
      = Some (r, with_toknext pf n1, Some m1).
Proof.
  induction fuel as [|f IH]; intros p parsed r pf poolf n m H Hn Hcap;
    simpl in H; [discriminate|].
  simpl. change (in_text (with_toknext p n)) with (in_text p).
  destruct (in_text p) eqn:Hin.
  - destruct (dispatch f p None parsed) as [fl|] eqn:Hd; [|discriminate].
    pose proof (dispatch_advance _ _ _ _ _ Hin Hd) as Hadv.
    apply in_text_inv in Hin as (_ & Hpos & _).
    destruct fl as [p1 pool1 parsed1|r1 p1 pool1]; simpl in Hadv.
    + apply (dispatch_store _ _ _ _ _ _ n m) in Hd as (-> & m1 & Hd); [|lia].
      rewrite Hd.
      apply (IH _ _ _ _ _ (n + (parsed1 - parsed)) m1) in H; [|lia..].
      exact H.
    + apply (dispatch_store_return _ _ _ _ _ _ n m) in Hd as (n1 & m1 & Hd);
        [|lia].
      rewrite Hd. inversion H; subst. eauto.
  - inversion H; subst. exists n, m. reflexivity.
Qed.

(** *** The counting pass *)

(** Without a token store the only way out of the loop other than its exit
    test is [INVALID_CHARACTER], and only [CSVN_STRICT] or
    [CSVN_NO_EMPTY_FIELD] can raise it. *)
Lemma dispatch_count (fuel : nat) (p : csv_p) (parsed : Z) (fl : flow) :
  dispatch fuel p None parsed = Some fl ->
  match fl with
  | Continue _ pool1 parsed1 => pool1 = None /\ parsed <= parsed1
  | Return r _ pool1 =>
      pool1 = None /\ r = INVALID_CHARACTER
      /\ (strict cfg = true \/ no_empty_field cfg = true)
  end.
Proof.
  unfold dispatch. intros H.
  destruct (_ =? CSVN_NEWLINE)%char.
  { inversion H; subst; simpl. split; [reflexivity|lia]. }
  destruct (_ =? CSVN_DELIM)%char.
  { unfold on_delim in H.
    destruct (if skip_whitespace cfg && _ then _ else _) as [p2|];
      [|discriminate].
    destruct (_ =? CSVN_DELIM)%char;
      [|inversion H; subst; simpl; split; [reflexivity|lia]].
    destruct (no_empty_field cfg); [inversion H; subst; simpl; tauto|].
    destruct (ignore_empty_field cfg);
      inversion H; subst; simpl; split; (reflexivity || lia). }
  destruct (_ =? DQ)%char.
  { unfold on_quote, csvn_parse_quotes in H.
    destruct (quotes_loop _ _ _) as [[pq ln]|]; [|discriminate].
    simpl in H.
    destruct (strict cfg);
      [|inversion H; subst; simpl; split; [reflexivity|lia]].
    break_if_in H; inversion H; subst; simpl;
      repeat split; (reflexivity || lia || tauto). }
  unfold on_other, csvn_parse_normal in H.
  destruct (normal_loop fuel p) as [[pn|code pn]|] eqn:Hl; [| |discriminate].
  - simpl in H. inversion H; subst; simpl. split; [reflexivity|lia].
  - apply normal_loop_advance in Hl as (-> & Hs & _).
    simpl in H. inversion H; subst; simpl. tauto.
Qed.

Lemma parse_loop_count (fuel : nat) :
  forall p parsed r pf poolf,
    parse_loop fuel p None parsed = Some (r, pf, poolf) ->
    poolf = None
    /\ (strict cfg = false -> no_empty_field cfg = false -> parsed <= r).
Proof.
  induction fuel as [|f IH]; intros p parsed r pf poolf H; simpl in H;
    [discriminate|].
  destruct (in_text p); [|inversion H; subst; split; [reflexivity|lia]].
  destruct (dispatch f p None parsed) as [fl|] eqn:Hd; [|discriminate].
  apply dispatch_count in Hd.
  destruct fl as [p1 pool1 parsed1|r1 p1 pool1].
  - destruct Hd as [-> Hle]. apply IH in H as [-> Hr].
    split; [reflexivity|]. intros Hs Hne. specialize (Hr Hs Hne). lia.
  - destruct Hd as (-> & -> & Hopt). inversion H; subst.
    split; [reflexivity|]. intros Hs Hne. rewrite Hs, Hne in Hopt.
    destruct Hopt; discriminate.
Qed.

End ParserFacts.

(** The declared capacity plays no part when there is no token store. *)
Lemma count_mode_capacity (cfg : config) (text : string) (textlen k k' : Z)
    (fuel : nat) :
  forall p parsed,
    parse_loop cfg text textlen k fuel p None parsed
    = parse_loop cfg text textlen k' fuel p None parsed.
Proof.
  induction fuel as [|f IH]; intros p parsed; simpl; [reflexivity|].
  destruct (in_text text textlen p); [|reflexivity].
  change (dispatch cfg text textlen k' f p None parsed)
    with (dispatch cfg text textlen k f p None parsed).
  destruct (dispatch cfg text textlen k f p None parsed) as [fl|] eqn:Hd;
    [|reflexivity].
  apply dispatch_count in Hd.
  destruct fl as [p1 pool1 parsed1|r1 p1 pool1]; [|reflexivity].
  destruct Hd as [-> _]. apply IH.
Qed.

(** ** The allocator's bound *)

(** C1. The allocator refuses a slot only when [toknext] is above [num_tok]:
    with [toknext] equal to the capacity it still hands out the slot of that
    index.  So [a,b,c] parsed into an array declared with 2 slots returns 3,
    not [NOT_ENOUGH_MEM], and the third descriptor lands in slot 2. *)
Theorem allocator_overruns_capacity :
  (forall (n : nat) (x l : Z) (m : tokmem),
      csvn_allocate_token (mk_csv_p x (Z.of_nat n) l) (Some m) (Z.of_nat n)
      = Some (Z.of_nat n, mk_csv_p x (Z.of_nat n + 1) l,
              <[Z.of_nat n := mk_csv_t 0 0 0 0 UNASSIGN]> m))
  /\ retval (csvn_parse default_config text_abc 5 2 fresh (Some ∅)) = Some 3
  /\ slot (csvn_parse default_config text_abc 5 2 fresh (Some ∅)) 2
     = Some (mk_csv_t 4 5 1 1 DQUOTE).
Proof.
  split; [|split; vm_compute; reflexivity].
  intros n x l m. apply allocate_ok. simpl. lia.
Qed.

(** ** Field kinds *)

(** C2. The unquoted-field scanner stores [DQUOTE], the kind of a quoted
    field, never [TEXT]: whenever it returns 0 with a token store, the slot it
    took holds a descriptor of kind [DQUOTE].  In [a,] followed by a quoted
    [b] the two descriptors therefore carry the same kind. *)
Theorem unquoted_field_tagged_dquote :
  (forall cfg text textlen num_tok fuel p (m : tokmem) p1 pool1,
      csvn_parse_normal cfg text textlen num_tok fuel p (Some m)
      = Some (0, p1, pool1) ->
      token <$> slot (Some (0, p1, pool1)) (toknext p) = Some DQUOTE)
  /\ slot (csvn_parse default_config text_plain_quoted 5 2 fresh (Some ∅)) 0
     = Some (mk_csv_t 0 0 1 0 DQUOTE)
  /\ slot (csvn_parse default_config text_plain_quoted 5 2 fresh (Some ∅)) 1
     = Some (mk_csv_t 3 3 1 0 DQUOTE).
Proof.
  split; [|split; vm_compute; reflexivity].
  intros cfg text textlen num_tok fuel p m p1 pool1 H.
  unfold csvn_parse_normal in H.
  destruct (normal_loop _ _ _ _ _) as [[pn|code pn]|] eqn:Hn; [| |discriminate].
  - apply normal_loop_advance in Hn as (_ & Htn & _).
    set (p2 := if _ || _ then set_pos pn (pos pn - 1) else pn) in H.
    assert (Hp2 : toknext p2 = toknext p).
    { subst p2. destruct (_ || _); simpl; lia. }
    destruct (csvn_allocate_token p2 (Some m) num_tok) as [[[i p3] m3]|] eqn:Ha;
      [|discriminate].
    apply allocate_inv in Ha as (m0 & _ & _ & -> & -> & ->).
    inversion H; subst; simpl.
    unfold csvn_fill_token. rewrite Hp2, lookup_insert_eq. reflexivity.
  - apply normal_loop_advance in Hn as (-> & _). inversion H.
Qed.

(** ** Empty fields *)

(** C3 as stated fails: under the default policy the descriptor of the empty
    field of [a,,b] does not have size 0. *)
Lemma empty_field_not_zero_span :
  ~ (exists d,
        slot (csvn_parse default_config text_a_empty_b 4 3 fresh (Some ∅)) 1
        = Some d
        /\ token d = EMPTY /\ size d = 0).
Proof.
  intros (d & Hd & _ & Hsize). vm_compute in Hd.
  inversion Hd; subst. discriminate.
Qed.

(** C3, amended. On [a,,b]: with neither empty-field option the count is 3 and
    the middle descriptor is [EMPTY] and spans the two delimiters (start 1,
    end 2, size 1); with [CSVN_NO_EMPTY_FIELD] the result is
    [INVALID_CHARACTER]; with [CSVN_IGNORE_EMPTY_FIELD] alone the count is 2.
    The other options do not matter. *)
Theorem empty_field_policies :
  forall st cn sw : bool,
    retval (csvn_parse (mk_config st cn false false sw)
              text_a_empty_b 4 3 fresh (Some ∅)) = Some 3
    /\ slot (csvn_parse (mk_config st cn false false sw)
               text_a_empty_b 4 3 fresh (Some ∅)) 1
       = Some (mk_csv_t 1 2 1 1 EMPTY)
    /\ (forall ig : bool,
          retval (csvn_parse (mk_config st cn true ig sw)
                    text_a_empty_b 4 3 fresh (Some ∅))
          = Some INVALID_CHARACTER)
    /\ retval (csvn_parse (mk_config st cn false true sw)
                 text_a_empty_b 4 3 fresh (Some ∅)) = Some 2.
Proof.
  intros [] [] []; repeat split; try (intros []); vm_compute; reflexivity.
Qed.

(** ** Escaped quotes *)

(** C4 as stated fails: the bytes from [start] to [end] of the descriptor are
    not the decoded text; both quotes of the pair are still there. *)
Lemma escaped_quote_not_decoded :
  ~ (exists d,
        retval (csvn_parse default_config text_escaped 6 1 fresh (Some ∅))
        = Some 1
        /\ slot (csvn_parse default_config text_escaped 6 1 fresh (Some ∅)) 0
           = Some d
        /\ token d = DQUOTE
        /\ get_parsed d text_escaped = ("a" ++ q ++ "b")%string).
Proof.
  intros (d & _ & Hd & _ & Htxt). vm_compute in Hd.
  inversion Hd; subst. vm_compute in Htxt. discriminate.
Qed.

(** C4, amended. The quoted field with a doubled quote inside is one field of
    kind [DQUOTE] from offset 1 to offset 4, and the bytes of that span are
    the raw text, doubled quote included. *)
Theorem escaped_quote_span :
  forall st cn ne ig sw : bool,
    retval (csvn_parse (mk_config st cn ne ig sw)
              text_escaped 6 1 fresh (Some ∅)) = Some 1
    /\ slot (csvn_parse (mk_config st cn ne ig sw)
               text_escaped 6 1 fresh (Some ∅)) 0
       = Some (mk_csv_t 1 4 1 3 DQUOTE)
    /\ get_parsed (mk_csv_t 1 4 1 3 DQUOTE) text_escaped
       = ("a" ++ q ++ q ++ "b")%string.
Proof.
  intros [] [] [] [] []; repeat split; vm_compute; reflexivity.
Qed.

(** ** Line numbers *)

(** C7. On the two rows [a,b] and [c,d] the four descriptors carry lines 1, 1,
    2, 2, whatever the options.  In general the newline case of the dispatch
    loop adds one to the parser's line and moves one byte on, and a
    descriptor stored by the unquoted-field scanner records the line and the
    position the parser had when the scan began. *)
Theorem line_tracking :
  (forall st cn ne ig sw : bool,
      let r := csvn_parse (mk_config st cn ne ig sw)
                 text_two_rows 7 4 fresh (Some ∅) in
      retval r = Some 4
      /\ tline <$> slot r 0 = Some 1 /\ tline <$> slot r 1 = Some 1
      /\ tline <$> slot r 2 = Some 2 /\ tline <$> slot r 3 = Some 2)
  /\ (forall cfg text textlen num_tok fuel p pool parsed,
        char_at text (pos p) = CSVN_NEWLINE ->
        dispatch cfg text textlen num_tok fuel p pool parsed
        = Some (Continue (mk_csv_p (pos p + 1) (toknext p) (line p + 1))
                  pool parsed))
  /\ (forall cfg text textlen num_tok fuel p (m : tokmem) p1 pool1,
        csvn_parse_normal cfg text textlen num_tok fuel p (Some m)
        = Some (0, p1, pool1) ->
        line p1 = line p
        /\ exists d, slot (Some (0, p1, pool1)) (toknext p) = Some d
                     /\ tline d = line p /\ start d = pos p).
Proof.
  split; [|split].
  - intros [] [] [] [] []; repeat split; vm_compute; reflexivity.
  - intros cfg text textlen num_tok fuel p pool parsed Hc.
    unfold dispatch. rewrite Hc. reflexivity.
  - intros cfg text textlen num_tok fuel p m p1 pool1 H.
    unfold csvn_parse_normal in H.
    destruct (normal_loop _ _ _ _ _) as [[pn|code pn]|] eqn:Hn; [| |discriminate].
    + apply normal_loop_advance in Hn as (_ & Htn & Hln).
      set (p2 := if _ || _ then set_pos pn (pos pn - 1) else pn) in H.
      assert (Hp2 : toknext p2 = toknext p /\ line p2 = line p).
      { subst p2. destruct (_ || _); simpl; lia. }
      destruct (csvn_allocate_token p2 (Some m) num_tok) as [[[i p3] m3]|] eqn:Ha;
        [|discriminate].
      apply allocate_inv in Ha as (m0 & _ & _ & -> & -> & ->).
      inversion H; subst; simpl. split; [lia|].
      unfold csvn_fill_token. destruct Hp2 as [-> _].
      rewrite lookup_insert_eq. eexists; split; [reflexivity|]. simpl. lia.
    + apply normal_loop_advance in Hn as (-> & _).
      inversion H.
Qed.

(** ** Strict mode after a quoted field *)

(** C6. With [CSVN_STRICT], once the quoted-field scanner has returned 0 for
    a field opened at [p], the byte after the closing quote decides: if it is
    neither the delimiter nor the newline and the text goes on there,
    [csvn_parse] returns [INVALID_CHARACTER]; if it is the delimiter, the
    newline or the end of the text, the iteration counts the field and the
    loop goes on. *)
Theorem strict_after_closing_quote
    (cfg : config) (text : string) (textlen num_tok : Z) (fuel : nat)
    (p : csv_p) (pool : tokpool) (parsed : Z) (p2 : csv_p) (pool2 : tokpool) :
  strict cfg = true ->
  in_text text textlen p = true ->
  char_at text (pos p) = DQ ->
  csvn_parse_quotes cfg text textlen num_tok fuel (set_pos p (pos p + 1)) pool
  = Some (0, p2, pool2) ->
  let p3 := set_pos p2 (pos p2 + 1) in
  let c := char_at text (pos p3) in
  (c <> CSVN_DELIM -> c <> CSVN_NEWLINE -> in_text text textlen p3 = true ->
   parse_loop cfg text textlen num_tok (S fuel) p pool parsed
   = Some (INVALID_CHARACTER, p3, pool2))
  /\ (c = CSVN_DELIM \/ c = CSVN_NEWLINE \/ in_text text textlen p3 = false ->
      dispatch cfg text textlen num_tok fuel p pool parsed
      = Some (Continue p3 pool2 (parsed + 1))).
Proof.
  intros Hs Hin Hq Hscan p3 c.
  assert (Hd : dispatch cfg text textlen num_tok fuel p pool parsed
               = on_quote cfg text textlen num_tok fuel p pool parsed).
  { unfold dispatch. rewrite Hq. reflexivity. }
  assert (Hon : on_quote cfg text textlen num_tok fuel p pool parsed
                = Some (if (c =? CSVN_DELIM)%char || (c =? CSVN_NEWLINE)%char
                        then Continue p3 pool2 (parsed + 1)
                        else if in_text text textlen p3
                             then Return INVALID_CHARACTER p3 pool2
                             else Continue p3 pool2 (parsed + 1))).
  { unfold on_quote. rewrite Hscan, Hs. simpl. fold p3. fold c.
    unfold in_text. fold c.
    destruct (_ || _); [reflexivity|]. destruct (_ && _); reflexivity. }
  split.
  - intros Hnd Hnn Hin3. simpl. rewrite Hin, Hd, Hon.
    apply Ascii.eqb_neq in Hnd, Hnn. rewrite Hnd, Hnn, Hin3. reflexivity.
  - intros Hc. rewrite Hd, Hon.
    destruct Hc as [Hc|[Hc|Hc]].
    + rewrite Hc. reflexivity.
    + rewrite Hc. rewrite orb_true_r. reflexivity.
    + rewrite Hc. destruct (_ || _); reflexivity.
Qed.

(** The text made of a quoted [a] directly followed by [b], under
    [CSVN_STRICT]: the whole call returns [INVALID_CHARACTER], the parser left
    on the offending byte. *)
Lemma strict_after_closing_quote_witness :
  csvn_parse strict_config text_quote_then_b 4 1 fresh (Some ∅)
  = Some (INVALID_CHARACTER, mk_csv_p 3 1 1,
          Some (csvn_fill_token (<[0 := mk_csv_t 0 0 0 0 UNASSIGN]> ∅)
                  0 1 1 1 DQUOTE)).
Proof.
  apply (proj1 (strict_after_closing_quote strict_config text_quote_then_b 4 1
                  5 fresh (Some ∅) 0 (mk_csv_p 2 1 1)
                  (Some (csvn_fill_token (<[0 := mk_csv_t 0 0 0 0 UNASSIGN]> ∅)
                           0 1 1 1 DQUOTE))
                  eq_refl eq_refl eq_refl eq_refl)).
  - discriminate.
  - discriminate.
  - reflexivity.
Defined.

(** ** A delimiter at the end of a row *)

(** The delimiter case emits or rejects an empty field only when the byte it
    looks at after the delimiter is a delimiter too. *)
Lemma on_delim_plain
    (cfg : config) (text : string) (num_tok : Z) (fuel : nat)
    (p : csv_p) (pool : tokpool) (parsed : Z) :
  char_at text (pos p + 1) <> CSVN_DELIM ->
  skip_whitespace cfg = false \/ char_at text (pos p + 1) <> SPACE ->
  on_delim cfg text num_tok fuel p pool parsed
  = Some (Continue (set_pos p (pos p + 1)) pool parsed).
Proof.
  intros Hd Hsp. unfold on_delim. simpl.
  assert (Hskip : skip_whitespace cfg && (char_at text (pos p + 1) =? SPACE)%char
                  = false).
  { destruct Hsp as [->|Hsp]; [reflexivity|].
    apply Ascii.eqb_neq in Hsp. rewrite Hsp. apply andb_false_r. }
  rewrite Hskip. simpl.
  apply Ascii.eqb_neq in Hd. rewrite Hd. reflexivity.
Qed.

(** C9. When the byte after a delimiter is the newline or the NUL that ends
    the text, the iteration only steps over the delimiter: the token store,
    [toknext], the line and the count of parsed fields are unchanged, under
    every combination of options.  When the input ends after the delimiter by
    its declared length only, the delimiter case still reads the next byte of
    the buffer, which lies outside the declared text: on [a,,b] declared with
    2 bytes, a trailing [a,] by that length, the second delimiter makes the
    call store an [EMPTY] descriptor that ends at the offset 2 and count 2
    fields, or return [INVALID_CHARACTER] under [CSVN_NO_EMPTY_FIELD]; only
    [CSVN_IGNORE_EMPTY_FIELD] hides it.  The same declared text followed by a
    NUL gives 1 field. *)
Theorem delimiter_at_declared_end :
  (forall (cfg : config) (text : string) (textlen num_tok : Z) (fuel : nat)
          (p : csv_p) (pool : tokpool) (parsed : Z),
      char_at text (pos p) = CSVN_DELIM ->
      char_at text (pos p + 1) = CSVN_NEWLINE
      \/ char_at text (pos p + 1) = NUL ->
      dispatch cfg text textlen num_tok fuel p pool parsed
      = Some (Continue (mk_csv_p (pos p + 1) (toknext p) (line p)) pool
                parsed))
  /\ (forall st cn sw : bool,
        csvn_parse (mk_config st cn false false sw) text_a_empty_b 2 4 fresh
          (Some ∅)
        = Some (2, mk_csv_p 2 2 1,
                Some (<[1 := mk_csv_t 1 2 1 1 EMPTY]>
                        (<[0 := mk_csv_t 0 0 1 0 DQUOTE]> ∅)))
        /\ retval (csvn_parse (mk_config st cn false false sw)
                     text_a_empty_b 2 0 fresh None) = Some 2)
  /\ (forall st cn ig sw : bool,
        retval (csvn_parse (mk_config st cn true ig sw) text_a_empty_b 2 4
                  fresh (Some ∅)) = Some INVALID_CHARACTER)
  /\ (forall st cn sw : bool,
        retval (csvn_parse (mk_config st cn false true sw) text_a_empty_b 2 4
                  fresh (Some ∅)) = Some 1)
  /\ (forall st cn ne ig sw : bool,
        retval (csvn_parse (mk_config st cn ne ig sw) text_trailing_delim 2 4
                  fresh (Some ∅)) = Some 1).
Proof.
  split.
  { intros cfg text textlen num_tok fuel p pool parsed Hc Hnext.
    unfold dispatch. rewrite Hc. simpl.
    apply on_delim_plain.
    - destruct Hnext as [-> | ->]; discriminate.
    - right. destruct Hnext as [-> | ->]; discriminate. }
  split; [intros [] [] []; split; vm_compute; reflexivity|].
  split; [intros [] [] [] []; vm_compute; reflexivity|].
  split; [intros [] [] []; vm_compute; reflexivity|].
  intros [] [] [] [] []; vm_compute; reflexivity.
Qed.

(** Whole calls on [a,] followed by a newline and [b], and on [a,] followed
    by the NUL: 2 fields and 1 field, whatever the empty-field policy and the
    other options. *)
Lemma row_end_delimiter_counts :
  forall st cn ne ig sw : bool,
    retval (csvn_parse (mk_config st cn ne ig sw)
              text_delim_newline 4 4 fresh (Some ∅)) = Some 2
    /\ slot (csvn_parse (mk_config st cn ne ig sw)
               text_delim_newline 4 4 fresh (Some ∅)) 2 = None
    /\ retval (csvn_parse (mk_config st cn ne ig sw)
                 text_trailing_delim 2 4 fresh (Some ∅)) = Some 1
    /\ slot (csvn_parse (mk_config st cn ne ig sw)
               text_trailing_delim 2 4 fresh (Some ∅)) 1 = None.
Proof.
  intros [] [] [] [] []; repeat split; vm_compute; reflexivity.
Qed.

(** ** The position only grows *)

(** C8. Take any two observation points of the dispatch loop, [s2] no
    earlier than [s1], in a call that began in [s1] or before: [pos] at [s1]
    is at most [pos] at [s2], which is at most [pos] when the call returns.
    A scanner invoked by an iteration does not leave [pos] behind the place
    where the iteration started either, the unquoted-field scanner's step back
    before a delimiter included. *)
Theorem pos_never_decreases :
  forall (cfg : config) (text : string) (textlen num_tok : Z),
    (forall (s0 s1 s2 : loop_state) fuel r pf poolf,
        iterates cfg text textlen num_tok s0 s1 ->
        iterates cfg text textlen num_tok s1 s2 ->
        parse_loop cfg text textlen num_tok fuel
          (parser_of s0) (snd (fst s0)) (snd s0) = Some (r, pf, poolf) ->
        pos (parser_of s0) <= pos (parser_of s1)
        /\ pos (parser_of s1) <= pos (parser_of s2)
        /\ pos (parser_of s2) <= pos pf)
    /\ (forall fuel p pool res p1 pool1,
          csvn_parse_quotes cfg text textlen num_tok fuel p pool
          = Some (res, p1, pool1) ->
          pos p <= pos p1)
    /\ (forall fuel p pool res p1 pool1,
          in_text text textlen p = true ->
          char_at text (pos p) <> CSVN_NEWLINE ->
          char_at text (pos p) <> CSVN_DELIM ->
          csvn_parse_normal cfg text textlen num_tok fuel p pool
          = Some (res, p1, pool1) ->
          pos p <= pos p1).
Proof.
  intros cfg text textlen num_tok. split; [|split].
  - intros s0 s1 s2 fuel r pf poolf H01 H12 Hrun.
    pose proof (iterates_advance _ _ _ _ _ _ H01) as H1.
    pose proof (iterates_advance _ _ _ _ _ _ H12) as H2.
    pose proof (iterates_trans _ _ _ _ _ _ _ H01 H12) as H02.
    destruct (iterates_result _ _ _ _ _ _ H02 _ _ Hrun) as [fuel' Hrun'].
    apply parse_loop_advance in Hrun'. lia.
  - intros fuel p pool res p1 pool1 H.
    apply parse_quotes_advance in H. lia.
  - intros fuel p pool res p1 pool1 Hin Hnl Hd H.
    apply parse_normal_advance in H; [lia|assumption..].
Qed.

(** The first two iterations of a counting pass over [a,,b], which ends
    with [pos] at 5. *)
Lemma pos_never_decreases_witness :
  pos (parser_of (fresh, None, 0)) <= pos (parser_of (mk_csv_p 1 0 1, None, 1))
  /\ pos (parser_of (mk_csv_p 1 0 1, None, 1))
     <= pos (parser_of (mk_csv_p 2 0 1, None, 2))
  /\ pos (parser_of (mk_csv_p 2 0 1, None, 2)) <= pos (mk_csv_p 5 0 1).
Proof.
  apply (proj1 (pos_never_decreases default_config text_a_empty_b 4 0)
           (fresh, None, 0) (mk_csv_p 1 0 1, None, 1) (mk_csv_p 2 0 1, None, 2)
           6%nat 3 (mk_csv_p 5 0 1) None).
  - apply (iterates_next _ _ _ _ 5%nat fresh None 0 (mk_csv_p 1 0 1) None 1);
      [reflexivity | reflexivity | apply iterates_here].
  - apply (iterates_next _ _ _ _ 5%nat (mk_csv_p 1 0 1) None 1
             (mk_csv_p 2 0 1) None 2);
      [reflexivity | reflexivity | apply iterates_here].
  - reflexivity.
Defined.

(** ** Termination *)

(** C10. [csvn_parse] returns on every text, declared length, parser and
    token store: the fuel of [enough_fuel] gives a result, and so does any
    larger amount, with the same result.  The reason is that an iteration of
    the dispatch loop after which the loop goes on has moved [pos] forward, by
    two bytes at least in the quote case and by one at least in the others. *)
Theorem parse_terminates :
  forall (cfg : config) (text : string) (textlen num_tok : Z)
         (p : csv_p) (pool : tokpool),
    (exists r,
        csvn_parse cfg text textlen num_tok p pool = Some r
        /\ forall fuel, (enough_fuel text textlen p <= fuel)%nat ->
             parse_loop cfg text textlen num_tok fuel p pool 0 = Some r)
    /\ (forall fuel parsed p1 pool1 parsed1,
          in_text text textlen p = true ->
          dispatch cfg text textlen num_tok fuel p pool parsed
          = Some (Continue p1 pool1 parsed1) ->
          pos p + (if (char_at text (pos p) =? DQ)%char then 2 else 1)
          <= pos p1).
Proof.
  intros cfg text textlen num_tok p pool. split.
  - destruct (parse_loop_total cfg text textlen num_tok
                (enough_fuel text textlen p) p pool 0) as [r Hr].
    { unfold enough_fuel, horizon, strlen. lia. }
    exists r. split; [exact Hr|].
    intros fuel Hle. eapply parse_loop_more; eassumption.
  - intros fuel parsed p1 pool1 parsed1 Hin Hd.
    destruct (char_at text (pos p) =? DQ)%char eqn:Hq.
    + unfold dispatch in Hd. rewrite Hq in Hd.
      apply Ascii.eqb_eq in Hq. rewrite Hq in Hd. simpl in Hd.
      apply on_quote_advance in Hd. simpl in Hd. lia.
    + apply dispatch_advance in Hd; [|assumption]. simpl in Hd. lia.
Qed.

(** ** Counting and storing *)

(** C5. Call [csvn_parse] without a token store and with capacity 0, reset
    the parser with [csvn_init], and call it again on the same text with a
    store.  The first call returns, without a store.  When it returned a field
    count [r] and the declared capacity is at least [r], the second call
    returns [r] as well, ends at the same position and line, and has handed
    out [r] slots.  With neither [CSVN_STRICT] nor [CSVN_NO_EMPTY_FIELD] the
    first call always returns a count, never an error code; with them it may
    return [INVALID_CHARACTER], and then so does the second call when its
    capacity is at least the declared length. *)
Theorem counting_storing_agree
    (cfg : config) (text : string) (textlen num_tok : Z)
    (p0 : csv_p) (m : tokmem) :
  exists r pc,
    csvn_parse cfg text textlen 0 (csvn_init p0) None = Some (r, pc, None)
    /\ (strict cfg = false -> no_empty_field cfg = false -> 0 <= r)
    /\ (0 <= r -> r <= num_tok ->
        exists m1,
          csvn_parse cfg text textlen num_tok (csvn_init pc) (Some m)
          = Some (r, with_toknext pc r, Some m1))
    /\ (textlen <= num_tok ->
        exists n1 m1,
          csvn_parse cfg text textlen num_tok (csvn_init pc) (Some m)
          = Some (r, with_toknext pc n1, Some m1)).
Proof.
  destruct (parse_loop_total cfg text textlen 0
              (enough_fuel text textlen (csvn_init p0)) (csvn_init p0) None 0)
    as [[[r pc] poolc] H].
  { unfold enough_fuel, horizon, strlen. lia. }
  pose proof (parse_loop_count _ _ _ _ _ _ _ _ _ _ H) as [-> Hnn].
  exists r, pc. unfold csvn_parse. split; [exact H|]. split; [|split].
  - intros Hs Hne. exact (Hnn Hs Hne).
  - intros H0 Hcap.
    rewrite (count_mode_capacity cfg text textlen 0 num_tok) in H.
    apply (parse_loop_store cfg text textlen num_tok _ _ _ _ _ _ 0 m) in H
      as (_ & m1 & H); [|lia..].
    exists m1.
    replace (0 + (r - 0)) with r in H by lia. exact H.
  - intros Hcap.
    rewrite (count_mode_capacity cfg text textlen 0 num_tok) in H.
    apply (parse_loop_store_wide cfg text textlen num_tok _ _ _ _ _ _ 0 m) in H;
      [exact H|lia|simpl; lia].
Qed.

(** On [a,,b] with the default options: 3 fields counted, then 3 stored. *)
Lemma counting_storing_agree_witness :
  csvn_parse default_config text_a_empty_b 4 0 (csvn_init (mk_csv_p 7 7 7)) None
  = Some (3, mk_csv_p 5 0 1, None)
  /\ retval (csvn_parse default_config text_a_empty_b 4 4
               (csvn_init (mk_csv_p 5 0 1)) (Some ∅))
     = Some 3
  /\ exists r pc,
       csvn_parse default_config text_a_empty_b 4 0
         (csvn_init (mk_csv_p 7 7 7)) None
       = Some (r, pc, None)
       /\ (strict default_config = false ->
           no_empty_field default_config = false -> 0 <= r)
       /\ (0 <= r -> r <= 4 ->
           exists m1,
             csvn_parse default_config text_a_empty_b 4 4 (csvn_init pc)
               (Some ∅)
             = Some (r, with_toknext pc r, Some m1))
       /\ (4 <= 4 ->
           exists n1 m1,
             csvn_parse default_config text_a_empty_b 4 4 (csvn_init pc)
               (Some ∅)
             = Some (r, with_toknext pc n1, Some m1)).
Proof.
  split; [reflexivity|]. split; [vm_compute; reflexivity|].
  exact (counting_storing_agree default_config text_a_empty_b 4 4
           (mk_csv_p 7 7 7) ∅).
Defined.

(** * Further properties of the parser *)

(** ** Runs *)

Lemma all_from_spec (f : Z -> bool) (n : nat) :
  forall a,
    all_from f a n = true <->
    (forall i, a <= i < a + Z.of_nat n -> f i = true).
Proof.
  induction n as [|k IH]; intros a; simpl.
  - split; [intros _ i Hi; lia|reflexivity].
  - rewrite andb_true_iff, IH. split.
    + intros [Ha Hrest] i Hi.
      destruct (Z.eq_dec i a) as [->|Hne]; [assumption|].
      apply Hrest. lia.
    + intros H. split; [apply H; lia|]. intros i Hi. apply H. lia.
Qed.

Lemma count_from_app (f : Z -> bool) (n : nat) :
  forall a m,
    count_from f a (n + m)
    = count_from f a n + count_from f (a + Z.of_nat n) m.
Proof.
  induction n as [|k IH]; intros a m.
  - simpl. replace (a + Z.of_nat 0) with a by lia. reflexivity.
  - cbn [count_from Nat.add]. rewrite IH.
    replace (a + 1 + Z.of_nat k) with (a + Z.of_nat (S k)) by lia. lia.
Qed.

Lemma count_from_none (f : Z -> bool) (n : nat) :
  forall a,
    (forall i, a <= i < a + Z.of_nat n -> f i = false) ->
    count_from f a n = 0.
Proof.
  induction n as [|k IH]; intros a H; simpl; [reflexivity|].
  rewrite (H a) by lia. rewrite IH; [reflexivity|].
  intros i Hi. apply H. lia.
Qed.

Lemma newlines_between_empty (text : string) (a b : Z) :
  b <= a -> newlines_between text a b = 0.
Proof.
  intros H. unfold newlines_between.
  replace (Z.to_nat (b - a)) with O by lia. reflexivity.
Qed.

Lemma newlines_between_split (text : string) (a b c : Z) :
  a <= b <= c ->
  newlines_between text a c
  = newlines_between text a b + newlines_between text b c.
Proof.
  intros H. unfold newlines_between.
  replace (Z.to_nat (c - a)) with (Z.to_nat (b - a) + Z.to_nat (c - b))%nat
    by lia.
  rewrite count_from_app. repeat f_equal. lia.
Qed.

Lemma newlines_between_none (text : string) (a b : Z) :
  (forall i, a <= i < b -> char_at text i <> CSVN_NEWLINE) ->
  newlines_between text a b = 0.
Proof.
  intros H. unfold newlines_between. apply count_from_none.
  intros i Hi. unfold is_newline. apply Ascii.eqb_neq. apply H. lia.
Qed.

Lemma newlines_between_one (text : string) (a : Z) :
  newlines_between text a (a + 1)
  = if (char_at text a =? CSVN_NEWLINE)%char then 1 else 0.
Proof.
  unfold newlines_between.
  replace (Z.to_nat (a + 1 - a)) with 1%nat by lia.
  simpl. unfold is_newline. lia.
Qed.

(** ** What an iteration does to the token store *)

Lemma allocate_none (p : csv_p) (m : tokmem) (num_tok : Z) :
  csvn_allocate_token p (Some m) num_tok = None ->
  int_gt_size (toknext p) num_tok = true.
Proof.
  unfold csvn_allocate_token. destruct (int_gt_size _ _); [reflexivity|].
  discriminate.
Qed.

Section StoreFacts.

Variable cfg : config.
Variable text : string.
Variable textlen : Z.
Variable num_tok : Z.

Local Abbreviation in_text := (in_text text textlen).
Local Abbreviation quotes_loop := (quotes_loop cfg text textlen).
Local Abbreviation normal_loop := (normal_loop cfg text textlen).
Local Abbreviation skip_spaces := (skip_spaces text).
Local Abbreviation dispatch := (dispatch cfg text textlen num_tok).
Local Abbreviation parse_loop := (parse_loop cfg text textlen num_tok).
Local Abbreviation csvn_parse := (csvn_parse cfg text textlen num_tok).
Local Abbreviation step_effect := (step_effect cfg text textlen num_tok).
Local Abbreviation offending_byte := (offending_byte cfg text textlen).

Lemma quotes_loop_local_line (fuel : nat) :
  forall p ln p1 ln1,
    quotes_loop fuel p ln = Some (p1, ln1) ->
    ln <= ln1 /\ ln1 - ln <= line p1 - line p.
Proof.
  induction fuel as [|f IH]; intros p ln p1 ln1 H; simpl in H; [discriminate|].
  break_if_in H;
    try (apply IH in H; simpl in H; lia);
    inversion H; subst; lia.
Qed.

Lemma normal_loop_abort_at (fuel : nat) :
  forall p code p1,
    normal_loop fuel p = Some (Abort code p1) ->
    in_text p1 = true /\ char_at text (pos p1) = DQ.
Proof.
  induction fuel as [|f IH]; intros p code p1 H; simpl in H; [discriminate|].
  destruct (in_text p) eqn:Hin; simpl in H; [|discriminate].
  destruct (_ && _) eqn:Hc; [|discriminate].
  destruct (strict cfg); simpl in H; [|eapply IH; eassumption].
  destruct (Ascii.eqb_spec (char_at text (pos p)) DQ) as [Hq|Hq].
  - inversion H; subst. split; assumption.
  - eapply IH; eassumption.
Qed.

Lemma dispatch_effect (fuel : nat) (p : csv_p) (pool : tokpool)
    (parsed : Z) (fl : flow) :
  in_text p = true ->
  dispatch fuel p pool parsed = Some fl ->
  step_effect p pool parsed fl.
Proof.
  unfold dispatch. intros Hin H.
  destruct (Ascii.eqb_spec (char_at text (pos p)) CSVN_NEWLINE) as [Hnl|Hnl].
  { inversion H; subst; simpl. left. auto. }
  destruct (Ascii.eqb_spec (char_at text (pos p)) CSVN_DELIM) as [Hd|Hd].
  { unfold on_delim in H.
    set (p1 := set_pos p (pos p + 1)) in *.
    destruct (if skip_whitespace cfg && _ then skip_spaces fuel p1 else Some p1)
      as [p2|] eqn:Hs; [|discriminate].
    assert (Hp2 : pos p + 1 <= pos p2 /\ line p2 = line p
                  /\ toknext p2 = toknext p).
    { destruct (skip_whitespace cfg && _).
      - apply skip_spaces_advance in Hs. simpl in Hs. lia.
      - inversion Hs; subst; simpl. lia. }
    destruct Hp2 as (Hpos2 & Hline2 & Htn2).
    destruct (Ascii.eqb_spec (char_at text (pos p2)) CSVN_DELIM) as [Hd2|Hd2];
      [|inversion H; subst; simpl; left; auto].
    destruct (no_empty_field cfg) eqn:Hne.
    { inversion H; subst; simpl. right.
      split; [reflexivity|]. split; [left; auto|]. left; auto. }
    destruct (ignore_empty_field cfg); [inversion H; subst; simpl; left; auto|].
    destruct pool as [m|]; [|inversion H; subst; simpl; left; auto].
    destruct (csvn_allocate_token p2 (Some m) num_tok) as [[[i p3] m3]|] eqn:Ha.
    - apply allocate_inv in Ha as (m0 & Hm0 & Hcap & -> & -> & ->).
      inversion Hm0; subst m0. inversion H; subst; simpl. right.
      unfold csvn_fill_token. rewrite insert_insert_eq, Htn2.
      eexists _, _. split; [reflexivity|]. split; [lia|].
      split; [reflexivity|]. split; [lia|]. split; [reflexivity|].
      unfold well_filled; simpl. intuition lia.
    - apply allocate_none in Ha. rewrite Htn2 in Ha.
      inversion H; subst; simpl. left. intuition congruence. }
  destruct (Ascii.eqb_spec (char_at text (pos p)) DQ) as [Hq|Hq].
  { unfold on_quote, csvn_parse_quotes in H.
    destruct (quotes_loop fuel (set_pos p (pos p + 1)) _) as [[pq ln]|] eqn:Hl;
      [|discriminate].
    pose proof (quotes_loop_advance _ _ _ _ _ _ _ _ Hl) as (Hpos & Htn & Hline).
    apply quotes_loop_local_line in Hl as (Hln0 & Hln1).
    simpl in Hpos, Htn, Hline, Hln0, Hln1.
    assert (Hch : forall pa pool1,
               pos pa = pos pq + 1 ->
               (if strict cfg
                then
                  if (char_at text (pos pq + 1) =? CSVN_DELIM)%char
                     || (char_at text (pos pq + 1) =? CSVN_NEWLINE)%char
                  then Some (Continue pa pool1 (parsed + 1))
                  else
                    if negb (char_at text (pos pq + 1) =? NUL)%char
                       && int_lt_size (pos pq + 1) textlen
                    then Some (Return INVALID_CHARACTER pa pool1)
                    else Some (Continue pa pool1 (parsed + 1))
                else Some (Continue pa pool1 (parsed + 1))) = Some fl ->
               fl = Continue pa pool1 (parsed + 1)
               \/ (fl = Return INVALID_CHARACTER pa pool1
                   /\ offending_byte pa)).
    { intros pa pool1 Hpa E. destruct (strict cfg) eqn:Hst;
        [|inversion E; auto].
      destruct (Ascii.eqb_spec (char_at text (pos pq + 1)) CSVN_DELIM);
        [inversion E; auto|].
      destruct (Ascii.eqb_spec (char_at text (pos pq + 1)) CSVN_NEWLINE);
        [inversion E; auto|].
      simpl in E.
      destruct (negb _ && _) eqn:Hit; inversion E; auto.
      right. split; [reflexivity|]. right.
      unfold in_text. rewrite Hpa. auto. }
    destruct pool as [m|].
    - destruct (csvn_allocate_token pq (Some m) num_tok) as [[[i p3] m3]|] eqn:Ha.
      + apply allocate_inv in Ha as (m0 & Hm0 & Hcap & -> & -> & ->).
        inversion Hm0; subst m0. simpl in H.
        apply Hch in H; [|reflexivity].
        unfold csvn_fill_token in H. rewrite insert_insert_eq, Htn in H.
        assert (Hw : well_filled p
                       (set_pos (mk_csv_p (pos pq) (toknext pq + 1) (line pq))
                          (pos pq + 1))
                       (mk_csv_t (pos p + 1) (pos pq - 1) ln
                          (pos pq - 1 - (pos p + 1)) DQUOTE)).
        { unfold well_filled; simpl. intuition lia. }
        destruct H as [->|[-> Hoff]]; simpl; right.
        * eexists _, _. split; [reflexivity|]. split; [lia|].
          split; [reflexivity|]. split; [lia|]. split; [reflexivity|].
          exact Hw.
        * split; [reflexivity|]. split; [exact Hoff|]. right.
          eexists _, _. split; [reflexivity|]. split; [lia|].
          split; [reflexivity|]. split; [lia|]. exact Hw.
      + apply allocate_none in Ha. rewrite Htn in Ha.
        simpl in H. inversion H; subst; simpl. left. intuition congruence.
    - simpl in H. apply Hch in H; [|reflexivity].
      destruct H as [->|[-> Hoff]]; simpl.
      + left. auto.
      + right. split; [reflexivity|]. split; [exact Hoff|]. left. auto. }
  unfold on_other, csvn_parse_normal in H.
  destruct (normal_loop fuel p) as [[pn|code pn]|] eqn:Hl; [| |discriminate].
  - apply normal_loop_first in Hl as (Hpos & Htn & Hline); [|assumption..].
    set (p2 := if _ || _ then set_pos pn (pos pn - 1) else pn) in H.
    assert (Hp2 : pos p <= pos p2 /\ line p2 = line p /\ toknext p2 = toknext p).
    { subst p2. destruct (_ || _); simpl; lia. }
    destruct Hp2 as (Hpos2 & Hline2 & Htn2).
    destruct pool as [m|]; [|simpl in H; inversion H; subst; simpl; left; auto].
    destruct (csvn_allocate_token p2 (Some m) num_tok) as [[[i p3] m3]|] eqn:Ha.
    + apply allocate_inv in Ha as (m0 & Hm0 & Hcap & -> & -> & ->).
      inversion Hm0; subst m0. simpl in H. inversion H; subst; simpl. right.
      unfold csvn_fill_token. rewrite insert_insert_eq, Htn2.
      eexists _, _. split; [reflexivity|]. split; [lia|].
      split; [reflexivity|]. split; [lia|]. split; [reflexivity|].
      unfold well_filled; simpl. intuition lia.
    + apply allocate_none in Ha. rewrite Htn2 in Ha.
      simpl in H. inversion H; subst; simpl. left. intuition congruence.
  - pose proof (normal_loop_abort_at _ _ _ _ Hl) as (Hin1 & Hq1).
    apply normal_loop_advance in Hl as (-> & Hst & _ & Htn & _).
    simpl in H. inversion H; subst; simpl. right.
    split; [reflexivity|]. split; [|left; auto].
    right. rewrite Hq1. repeat split; (assumption || discriminate).
Qed.

End StoreFacts.

(** ** What a whole call does to the token store *)

Lemma well_filled_widen (p p1 q q1 : csv_p) (d : csv_t) :
  well_filled p1 q1 d ->
  pos p <= pos p1 -> line p <= line p1 ->
  pos q1 <= pos q -> line q1 <= line q ->
  well_filled p q d.
Proof. unfold well_filled. intuition lia. Qed.

Section LoopFacts.

Variable cfg : config.
Variable text : string.
Variable textlen : Z.
Variable num_tok : Z.

Local Abbreviation in_text := (in_text text textlen).
Local Abbreviation dispatch := (dispatch cfg text textlen num_tok).
Local Abbreviation parse_loop := (parse_loop cfg text textlen num_tok).
Local Abbreviation offending_byte := (offending_byte cfg text textlen).

Lemma dispatch_line_mono (fuel : nat) (p : csv_p) (pool : tokpool)
    (parsed : Z) (fl : flow) :
  in_text p = true ->
  dispatch fuel p pool parsed = Some fl ->
  match fl with
  | Continue p1 _ _ | Return _ p1 _ => pos p <= pos p1 /\ line p <= line p1
  end.
Proof.
  intros Hin H.
  pose proof (dispatch_advance _ _ _ _ _ _ _ _ _ Hin H) as Ha.
  destruct fl as [p1 pool1 parsed1|r p1 pool1]; simpl in Ha; [lia|].
  split; [lia|]. clear Ha. revert H. unfold dispatch.
  destruct (Ascii.eqb_spec (char_at text (pos p)) CSVN_NEWLINE) as [Hnl|Hnl];
    [discriminate|].
  destruct (Ascii.eqb_spec (char_at text (pos p)) CSVN_DELIM) as [Hd|Hd].
  { intros H. apply on_delim_advance in H as Ha.
    unfold on_delim in H.
    set (p1' := set_pos p (pos p + 1)) in *.
    destruct (if skip_whitespace cfg && _ then _ else Some p1')
      as [p2|] eqn:Hs; [|discriminate].
    assert (Hp2 : line p2 = line p).
    { destruct (skip_whitespace cfg && _).
      - apply skip_spaces_advance in Hs. simpl in Hs. lia.
      - inversion Hs; subst; simpl. lia. }
    destruct (_ =? CSVN_DELIM)%char; [|discriminate].
    destruct (no_empty_field cfg); [inversion H; subst; lia|].
    destruct (ignore_empty_field cfg); [discriminate|].
    destruct pool as [m|]; [|discriminate].
    destruct (csvn_allocate_token p2 (Some m) num_tok) as [[[i p3] m3]|];
      inversion H; subst; lia. }
  destruct (char_at text (pos p) =? DQ)%char.
  { unfold on_quote. intros H.
    destruct (csvn_parse_quotes _ _ _ _ _ _ _) as [[[res p2] pool2]|] eqn:Hq;
      [|discriminate].
    apply parse_quotes_advance in Hq as (_ & Hline & _). simpl in Hline.
    break_if_in H; inversion H; subst; simpl; lia. }
  unfold on_other. intros H.
  destruct (csvn_parse_normal _ _ _ _ _ _ _) as [[[res p2] pool2]|] eqn:Hn;
    [|discriminate].
  apply parse_normal_advance in Hn as (_ & Hline & _); [|assumption..].
  break_if_in H; inversion H; subst; simpl; lia.
Qed.

Lemma parse_loop_line_mono (fuel : nat) :
  forall p pool parsed r pf poolf,
    parse_loop fuel p pool parsed = Some (r, pf, poolf) ->
    pos p <= pos pf /\ line p <= line pf.
Proof.
  induction fuel as [|f IH]; intros p pool parsed r pf poolf H; simpl in H;
    [discriminate|].
  destruct (in_text p) eqn:Hin; [|inversion H; subst; lia].
  destruct (dispatch f p pool parsed) as [fl|] eqn:Hd; [|discriminate].
  apply dispatch_line_mono in Hd; [|assumption].
  destruct fl as [p1 pool1 parsed1|r1 p1 pool1].
  - apply IH in H. lia.
  - inversion H; subst. lia.
Qed.

(** The slots a call hands out are those from [toknext] on, one after the
    other; each holds a filled descriptor when the call ends, and no other
    slot has changed. *)
Lemma parse_loop_store_inv (fuel : nat) :
  forall p (m : tokmem) parsed r pf poolf,
    parse_loop fuel p (Some m) parsed = Some (r, pf, poolf) ->
    exists mf : tokmem,
      poolf = Some mf
      /\ toknext p <= toknext pf
      /\ (toknext p < toknext pf -> 0 <= toknext p /\ toknext pf <= num_tok + 1)
      /\ (forall j, j < toknext p \/ toknext pf <= j -> mf !! j = m !! j)
      /\ (forall j, toknext p <= j < toknext pf ->
            exists d, mf !! j = Some d /\ well_filled p pf d).
Proof.
  induction fuel as [|f IH]; intros p m parsed r pf poolf H; simpl in H;
    [discriminate|].
  destruct (in_text p) eqn:Hin.
  2:{ inversion H; subst. exists m. repeat split; try lia; try reflexivity.
      all: intros j Hj; lia. }
  destruct (dispatch f p (Some m) parsed) as [fl|] eqn:Hd; [|discriminate].
  pose proof (dispatch_line_mono _ _ _ _ _ Hin Hd) as Hm.
  apply dispatch_effect in Hd; [|assumption].
  destruct fl as [p1 pool1 parsed1|r1 p1 pool1]; simpl in Hd, Hm.
  - pose proof (parse_loop_line_mono _ _ _ _ _ _ _ H) as Hm1.
    destruct Hd as [(-> & Htn & _)|(m0 & d & Hm0 & Hcap & -> & Htn & _ & Hw)].
    + apply IH in H as (mf & -> & Hle & Hrange & Hframe & Hfill).
      exists mf. rewrite Htn in *. repeat split; try assumption; try lia.
      intros j Hj. destruct (Hfill j Hj) as (d & Hd & Hw).
      exists d. split; [assumption|].
      eapply well_filled_widen; [eassumption|lia..].
    + inversion Hm0; subst m0.
      apply IH in H as (mf & -> & Hle & Hrange & Hframe & Hfill).
      exists mf. rewrite Htn in *. repeat split; try lia.
      * intros j Hj. rewrite Hframe by lia. apply lookup_insert_ne. lia.
      * intros j Hj. destruct (Z.eq_dec j (toknext p)) as [->|Hne].
        -- exists d. rewrite Hframe by lia. rewrite lookup_insert_eq.
           split; [reflexivity|].
           eapply well_filled_widen; [eassumption|lia..].
        -- destruct (Hfill j) as (d' & Hd' & Hw'); [lia|].
           exists d'. split; [assumption|].
           eapply well_filled_widen; [eassumption|lia..].
  - inversion H; subst.
    destruct Hd as [(_ & -> & _ & Htn & _)|(_ & _ & [(-> & Htn)|Hslot])].
    + exists m. rewrite Htn. repeat split; try lia; try reflexivity.
      all: intros j Hj; lia.
    + exists m. rewrite Htn. repeat split; try lia; try reflexivity.
      all: intros j Hj; lia.
    + destruct Hslot as (m0 & d & Hm0 & Hcap & -> & Htn & Hw).
      inversion Hm0; subst m0. eexists. split; [reflexivity|].
      rewrite Htn. repeat split; try lia.
      * intros j Hj. apply lookup_insert_ne. lia.
      * intros j Hj. assert (j = toknext p) as -> by lia.
        exists d. rewrite lookup_insert_eq. split; [reflexivity|assumption].
Qed.

(** How a call can end: by the exit test of the loop with the count of
    fields, or with one of the two error codes. *)
Lemma parse_loop_outcome (fuel : nat) :
  forall p pool parsed r pf poolf,
    parse_loop fuel p pool parsed = Some (r, pf, poolf) ->
    (in_text pf = false /\ parsed <= r
     /\ (pool <> None -> toknext pf - toknext p = r - parsed))
    \/ (r = NOT_ENOUGH_MEM /\ pool <> None
        /\ int_gt_size (toknext pf) num_tok = true)
    \/ (r = INVALID_CHARACTER /\ offending_byte pf).
Proof.
  induction fuel as [|f IH]; intros p pool parsed r pf poolf H; simpl in H;
    [discriminate|].
  destruct (in_text p) eqn:Hin.
  2:{ inversion H; subst. left. repeat split; try assumption; lia. }
  destruct (dispatch f p pool parsed) as [fl|] eqn:Hd; [|discriminate].
  apply dispatch_effect in Hd; [|assumption].
  destruct fl as [p1 pool1 parsed1|r1 p1 pool1]; simpl in Hd.
  - apply IH in H.
    destruct Hd as [(-> & Htn & Hp)|(m0 & d & -> & Hcap & -> & Htn & -> & _)].
    + destruct H as [(Hex & Hle & Hcnt)|[(-> & Hpool & Hgt)|(-> & Hoff)]].
      * left. split; [assumption|]. split; [lia|].
        intros Hpool. specialize (Hcnt Hpool).
        destruct Hp as [->|[-> _]]; [lia|congruence].
      * right; left. auto.
      * right; right. auto.
    + destruct H as [(Hex & Hle & Hcnt)|[(-> & Hpool & Hgt)|(-> & Hoff)]].
      * left. split; [assumption|]. split; [lia|].
        intros _. specialize (Hcnt ltac:(discriminate)). lia.
      * right; left. repeat split; [discriminate|assumption].
      * right; right. auto.
  - inversion H; subst.
    destruct Hd as [(-> & -> & Hpool & Htn & Hgt)|(-> & Hoff & _)].
    + right; left. rewrite Htn. auto.
    + right; right. auto.
Qed.

(** Without a token store nothing is handed out. *)
Lemma parse_loop_counting (fuel : nat) :
  forall p parsed r pf poolf,
    parse_loop fuel p None parsed = Some (r, pf, poolf) ->
    poolf = None /\ toknext pf = toknext p.
Proof.
  induction fuel as [|f IH]; intros p parsed r pf poolf H; simpl in H;
    [discriminate|].
  destruct (in_text p) eqn:Hin; [|inversion H; subst; auto].
  destruct (dispatch f p None parsed) as [fl|] eqn:Hd; [|discriminate].
  apply dispatch_effect in Hd; [|assumption].
  destruct fl as [p1 pool1 parsed1|r1 p1 pool1]; simpl in Hd.
  - destruct Hd as [(-> & Htn & _)|(m0 & d & Hm0 & _)]; [|discriminate].
    apply IH in H as [-> Htn']. split; [reflexivity|lia].
  - inversion H; subst.
    destruct Hd as [(_ & _ & Hpool & _)|(_ & _ & [(-> & Htn)|Hslot])].
    + congruence.
    + auto.
    + destruct Hslot as (m0 & d & Hm0 & _). discriminate.
Qed.

End LoopFacts.

(** ** The token store after a call *)

(** [csvn_parse] returns, whatever it is called on. *)
Lemma csvn_parse_returns
    (cfg : config) (text : string) (textlen num_tok : Z)
    (p : csv_p) (pool : tokpool) :
  exists r pf poolf,
    csvn_parse cfg text textlen num_tok p pool = Some (r, pf, poolf).
Proof.
  unfold csvn_parse.
  destruct (parse_loop_total cfg text textlen num_tok
              (enough_fuel text textlen p) p pool 0) as [[[r pf] poolf] Hr].
  { unfold enough_fuel, horizon, strlen. lia. }
  eauto.
Qed.

(** X1. A call writes no slot outside those it hands out: it returns with a
    store in which every slot below the [toknext] it started with, or at or
    above the [toknext] it ends with, holds what it held before. *)
Theorem parse_leaves_other_slots
    (cfg : config) (text : string) (textlen num_tok : Z)
    (p : csv_p) (m : tokmem) :
  exists r pf (mf : tokmem),
    csvn_parse cfg text textlen num_tok p (Some m) = Some (r, pf, Some mf)
    /\ forall j, j < toknext p \/ toknext pf <= j -> mf !! j = m !! j.
Proof.
  destruct (csvn_parse_returns cfg text textlen num_tok p (Some m))
    as (r & pf & poolf & H).
  pose proof H as H'. unfold csvn_parse in H'.
  apply parse_loop_store_inv in H' as (mf & -> & _ & _ & Hframe & _).
  exists r, pf, mf. split; assumption.
Qed.

(** X2. Every slot a call has handed out holds a filled descriptor when the
    call returns, whatever the return value: its kind is [DQUOTE] or [EMPTY],
    never [UNASSIGN] or [TEXT]; its size is [end - start] and at least -1; its
    span lies between the positions, and its line between the lines, at which
    the call started and ended. *)
Theorem parse_fills_its_slots
    (cfg : config) (text : string) (textlen num_tok : Z)
    (p : csv_p) (m : tokmem) :
  exists r pf (mf : tokmem),
    csvn_parse cfg text textlen num_tok p (Some m) = Some (r, pf, Some mf)
    /\ forall j, toknext p <= j < toknext pf ->
         exists d, mf !! j = Some d /\ well_filled p pf d.
Proof.
  destruct (csvn_parse_returns cfg text textlen num_tok p (Some m))
    as (r & pf & poolf & H).
  pose proof H as H'. unfold csvn_parse in H'.
  apply parse_loop_store_inv in H' as (mf & -> & _ & _ & _ & Hfill).
  exists r, pf, mf. split; assumption.
Qed.

(** X3. With a token store, a call that returns a count has handed out
    exactly that many slots: [toknext] has grown by the return value. *)
Theorem parse_count_is_slots
    (cfg : config) (text : string) (textlen num_tok : Z)
    (p : csv_p) (m : tokmem) :
  exists r pf poolf,
    csvn_parse cfg text textlen num_tok p (Some m) = Some (r, pf, poolf)
    /\ (0 <= r -> toknext pf = toknext p + r).
Proof.
  destruct (csvn_parse_returns cfg text textlen num_tok p (Some m))
    as (r & pf & poolf & H).
  exists r, pf, poolf. split; [exact H|]. intros Hr.
  unfold csvn_parse in H.
  apply parse_loop_outcome in H
    as [(_ & _ & Hcnt)|[(-> & _)|(-> & _)]];
    [|unfold NOT_ENOUGH_MEM, INVALID_CHARACTER in Hr; lia..].
  specialize (Hcnt ltac:(discriminate)). lia.
Qed.

(** X4. How a call ends.  Either it returns a count, which is not negative,
    and the parser stands where the loop condition fails; or it returns
    [NOT_ENOUGH_MEM], which takes a token store and leaves [toknext] above
    the capacity; or it returns [INVALID_CHARACTER], which takes
    [CSVN_STRICT] or [CSVN_NO_EMPTY_FIELD] and leaves the parser on the
    offending byte. *)
Theorem parse_return_values
    (cfg : config) (text : string) (textlen num_tok : Z)
    (p : csv_p) (pool : tokpool) :
  exists r pf poolf,
    csvn_parse cfg text textlen num_tok p pool = Some (r, pf, poolf)
    /\ ((0 <= r /\ in_text text textlen pf = false)
        \/ (r = NOT_ENOUGH_MEM /\ pool <> None
            /\ int_gt_size (toknext pf) num_tok = true)
        \/ (r = INVALID_CHARACTER
            /\ (strict cfg = true \/ no_empty_field cfg = true)
            /\ offending_byte cfg text textlen pf)).
Proof.
  destruct (csvn_parse_returns cfg text textlen num_tok p pool)
    as (r & pf & poolf & H).
  exists r, pf, poolf. split; [exact H|].
  unfold csvn_parse in H.
  apply parse_loop_outcome in H
    as [(Hex & Hle & _)|[(-> & Hpool & Hgt)|(-> & Hoff)]].
  - left. auto.
  - right; left. auto.
  - right; right. split; [reflexivity|]. split; [|assumption].
    destruct Hoff as [[Hne _]|[Hst _]]; auto.
Qed.

(** X5. When a call that started with [toknext] between 0 and the capacity
    plus one returns [NOT_ENOUGH_MEM], [toknext] stands at the capacity plus
    one: the slot of index [num_tok] itself has been handed out before the
    allocator refused. *)
Theorem not_enough_mem_after_overrun
    (cfg : config) (text : string) (textlen num_tok : Z)
    (p : csv_p) (pool : tokpool) :
  0 <= toknext p <= num_tok + 1 ->
  exists r pf poolf,
    csvn_parse cfg text textlen num_tok p pool = Some (r, pf, poolf)
    /\ (r = NOT_ENOUGH_MEM -> toknext pf = num_tok + 1).
Proof.
  intros Hcap.
  destruct (csvn_parse_returns cfg text textlen num_tok p pool)
    as (r & pf & poolf & H).
  exists r, pf, poolf. split; [exact H|]. intros ->.
  unfold csvn_parse in H.
  pose proof (parse_loop_outcome _ _ _ _ _ _ _ _ _ _ _ H)
    as [(_ & Hle & _)|[(_ & Hpool & Hgt)|(Hr & _)]];
    [unfold NOT_ENOUGH_MEM in Hle; lia | | discriminate Hr].
  destruct pool as [m|]; [|congruence].
  apply parse_loop_store_inv in H as (mf & _ & Hle & Hrange & _).
  unfold int_gt_size in Hgt. apply orb_prop in Hgt as [Hgt|Hgt].
  - apply Z.ltb_lt in Hgt. lia.
  - apply Z.ltb_lt in Hgt.
    destruct (Z_lt_dec (toknext p) (toknext pf)) as [Hlt|Hge];
      [specialize (Hrange Hlt)|]; lia.
Qed.

(** [a,b,c,d] into a store declared with 2 slots: three descriptors are
    stored before the fourth is refused. *)
Lemma not_enough_mem_after_overrun_witness :
  csvn_parse default_config "a,b,c,d" 7 2 fresh (Some ∅)
  = Some (NOT_ENOUGH_MEM, mk_csv_p 7 3 1,
          Some (<[2 := mk_csv_t 4 4 1 0 DQUOTE]>
                  (<[1 := mk_csv_t 2 2 1 0 DQUOTE]>
                     (<[0 := mk_csv_t 0 0 1 0 DQUOTE]> ∅))))
  /\ exists r pf poolf,
       csvn_parse default_config "a,b,c,d" 7 2 fresh (Some ∅)
       = Some (r, pf, poolf)
       /\ (r = NOT_ENOUGH_MEM -> toknext pf = 2 + 1).
Proof.
  split; [vm_compute; reflexivity|].
  refine (not_enough_mem_after_overrun default_config "a,b,c,d" 7 2 fresh
            (Some ∅) _).
  simpl. lia.
Defined.

(** X6. With a token store, a call that started with [toknext] at most the
    capacity plus one never returns a count above the slots left up to index
    [num_tok] included. *)
Theorem parse_count_within_capacity
    (cfg : config) (text : string) (textlen num_tok : Z)
    (p : csv_p) (m : tokmem) :
  toknext p <= num_tok + 1 ->
  exists r pf poolf,
    csvn_parse cfg text textlen num_tok p (Some m) = Some (r, pf, poolf)
    /\ (0 <= r -> toknext p + r <= num_tok + 1).
Proof.
  intros Hcap.
  destruct (csvn_parse_returns cfg text textlen num_tok p (Some m))
    as (r & pf & poolf & H).
  exists r, pf, poolf. split; [exact H|]. intros Hr.
  unfold csvn_parse in H.
  pose proof (parse_loop_outcome _ _ _ _ _ _ _ _ _ _ _ H)
    as [(_ & _ & Hcnt)|[(-> & _)|(-> & _)]];
    [|unfold NOT_ENOUGH_MEM, INVALID_CHARACTER in Hr; lia..].
  specialize (Hcnt ltac:(discriminate)).
  apply parse_loop_store_inv in H as (mf & _ & Hle & Hrange & _).
  destruct (Z_lt_dec (toknext p) (toknext pf)) as [Hlt|Hge];
    [specialize (Hrange Hlt)|]; lia.
Qed.

(** [a,b,c] into a store declared with 2 slots: the count 3 is the capacity
    plus one. *)
Lemma parse_count_within_capacity_witness :
  retval (csvn_parse default_config text_abc 5 2 fresh (Some ∅)) = Some 3
  /\ exists r pf poolf,
       csvn_parse default_config text_abc 5 2 fresh (Some ∅)
       = Some (r, pf, poolf)
       /\ (0 <= r -> toknext fresh + r <= 2 + 1).
Proof.
  split; [vm_compute; reflexivity|].
  refine (parse_count_within_capacity default_config text_abc 5 2 fresh ∅ _).
  simpl. lia.
Defined.

(** ** Calls in sequence *)

(** X7. Parsing again where a call left off does nothing: after a call that
    returned a count, a second call with the parser and the store it left
    returns 0 and changes neither. *)
Theorem parse_again_is_idle
    (cfg : config) (text : string) (textlen num_tok : Z)
    (p : csv_p) (pool : tokpool) :
  exists r pf poolf,
    csvn_parse cfg text textlen num_tok p pool = Some (r, pf, poolf)
    /\ (0 <= r ->
        csvn_parse cfg text textlen num_tok pf poolf = Some (0, pf, poolf)).
Proof.
  destruct (csvn_parse_returns cfg text textlen num_tok p pool)
    as (r & pf & poolf & H).
  exists r, pf, poolf. split; [exact H|]. intros Hr.
  unfold csvn_parse in *.
  apply parse_loop_outcome in H
    as [(Hex & _)|[(-> & _)|(-> & _)]];
    [|unfold NOT_ENOUGH_MEM, INVALID_CHARACTER in Hr; lia..].
  unfold enough_fuel. rewrite Nat.add_comm. simpl. rewrite Hex. reflexivity.
Qed.

(** X8. A call without a token store hands out nothing: no store appears,
    [toknext] is left as it was, the result is never [NOT_ENOUGH_MEM], and
    the declared capacity has no influence on the result. *)
Theorem counting_is_inert
    (cfg : config) (text : string) (textlen num_tok : Z) (p : csv_p) :
  exists r pf,
    csvn_parse cfg text textlen num_tok p None = Some (r, pf, None)
    /\ toknext pf = toknext p
    /\ r <> NOT_ENOUGH_MEM
    /\ forall k, csvn_parse cfg text textlen k p None = Some (r, pf, None).
Proof.
  destruct (csvn_parse_returns cfg text textlen num_tok p None)
    as (r & pf & poolf & H).
  pose proof H as H'. unfold csvn_parse in H'.
  pose proof (parse_loop_counting _ _ _ _ _ _ _ _ _ _ H') as [-> Htn].
  exists r, pf. split; [exact H|]. split; [assumption|]. split.
  - pose proof (parse_loop_outcome _ _ _ _ _ _ _ _ _ _ _ H')
      as [(_ & Hle & _)|[(_ & Hp & _)|(-> & _)]].
    + unfold NOT_ENOUGH_MEM. lia.
    + congruence.
    + discriminate.
  - intros k. unfold csvn_parse.
    rewrite (count_mode_capacity cfg text textlen k num_tok).
    exact H'.
Qed.

(** ** The scanners on a run of bytes *)

Section ScanFacts.

Variable cfg : config.
Variable text : string.
Variable textlen : Z.
Variable num_tok : Z.

Local Abbreviation in_text := (in_text text textlen).
Local Abbreviation quotes_loop := (quotes_loop cfg text textlen).
Local Abbreviation normal_loop := (normal_loop cfg text textlen).
Local Abbreviation skip_spaces := (skip_spaces text).
Local Abbreviation plain_byte := (plain_byte cfg text textlen).
Local Abbreviation scan_byte := (scan_byte text textlen).
Local Abbreviation body_byte := (body_byte text textlen).
Local Abbreviation byte_in_text := (byte_in_text text textlen).

Lemma set_pos_same (p : csv_p) : set_pos p (pos p) = p.
Proof. destruct p; reflexivity. Qed.

Lemma normal_loop_run (n : nat) :
  forall fuel p,
    all_from plain_byte (pos p) n = true ->
    (n < fuel)%nat ->
    normal_loop fuel p
    = if scan_byte (pos p + Z.of_nat n)
      then
        if strict cfg && (char_at text (pos p + Z.of_nat n) =? DQ)%char
        then Some (Abort INVALID_CHARACTER (set_pos p (pos p + Z.of_nat n)))
        else normal_loop (fuel - n) (set_pos p (pos p + Z.of_nat n))
      else Some (Done (set_pos p (pos p + Z.of_nat n))).
Proof.
  induction n as [|k IH]; intros fuel p Hrun Hfuel.
  - replace (pos p + Z.of_nat 0) with (pos p) by lia.
    rewrite set_pos_same. replace (fuel - 0)%nat with fuel by lia.
    destruct fuel as [|f]; [lia|]. simpl.
    unfold scan_byte, byte_in_text, in_text. simpl.
    destruct (_ && _ && _); [|reflexivity].
    destruct (strict cfg && _); reflexivity.
  - destruct fuel as [|f]; [lia|].
    simpl in Hrun. apply andb_prop in Hrun as [Hp Hrest].
    unfold plain_byte, byte_in_text, in_text in Hp. simpl in Hp.
    apply andb_prop in Hp as [Hscan Hstrict].
    apply negb_true_iff in Hstrict.
    cbn [normal_loop]. unfold in_text. rewrite Hscan, Hstrict.
    rewrite (IH f (set_pos p (pos p + 1))); [|exact Hrest|lia].
    cbn [pos set_pos].
    replace (pos p + 1 + Z.of_nat k) with (pos p + Z.of_nat (S k)) by lia.
    replace (S f - S k)%nat with (f - k)%nat by lia.
    reflexivity.
Qed.

End ScanFacts.

(** X9. The unquoted-field scanner on a field of [n] bytes: when the [n]
    bytes from [pos] on are bytes the scan steps over and the next one stops
    it, the descriptor starts at [pos] and ends on the last byte of the field
    if a delimiter or a newline stopped the scan (size [n - 1]), but on the
    stopping byte itself if the end of the text did (size [n]).  The parser is
    left on that end offset, the line is the parser's, the kind [DQUOTE]. *)
Theorem unquoted_field_span
    (cfg : config) (text : string) (textlen num_tok : Z) (fuel : nat)
    (p : csv_p) (m : tokmem) (n : nat) :
  all_from (plain_byte cfg text textlen) (pos p) n = true ->
  scan_byte text textlen (pos p + Z.of_nat n) = false ->
  (n < fuel)%nat ->
  0 <= toknext p <= num_tok ->
  let stop := pos p + Z.of_nat n in
  let last :=
    if (char_at text stop =? CSVN_NEWLINE)%char
       || (char_at text stop =? CSVN_DELIM)%char
    then stop - 1 else stop in
  csvn_parse_normal cfg text textlen num_tok fuel p (Some m)
  = Some (0, mk_csv_p last (toknext p + 1) (line p),
          Some (<[toknext p :=
                    mk_csv_t (pos p) last (line p) (last - pos p) DQUOTE]> m)).
Proof.
  intros Hrun Hstop Hfuel Hcap stop last.
  unfold csvn_parse_normal.
  rewrite (normal_loop_run cfg text textlen n fuel p Hrun Hfuel).
  rewrite Hstop. fold stop. cbn [pos set_pos]. fold last.
  assert (Hlast : (if (char_at text stop =? CSVN_NEWLINE)%char
                      || (char_at text stop =? CSVN_DELIM)%char
                   then set_pos (set_pos p stop) (stop - 1)
                   else set_pos p stop) = set_pos p last).
  { subst last. destruct (_ || _); reflexivity. }
  rewrite Hlast. rewrite allocate_ok by (simpl; lia).
  unfold csvn_fill_token. rewrite insert_insert_eq. reflexivity.
Qed.

(** The field [ab] of [ab,c], stopped by the delimiter, and the field [c],
    stopped by the end of the text. *)
Lemma unquoted_field_span_witness :
  csvn_parse_normal default_config "ab,c" 4 2 5 fresh (Some ∅)
  = Some (0, mk_csv_p 1 1 1, Some (<[0 := mk_csv_t 0 1 1 1 DQUOTE]> ∅))
  /\ csvn_parse_normal default_config "ab,c" 4 2 5 (mk_csv_p 3 1 1) (Some ∅)
     = Some (0, mk_csv_p 4 2 1, Some (<[1 := mk_csv_t 3 4 1 1 DQUOTE]> ∅)).
Proof.
  split.
  - refine (unquoted_field_span default_config "ab,c" 4 2 5 fresh ∅ 2
              _ _ _ _); [reflexivity | reflexivity | lia | simpl; lia].
  - refine (unquoted_field_span default_config "ab,c" 4 2 5 (mk_csv_p 3 1 1)
              ∅ 1 _ _ _ _); [reflexivity | reflexivity | lia | simpl; lia].
Defined.

(** X10. Under [CSVN_STRICT] a quote inside an unquoted field is rejected
    where it stands: after [n] bytes the scan steps over, a quote inside the
    text makes the scanner return [INVALID_CHARACTER] with the parser on the
    quote and the token store untouched; when the field is the one the
    dispatch loop is on, that is what [csvn_parse] returns. *)
Theorem strict_rejects_inner_quote
    (cfg : config) (text : string) (textlen num_tok : Z) (fuel : nat)
    (p : csv_p) (pool : tokpool) (parsed : Z) (n : nat) :
  strict cfg = true ->
  all_from (plain_byte cfg text textlen) (pos p) (S n) = true ->
  byte_in_text text textlen (pos p + Z.of_nat (S n)) = true ->
  char_at text (pos p + Z.of_nat (S n)) = DQ ->
  (S n < fuel)%nat ->
  csvn_parse_normal cfg text textlen num_tok fuel p pool
  = Some (INVALID_CHARACTER, set_pos p (pos p + Z.of_nat (S n)), pool)
  /\ parse_loop cfg text textlen num_tok (S fuel) p pool parsed
     = Some (INVALID_CHARACTER, set_pos p (pos p + Z.of_nat (S n)), pool).
Proof.
  intros Hst Hrun Hin Hq Hfuel.
  assert (Hn : csvn_parse_normal cfg text textlen num_tok fuel p pool
               = Some (INVALID_CHARACTER,
                       set_pos p (pos p + Z.of_nat (S n)), pool)).
  { unfold csvn_parse_normal.
    rewrite (normal_loop_run cfg text textlen (S n) fuel p Hrun Hfuel).
    unfold scan_byte. rewrite Hin, Hq, Hst. reflexivity. }
  split; [exact Hn|].
  cbn [all_from] in Hrun. apply andb_prop in Hrun as [Hp _].
  unfold plain_byte, byte_in_text in Hp. rewrite Hst in Hp.
  apply andb_prop in Hp as [Hp Hnq]. apply andb_prop in Hp as [Hp Hnd].
  apply andb_prop in Hp as [Hp Hnn].
  apply negb_true_iff in Hnq, Hnd, Hnn. simpl in Hnq.
  cbn [parse_loop]. unfold in_text in *. simpl in Hp. rewrite Hp.
  unfold dispatch. rewrite Hnn, Hnd, Hnq.
  unfold on_other. rewrite Hn. reflexivity.
Qed.

(** The text [ab] followed by a quote and [c], under [CSVN_STRICT]. *)
Lemma strict_rejects_inner_quote_witness :
  csvn_parse strict_config ("ab" ++ q ++ "c") 4 2 fresh (Some ∅)
  = Some (INVALID_CHARACTER, mk_csv_p 2 0 1, Some ∅).
Proof.
  refine (proj2 (strict_rejects_inner_quote strict_config ("ab" ++ q ++ "c")
                   4 2 5 fresh (Some ∅) 0 1 _ _ _ _ _));
    [reflexivity | reflexivity | reflexivity | reflexivity | lia].
Defined.

Section QuoteRuns.

Variable cfg : config.
Variable text : string.
Variable textlen : Z.

Local Abbreviation quotes_loop := (quotes_loop cfg text textlen).
Local Abbreviation skip_spaces := (skip_spaces text).
Local Abbreviation body_byte := (body_byte text textlen).
Local Abbreviation byte_in_text := (byte_in_text text textlen).

Lemma quotes_loop_run (n : nat) :
  forall fuel p ln,
    all_from body_byte (pos p) n = true ->
    (n < fuel)%nat ->
    quotes_loop fuel p ln
    = quotes_loop (fuel - n)
        (mk_csv_p (pos p + Z.of_nat n) (toknext p)
           (line p + count_from (is_newline text) (pos p) n))
        (ln + if consider_nl cfg
              then count_from (is_newline text) (pos p) n else 0).
Proof.
  induction n as [|k IH]; intros fuel p ln Hrun Hfuel.
  - cbn [count_from]. replace (fuel - 0)%nat with fuel by lia.
    match goal with
    | |- quotes_loop _ ?A ?B = quotes_loop _ ?A' ?B' =>
        replace A' with A by (destruct p; simpl; f_equal; lia);
        replace B' with B by (destruct (consider_nl cfg); lia);
        reflexivity
    end.
  - destruct fuel as [|f]; [lia|].
    cbn [all_from] in Hrun. apply andb_prop in Hrun as [Hb Hrest].
    unfold body_byte, byte_in_text in Hb. apply andb_prop in Hb as [Hin Hnq].
    apply negb_true_iff in Hnq.
    replace (S f - S k)%nat with (f - k)%nat by lia.
    cbn [quotes_loop]. unfold in_text in *. simpl in Hin. rewrite Hin, Hnq.
    cbn [andb count_from]. unfold is_newline at 1 3.
    destruct (char_at text (pos p) =? CSVN_NEWLINE)%char.
    + rewrite IH; [|exact Hrest|lia]. cbn [pos toknext line].
      match goal with
      | |- quotes_loop _ ?A ?B = quotes_loop _ ?A' ?B' =>
          replace A with A' by (f_equal; lia);
          replace B with B' by (destruct (consider_nl cfg); lia);
          reflexivity
      end.
    + rewrite IH; [|exact Hrest|lia]. cbn [pos toknext line set_pos].
      match goal with
      | |- quotes_loop _ ?A ?B = quotes_loop _ ?A' ?B' =>
          replace A with A' by (f_equal; lia);
          replace B with B' by (destruct (consider_nl cfg); lia);
          reflexivity
      end.
Qed.

Lemma quotes_loop_stop_here (fuel : nat) (p : csv_p) (ln : Z) :
  byte_in_text (pos p) = false \/ lone_quote text (pos p) = true ->
  quotes_loop (S fuel) p ln = Some (p, ln).
Proof.
  intros Hstop. cbn [quotes_loop]. unfold byte_in_text, in_text in *.
  simpl in Hstop.
  destruct (negb _ && _) eqn:Hin; [|reflexivity].
  destruct Hstop as [Hout|Hlone]; [discriminate|].
  unfold lone_quote in Hlone. apply andb_prop in Hlone as [Hq Hnq].
  apply negb_true_iff in Hnq. rewrite Hq, Hnq. reflexivity.
Qed.

Lemma skip_spaces_run (n : nat) :
  forall fuel p,
    all_from (is_space text) (pos p + 1) n = true ->
    is_space text (pos p + 1 + Z.of_nat n) = false ->
    (n < fuel)%nat ->
    skip_spaces fuel p = Some (set_pos p (pos p + 1 + Z.of_nat n)).
Proof.
  induction n as [|k IH]; intros fuel p Hrun Hstop Hfuel;
    (destruct fuel as [|f]; [lia|]).
  - cbn [skip_spaces]. cbn [pos set_pos].
    replace (pos p + 1 + Z.of_nat 0) with (pos p + 1) in * by lia.
    unfold is_space in Hstop. rewrite Hstop. reflexivity.
  - cbn [all_from] in Hrun. apply andb_prop in Hrun as [Hs Hrest].
    cbn [skip_spaces]. cbn [pos set_pos].
    unfold is_space in Hs. rewrite Hs.
    rewrite (IH f (set_pos p (pos p + 1))); cbn [pos set_pos].
    + f_equal. unfold set_pos. cbn [toknext line]. f_equal. lia.
    + exact Hrest.
    + replace (pos p + 1 + 1 + Z.of_nat k)
        with (pos p + 1 + Z.of_nat (S k)) by lia. exact Hstop.
    + lia.
Qed.

End QuoteRuns.

(** X11. The quoted-field scanner on a body without quotes: entered just
    after the opening quote, with [n] bytes of the text that are not quotes
    before a closing quote or the end of the text, it stops on that closing
    quote or end, adds the newlines of the body to the parser's line (and to
    the field's line with [CSVN_CONSIDER_NL]), and stores a [DQUOTE]
    descriptor from the first to the last byte of the body, of size [n - 1]:
    -1 for an empty body.  A missing closing quote is not an error. *)
Theorem quoted_field_span
    (cfg : config) (text : string) (textlen num_tok : Z) (fuel : nat)
    (p : csv_p) (m : tokmem) (n : nat) :
  all_from (body_byte text textlen) (pos p) n = true ->
  byte_in_text text textlen (pos p + Z.of_nat n) = false
  \/ lone_quote text (pos p + Z.of_nat n) = true ->
  (n < fuel)%nat ->
  0 <= toknext p <= num_tok ->
  let stop := pos p + Z.of_nat n in
  let k := count_from (is_newline text) (pos p) n in
  csvn_parse_quotes cfg text textlen num_tok fuel p (Some m)
  = Some (0, mk_csv_p stop (toknext p + 1) (line p + k),
          Some (<[toknext p :=
                    mk_csv_t (pos p) (stop - 1)
                      (line p + if consider_nl cfg then k else 0)
                      (Z.of_nat n - 1) DQUOTE]> m)).
Proof.
  intros Hrun Hstop Hfuel Hcap stop k.
  unfold csvn_parse_quotes.
  rewrite (quotes_loop_run cfg text textlen n fuel p (line p) Hrun Hfuel).
  fold k. fold stop.
  destruct (fuel - n)%nat as [|f] eqn:Hf; [lia|].
  rewrite quotes_loop_stop_here by exact Hstop.
  rewrite allocate_ok by (simpl; lia).
  unfold csvn_fill_token. rewrite insert_insert_eq. cbn [pos toknext line].
  replace (stop - 1 - pos p) with (Z.of_nat n - 1) by (subst stop; lia).
  reflexivity.
Qed.

(** An empty quoted field, closed at once, and the body [a], a newline, [b]
    that runs to the end of the text without a closing quote. *)
Lemma quoted_field_span_witness :
  csvn_parse_quotes default_config (q ++ q) 2 4 3 (mk_csv_p 1 0 1) (Some ∅)
  = Some (0, mk_csv_p 1 1 1, Some (<[0 := mk_csv_t 1 0 1 (-1) DQUOTE]> ∅))
  /\ csvn_parse_quotes default_config (q ++ "a" ++ nl ++ "b") 4 4 5
       (mk_csv_p 1 0 1) (Some ∅)
     = Some (0, mk_csv_p 4 1 2, Some (<[0 := mk_csv_t 1 3 1 2 DQUOTE]> ∅)).
Proof.
  split.
  - refine (quoted_field_span default_config (q ++ q) 2 4 3 (mk_csv_p 1 0 1)
              ∅ 0 _ _ _ _);
      [reflexivity | right; reflexivity | lia | simpl; lia].
  - refine (quoted_field_span default_config (q ++ "a" ++ nl ++ "b") 4 4 5
              (mk_csv_p 1 0 1) ∅ 3 _ _ _ _);
      [reflexivity | left; reflexivity | lia | simpl; lia].
Defined.

(** X12. With [CSVN_SKIP_WHITESPACE], the delimiter case looks for an empty
    field at the first byte after the delimiter that is not a space.  After
    [n] spaces: if that byte is not a delimiter the iteration only moves
    there; if it is one, the empty-field policy applies although the two
    delimiters are not adjacent, and by default the [EMPTY] descriptor spans
    that delimiter and the byte before it. *)
Theorem skip_whitespace_then_policy
    (cfg : config) (text : string) (textlen num_tok : Z) (fuel : nat)
    (p : csv_p) (pool : tokpool) (parsed : Z) (n : nat) :
  skip_whitespace cfg = true ->
  char_at text (pos p) = CSVN_DELIM ->
  all_from (is_space text) (pos p + 1) n = true ->
  is_space text (pos p + 1 + Z.of_nat n) = false ->
  (n <= fuel)%nat ->
  let stop := pos p + 1 + Z.of_nat n in
  (char_at text stop <> CSVN_DELIM ->
   dispatch cfg text textlen num_tok fuel p pool parsed
   = Some (Continue (set_pos p stop) pool parsed))
  /\ (char_at text stop = CSVN_DELIM -> no_empty_field cfg = true ->
      dispatch cfg text textlen num_tok fuel p pool parsed
      = Some (Return INVALID_CHARACTER (set_pos p stop) pool))
  /\ (char_at text stop = CSVN_DELIM -> no_empty_field cfg = false ->
      ignore_empty_field cfg = false ->
      forall m : tokmem, pool = Some m -> 0 <= toknext p <= num_tok ->
      dispatch cfg text textlen num_tok fuel p pool parsed
      = Some (Continue (mk_csv_p stop (toknext p + 1) (line p))
                (Some (<[toknext p :=
                          mk_csv_t (stop - 1) stop (line p) 1 EMPTY]> m))
                (parsed + 1))).
Proof.
  intros Hsk Hd Hrun Hstop Hfuel stop.
  assert (Hskip :
            (if skip_whitespace cfg
                && (char_at text (pos (set_pos p (pos p + 1))) =? SPACE)%char
             then skip_spaces text fuel (set_pos p (pos p + 1))
             else Some (set_pos p (pos p + 1)))
            = Some (set_pos p stop)).
  { rewrite Hsk. cbn [pos set_pos andb].
    destruct n as [|k].
    - subst stop. replace (pos p + 1 + Z.of_nat 0) with (pos p + 1) in * by lia.
      unfold is_space in Hstop. rewrite Hstop. reflexivity.
    - cbn [all_from] in Hrun. apply andb_prop in Hrun as [Hs Hrest].
      unfold is_space in Hs. rewrite Hs.
      rewrite (skip_spaces_run text k fuel (set_pos p (pos p + 1)));
        cbn [pos set_pos].
      + subst stop. f_equal. unfold set_pos. cbn [toknext line]. f_equal. lia.
      + exact Hrest.
      + replace (pos p + 1 + 1 + Z.of_nat k)
          with (pos p + 1 + Z.of_nat (S k)) by lia. exact Hstop.
      + lia. }
  assert (Hdisp : dispatch cfg text textlen num_tok fuel p pool parsed
                  = on_delim cfg text num_tok fuel p pool parsed).
  { unfold dispatch. rewrite Hd. reflexivity. }
  rewrite Hdisp. unfold on_delim. rewrite Hskip. cbn [pos set_pos].
  split; [|split].
  - intros Hnd. apply Ascii.eqb_neq in Hnd. rewrite Hnd. reflexivity.
  - intros Hdd Hne. rewrite Hdd, Hne. reflexivity.
  - intros Hdd Hne Hig m -> Hcap. rewrite Hdd, Hne, Hig. cbn [Ascii.eqb].
    replace (CSVN_DELIM =? CSVN_DELIM)%char with true by reflexivity.
    rewrite allocate_ok by (simpl; lia).
    unfold csvn_fill_token. rewrite insert_insert_eq.
    cbn [pos toknext line set_pos].
    replace (stop - (stop - 1)) with 1 by lia. reflexivity.
Qed.

(** In [a,] followed by two spaces and [,b] the second delimiter is found
    behind the spaces. *)
Lemma skip_whitespace_then_policy_witness :
  dispatch (mk_config false false false false true) "a,  ,b" 6 4 5
    (mk_csv_p 1 1 1) (Some ∅) 1
  = Some (Continue (mk_csv_p 4 2 1)
            (Some (<[1 := mk_csv_t 3 4 1 1 EMPTY]> ∅)) 2).
Proof.
  refine (proj2 (proj2 (skip_whitespace_then_policy
                          (mk_config false false false false true)
                          "a,  ,b" 6 4 5 (mk_csv_p 1 1 1) (Some ∅) 1 2
                          _ _ _ _ _)) _ _ _ ∅ _ _);
    try reflexivity; simpl; lia.
Defined.

(** ** Lines and newlines *)

Section LineFacts.

Variable cfg : config.
Variable text : string.
Variable textlen : Z.
Variable num_tok : Z.

Local Abbreviation in_text := (in_text text textlen).
Local Abbreviation quotes_loop := (quotes_loop cfg text textlen).
Local Abbreviation normal_loop := (normal_loop cfg text textlen).
Local Abbreviation skip_spaces := (skip_spaces text).
Local Abbreviation dispatch := (dispatch cfg text textlen num_tok).
Local Abbreviation parse_loop := (parse_loop cfg text textlen num_tok).
Local Abbreviation nb := (newlines_between text).

Lemma quotes_loop_newlines (fuel : nat) :
  forall p ln p1 ln1,
    quotes_loop fuel p ln = Some (p1, ln1) ->
    line p1 = line p + nb (pos p) (pos p1).
Proof.
  induction fuel as [|f IH]; intros p ln p1 ln1 H; simpl in H; [discriminate|].
  destruct (in_text p) eqn:Hin.
  2:{ inversion H; subst. rewrite newlines_between_empty; lia. }
  destruct (Ascii.eqb_spec (char_at text (pos p)) DQ) as [Hq|Hq].
  - destruct (Ascii.eqb_spec (char_at text (pos p + 1)) DQ) as [Hq1|Hq1];
      simpl in H.
    + pose proof (quotes_loop_advance _ _ _ _ _ _ _ _ H) as (Hpos & _).
      apply IH in H. simpl in H, Hpos.
      rewrite (newlines_between_split text (pos p) (pos p + 2) (pos p1))
        by lia.
      rewrite (newlines_between_none text (pos p) (pos p + 2)); [lia|].
      intros i Hi. assert (i = pos p \/ i = pos p + 1) as [->| ->] by lia.
      * rewrite Hq. discriminate.
      * rewrite Hq1. discriminate.
    + inversion H; subst. rewrite newlines_between_empty; lia.
  - simpl in H.
    destruct (Ascii.eqb_spec (char_at text (pos p)) CSVN_NEWLINE) as [Hn|Hn].
    + pose proof (quotes_loop_advance _ _ _ _ _ _ _ _ H) as (Hpos & _).
      apply IH in H. simpl in H, Hpos.
      rewrite (newlines_between_split text (pos p) (pos p + 1) (pos p1))
        by lia.
      rewrite newlines_between_one. rewrite Hn. simpl. lia.
    + pose proof (quotes_loop_advance _ _ _ _ _ _ _ _ H) as (Hpos & _).
      apply IH in H. simpl in H, Hpos.
      rewrite (newlines_between_split text (pos p) (pos p + 1) (pos p1))
        by lia.
      rewrite newlines_between_one.
      apply Ascii.eqb_neq in Hn. rewrite Hn. lia.
Qed.

Lemma quotes_loop_stops (fuel : nat) :
  forall p ln p1 ln1,
    quotes_loop fuel p ln = Some (p1, ln1) ->
    in_text p1 = false \/ char_at text (pos p1) = DQ.
Proof.
  induction fuel as [|f IH]; intros p ln p1 ln1 H; simpl in H; [discriminate|].
  destruct (in_text p) eqn:Hin; [|inversion H; subst; auto].
  destruct (Ascii.eqb_spec (char_at text (pos p)) DQ) as [Hq|Hq].
  - destruct (char_at text (pos p + 1) =? DQ)%char; simpl in H.
    + eapply IH; eassumption.
    + inversion H; subst. auto.
  - simpl in H. destruct (_ =? CSVN_NEWLINE)%char; eapply IH; eassumption.
Qed.

Lemma normal_loop_no_newline (fuel : nat) :
  forall p s,
    normal_loop fuel p = Some s ->
    match s with
    | Done p1 | Abort _ p1 =>
        forall i, pos p <= i < pos p1 -> char_at text i <> CSVN_NEWLINE
    end.
Proof.
  induction fuel as [|f IH]; intros p s H; simpl in H; [discriminate|].
  destruct (in_text p); simpl in H;
    [|inversion H; subst; intros i Hi; lia].
  destruct (Ascii.eqb_spec (char_at text (pos p)) CSVN_NEWLINE) as [Hn|Hn];
    simpl in H; [inversion H; subst; intros i Hi; lia|].
  destruct (_ =? CSVN_DELIM)%char; simpl in H;
    [inversion H; subst; intros i Hi; lia|].
  destruct (strict cfg && _); [inversion H; subst; intros i Hi; lia|].
  apply IH in H. destruct s as [p1|c p1]; simpl in H; intros i Hi;
    (destruct (Z.eq_dec i (pos p)) as [->|Hne]; [assumption|apply H; lia]).
Qed.

Lemma skip_spaces_only_spaces (fuel : nat) :
  forall p p1,
    skip_spaces fuel p = Some p1 ->
    forall i, pos p < i < pos p1 -> char_at text i = SPACE.
Proof.
  induction fuel as [|f IH]; intros p p1 H; simpl in H; [discriminate|].
  destruct (Ascii.eqb_spec (char_at text (pos p + 1)) SPACE) as [Hs|Hs].
  - intros i Hi. destruct (Z.eq_dec i (pos p + 1)) as [->|Hne]; [assumption|].
    apply (IH _ _ H). simpl. lia.
  - inversion H; subst. simpl. intros i Hi. lia.
Qed.

Hypothesis text_within_length : strlen text <= textlen.

Lemma outside_text_is_nul (p : csv_p) :
  0 <= pos p -> in_text p = false -> char_at text (pos p) = NUL.
Proof.
  unfold in_text, int_lt_size. intros H0 H.
  destruct (Ascii.eqb_spec (char_at text (pos p)) NUL) as [Hn|Hn];
    [assumption|].
  simpl in H. apply andb_false_iff in H as [H|H].
  - apply Z.leb_gt in H. lia.
  - apply Z.ltb_ge in H. apply char_at_outside. lia.
Qed.

Lemma dispatch_newlines (fuel : nat) (p : csv_p) (pool : tokpool)
    (parsed : Z) (fl : flow) :
  in_text p = true ->
  dispatch fuel p pool parsed = Some fl ->
  match fl with
  | Continue p1 _ _ | Return _ p1 _ =>
      line p1 = line p + nb (pos p) (pos p1)
  end.
Proof.
  unfold dispatch. intros Hin H.
  pose proof (in_text_inv _ _ _ Hin) as (_ & Hpos & _).
  destruct (Ascii.eqb_spec (char_at text (pos p)) CSVN_NEWLINE) as [Hnl|Hnl].
  { inversion H; subst; simpl.
    rewrite newlines_between_one, Hnl. reflexivity. }
  apply Ascii.eqb_neq in Hnl.
  destruct (Ascii.eqb_spec (char_at text (pos p)) CSVN_DELIM) as [Hd|Hd].
  { unfold on_delim in H.
    set (p1 := set_pos p (pos p + 1)) in *.
    destruct (if skip_whitespace cfg && _ then skip_spaces fuel p1 else Some p1)
      as [p2|] eqn:Hs; [|discriminate].
    assert (Hp2 : line p2 = line p /\ nb (pos p) (pos p2) = 0).
    { destruct (skip_whitespace cfg && _) eqn:Hsk.
      - apply andb_prop in Hsk as [_ Hsp]. apply Ascii.eqb_eq in Hsp.
        pose proof (skip_spaces_advance _ _ _ _ Hs) as (_ & _ & Hl).
        pose proof (skip_spaces_only_spaces _ _ _ Hs) as Hsps.
        simpl in Hl, Hsps, Hsp. split; [lia|].
        apply newlines_between_none. intros i Hi.
        destruct (Z.eq_dec i (pos p)) as [->|Hn0];
          [rewrite Hd; discriminate|].
        destruct (Z.eq_dec i (pos p + 1)) as [->|Hn1];
          [rewrite Hsp; discriminate|].
        rewrite Hsps by lia. discriminate.
      - inversion Hs; subst; simpl. split; [reflexivity|].
        apply newlines_between_none. intros i Hi.
        assert (i = pos p) as -> by lia. rewrite Hd. discriminate. }
    destruct Hp2 as [Hl2 Hnb2].
    destruct (_ =? CSVN_DELIM)%char; [|inversion H; subst; simpl; lia].
    destruct (no_empty_field cfg); [inversion H; subst; simpl; lia|].
    destruct (ignore_empty_field cfg); [inversion H; subst; simpl; lia|].
    destruct pool as [m|]; [|inversion H; subst; simpl; lia].
    destruct (csvn_allocate_token p2 (Some m) num_tok) as [[[i p3] m3]|] eqn:Ha.
    - apply allocate_inv in Ha as (m0 & _ & _ & _ & -> & _).
      inversion H; subst; simpl. lia.
    - inversion H; subst; simpl. lia. }
  destruct (Ascii.eqb_spec (char_at text (pos p)) DQ) as [Hq|Hq].
  { unfold on_quote, csvn_parse_quotes in H.
    destruct (quotes_loop fuel (set_pos p (pos p + 1)) _) as [[pq ln]|] eqn:Hl;
      [|discriminate].
    pose proof (quotes_loop_advance _ _ _ _ _ _ _ _ Hl) as (Hpq & _).
    pose proof (quotes_loop_stops _ _ _ _ _ Hl) as Hstop.
    apply quotes_loop_newlines in Hl. simpl in Hl, Hpq.
    assert (Hopen : nb (pos p) (pos pq) = nb (pos p + 1) (pos pq)).
    { rewrite (newlines_between_split text (pos p) (pos p + 1) (pos pq))
        by lia.
      rewrite newlines_between_one, Hnl. lia. }
    assert (Hclose : nb (pos p) (pos pq + 1) = nb (pos p + 1) (pos pq)).
    { rewrite (newlines_between_split text (pos p) (pos pq) (pos pq + 1))
        by lia.
      rewrite newlines_between_one, Hopen.
      destruct Hstop as [Hout|Hdq].
      - rewrite outside_text_is_nul by (assumption || lia). simpl. lia.
      - rewrite Hdq. simpl. lia. }
    destruct pool as [m|].
    - destruct (csvn_allocate_token pq (Some m) num_tok) as [[[i p3] m3]|] eqn:Ha.
      + apply allocate_inv in Ha as (m0 & _ & _ & _ & -> & _).
        simpl in H. break_if_in H; inversion H; subst; simpl; lia.
      + simpl in H. inversion H; subst; simpl. lia.
    - simpl in H. break_if_in H; inversion H; subst; simpl; lia. }
  unfold on_other, csvn_parse_normal in H.
  destruct (normal_loop fuel p) as [[pn|code pn]|] eqn:Hl; [| |discriminate].
  - pose proof (normal_loop_first _ _ _ _ _ _ Hin
                  ltac:(apply Ascii.eqb_neq; exact Hnl) Hd Hl)
      as (Hpn & _ & Hln).
    apply normal_loop_no_newline in Hl. simpl in Hl.
    set (p2 := if _ || _ then set_pos pn (pos pn - 1) else pn) in H.
    assert (Hp2 : line p2 = line p /\ nb (pos p) (pos p2) = 0
                  /\ nb (pos p) (pos p2 + 1) = 0).
    { subst p2.
      destruct (Ascii.eqb_spec (char_at text (pos pn)) CSVN_NEWLINE) as [Hn|Hn];
        [|destruct (Ascii.eqb_spec (char_at text (pos pn)) CSVN_DELIM)
            as [Hdn|Hdn]]; simpl.
      - split; [lia|]. split; apply newlines_between_none;
          intros i Hi; apply Hl; lia.
      - split; [lia|]. split; apply newlines_between_none;
          intros i Hi; apply Hl; lia.
      - split; [lia|]. split; apply newlines_between_none; intros i Hi.
        + apply Hl; lia.
        + destruct (Z.eq_dec i (pos pn)) as [->|Hne]; [assumption|].
          apply Hl; lia. }
    destruct Hp2 as (Hl2 & Hnb & Hnb1).
    destruct pool as [m|].
    + destruct (csvn_allocate_token p2 (Some m) num_tok) as [[[i p3] m3]|] eqn:Ha.
      * apply allocate_inv in Ha as (m0 & _ & _ & _ & -> & _).
        simpl in H. inversion H; subst; simpl. lia.
      * simpl in H. inversion H; subst; simpl. lia.
    + simpl in H. inversion H; subst; simpl. lia.
  - pose proof (normal_loop_advance _ _ _ _ _ _ Hl) as (-> & _ & _ & _ & Hln).
    apply normal_loop_no_newline in Hl. simpl in Hl.
    simpl in H. inversion H; subst; simpl.
    rewrite newlines_between_none by assumption. lia.
Qed.

Lemma parse_loop_newlines (fuel : nat) :
  forall p pool parsed r pf poolf,
    parse_loop fuel p pool parsed = Some (r, pf, poolf) ->
    line pf = line p + nb (pos p) (pos pf).
Proof.
  induction fuel as [|f IH]; intros p pool parsed r pf poolf H; simpl in H;
    [discriminate|].
  destruct (in_text p) eqn:Hin.
  2:{ inversion H; subst. rewrite newlines_between_empty; lia. }
  destruct (dispatch f p pool parsed) as [fl|] eqn:Hd; [|discriminate].
  pose proof (dispatch_line_mono _ _ _ _ _ _ _ _ _ Hin Hd) as Hm.
  apply dispatch_newlines in Hd; [|assumption].
  destruct fl as [p1 pool1 parsed1|r1 p1 pool1].
  - pose proof (parse_loop_line_mono _ _ _ _ _ _ _ _ _ _ _ H) as Hm1.
    apply IH in H.
    rewrite (newlines_between_split text (pos p) (pos p1) (pos pf)) by lia.
    lia.
  - inversion H; subst. assumption.
Qed.

End LineFacts.

(** X13. For a text no longer than its declared length, a call adds to the
    parser's line exactly the number of newline bytes between the position it
    started at and the position it ended at, quoted or not, whatever the
    options and the return value. *)
Theorem line_counts_newlines
    (cfg : config) (text : string) (textlen num_tok : Z)
    (p : csv_p) (pool : tokpool) :
  strlen text <= textlen ->
  exists r pf poolf,
    csvn_parse cfg text textlen num_tok p pool = Some (r, pf, poolf)
    /\ line pf = line p + newlines_between text (pos p) (pos pf).
Proof.
  intros Hlen.
  destruct (csvn_parse_returns cfg text textlen num_tok p pool)
    as (r & pf & poolf & H).
  exists r, pf, poolf. split; [exact H|].
  unfold csvn_parse in H.
  eapply parse_loop_newlines; eassumption.
Qed.

(** A row, a quoted field with a newline inside, and another row: the line
    goes from 1 to 3. *)
Lemma line_counts_newlines_witness :
  csvn_parse default_config
    ("a" ++ nl ++ q ++ "b" ++ nl ++ "c" ++ q ++ ",d") 9 0 fresh None
  = Some (3, mk_csv_p 10 0 3, None)
  /\ exists r pf poolf,
       csvn_parse default_config
         ("a" ++ nl ++ q ++ "b" ++ nl ++ "c" ++ q ++ ",d") 9 0 fresh None
       = Some (r, pf, poolf)
       /\ line pf
          = line fresh
            + newlines_between
                ("a" ++ nl ++ q ++ "b" ++ nl ++ "c" ++ q ++ ",d")
                (pos fresh) (pos pf).
Proof.
  split; [vm_compute; reflexivity|].
  refine (line_counts_newlines default_config
            ("a" ++ nl ++ q ++ "b" ++ nl ++ "c" ++ q ++ ",d") 9 0
            fresh None _).
  vm_compute. discriminate.
Defined.

(** X14. The counters of the parser stay within reach of the text: a call
    leaves [pos] no further than two bytes past the later of the declared and
    the actual end of the text (or where it started, if that was further),
    and [line], [toknext] and the returned count grow by no more than [pos]
    does. *)
Theorem parse_counters_bounded
    (cfg : config) (text : string) (textlen num_tok : Z)
    (p : csv_p) (pool : tokpool) :
  exists r pf poolf,
    csvn_parse cfg text textlen num_tok p pool = Some (r, pf, poolf)
    /\ pos p <= pos pf <= Z.max (pos p) (horizon text textlen + 2)
    /\ line p <= line pf <= line p + (pos pf - pos p)
    /\ toknext p <= toknext pf <= toknext p + (pos pf - pos p)
    /\ r <= pos pf - pos p.
Proof.
  destruct (csvn_parse_returns cfg text textlen num_tok p pool)
    as (r & pf & poolf & H).
  exists r, pf, poolf. split; [exact H|].
  unfold csvn_parse in H.
  pose proof (parse_loop_line_mono _ _ _ _ _ _ _ _ _ _ _ H) as (Hpos & Hline).
  apply parse_loop_bound in H as (Hb & Hl & Htn & Hr).
  repeat split; lia.
Qed.

(** ** Well-formed rows *)

Lemma append_cons (c : ascii) (a b : string) :
  (String c a ++ b)%string = String c (a ++ b).
Proof. reflexivity. Qed.

Lemma append_empty_l (b : string) : (EmptyString ++ b)%string = b.
Proof. reflexivity. Qed.

Lemma append_empty_r (s : string) : (s ++ EmptyString)%string = s.
Proof.
  induction s as [|c s IH]; [reflexivity|]. rewrite append_cons. f_equal. exact IH.
Qed.

Lemma append_assoc (a b c : string) :
  ((a ++ b) ++ c)%string = (a ++ (b ++ c))%string.
Proof.
  induction a as [|x a IH]; [reflexivity|]. rewrite !append_cons. f_equal. exact IH.
Qed.

Lemma strlen_append (a b : string) : strlen (a ++ b) = strlen a + strlen b.
Proof.
  unfold strlen. induction a as [|x a IH];
    [rewrite append_empty_l; simpl String.length; lia|].
  rewrite append_cons. cbn [String.length]. lia.
Qed.

Lemma strlen_nonneg (s : string) : 0 <= strlen s.
Proof. unfold strlen. lia. Qed.

Lemma char_at_cons (c : ascii) (s : string) (i : Z) :
  0 <= i -> char_at (String c s) (i + 1) = char_at s i.
Proof.
  intros Hi. unfold char_at.
  destruct (i + 1 <? 0) eqn:H1; [apply Z.ltb_lt in H1; lia|].
  destruct (i <? 0) eqn:H0; [apply Z.ltb_lt in H0; lia|].
  replace (Z.to_nat (i + 1)) with (S (Z.to_nat i)) by lia. reflexivity.
Qed.

Lemma char_at_append_r (a b : string) (i : Z) :
  0 <= i -> char_at (a ++ b) (strlen a + i) = char_at b i.
Proof.
  intros Hi. induction a as [|x a IH]; [|rewrite append_cons].
  - rewrite append_empty_l. unfold strlen. simpl. reflexivity.
  - replace (strlen (String x a) + i) with (strlen a + i + 1)
      by (unfold strlen; simpl String.length; lia).
    rewrite char_at_cons by (pose proof (strlen_nonneg a); lia). exact IH.
Qed.

Lemma char_at_append_l (a b : string) (i : Z) :
  0 <= i < strlen a -> char_at (a ++ b) i = char_at a i.
Proof.
  revert i. induction a as [|x a IH]; intros i Hi.
  - unfold strlen in Hi. simpl in Hi. lia.
  - destruct (Z.eq_dec i 0) as [->|Hne]; [reflexivity|].
    replace i with (i - 1 + 1) by lia. rewrite append_cons.
    rewrite !char_at_cons by lia. apply IH.
    unfold strlen in *. simpl String.length in Hi. lia.
Qed.

Lemma all_chars_at (f : ascii -> bool) (s : string) :
  all_chars f s = true ->
  forall i, 0 <= i < strlen s -> f (char_at s i) = true.
Proof.
  induction s as [|c s IH]; intros H i Hi.
  - unfold strlen in Hi. simpl in Hi. lia.
  - simpl in H. apply andb_prop in H as [Hc Hs].
    destruct (Z.eq_dec i 0) as [->|Hne]; [exact Hc|].
    replace i with (i - 1 + 1) by lia. rewrite char_at_cons by lia.
    apply IH; [assumption|]. unfold strlen in *. simpl String.length in Hi. lia.
Qed.

Lemma substring_skip (a s : string) (n : nat) :
  substring (String.length a) n (a ++ s) = substring 0 n s.
Proof.
  induction a as [|x a IH]; [reflexivity|].
  rewrite append_cons. cbn [String.length substring]. exact IH.
Qed.

Lemma substring_prefix (f rest : string) :
  substring 0 (String.length f) (f ++ rest) = f.
Proof.
  induction f as [|x f IH].
  - destruct rest; reflexivity.
  - rewrite append_cons. cbn [String.length substring]. f_equal. exact IH.
Qed.

Lemma substring_whole (f : string) :
  substring 0 (S (String.length f)) f = f.
Proof.
  induction f as [|x f IH]; cbn [String.length substring]; [reflexivity|].
  f_equal. exact IH.
Qed.

Lemma field_ok_chars (cfg : config) (f : string) :
  field_ok cfg f = true ->
  exists c r, f = String c r /\ first_ok cfg c = true
              /\ all_chars (char_ok cfg) f = true.
Proof.
  destruct f as [|c r]; simpl; [discriminate|].
  intros H. apply andb_prop in H as [Hc Hr].
  exists c, r. split; [reflexivity|]. split; [assumption|].
  rewrite Hr. unfold first_ok in Hc.
  apply andb_prop in Hc as [Hc _]. apply andb_prop in Hc as [Hc _].
  rewrite Hc. reflexivity.
Qed.

Lemma table_head (cfg : config) (fs : list (string * ascii)) (last : string) :
  table_ok cfg fs last = true ->
  exists c r, table fs last = String c r /\ first_ok cfg c = true.
Proof.
  destruct fs as [|[f s] rest]; simpl; intros H.
  - apply field_ok_chars in H as (c & r & -> & Hc & _). eauto.
  - apply andb_prop in H as [H _]. apply andb_prop in H as [H _].
    apply field_ok_chars in H as (c & r & -> & Hc & _). simpl. eauto.
Qed.

Section Tables.

Variable cfg : config.
Variable num_tok : Z.

Lemma first_ok_inv (c : ascii) :
  first_ok cfg c = true ->
  (c =? NUL)%char = false /\ (c =? CSVN_NEWLINE)%char = false
  /\ (c =? CSVN_DELIM)%char = false /\ (c =? DQ)%char = false
  /\ skip_whitespace cfg && (c =? SPACE)%char = false.
Proof.
  unfold first_ok, char_ok. intros H.
  repeat match type of H with
         | (_ && _ = true) => apply andb_prop in H as [H ?]
         end.
  repeat match goal with
         | Hn : negb _ = true |- _ => apply negb_true_iff in Hn
         end.
  auto.
Qed.

Lemma field_run (text pre f rest : string) :
  text = (pre ++ f ++ rest)%string ->
  all_chars (char_ok cfg) f = true ->
  all_from (plain_byte cfg text (strlen text)) (strlen pre) (String.length f)
  = true.
Proof.
  intros -> Hf. apply all_from_spec. intros i Hi.
  fold (strlen f) in Hi.
  pose proof (strlen_nonneg pre) as Hpre.
  pose proof (strlen_nonneg rest) as Hrest.
  replace i with (strlen pre + (i - strlen pre)) by lia.
  assert (Hc : char_at (pre ++ f ++ rest) (strlen pre + (i - strlen pre))
               = char_at f (i - strlen pre)).
  { rewrite char_at_append_r by lia. apply char_at_append_l. lia. }
  pose proof (all_chars_at _ _ Hf (i - strlen pre) ltac:(lia)) as Hok.
  unfold plain_byte, byte_in_text, in_text, int_lt_size. cbn [pos].
  rewrite Hc. unfold char_ok in Hok.
  repeat match type of Hok with
         | (_ && _ = true) => apply andb_prop in Hok as [Hok ?]
         end.
  rewrite !strlen_append.
  repeat (apply andb_true_intro; split); try assumption.
  - apply Z.leb_le. lia.
  - apply Z.ltb_lt. lia.
Qed.

Lemma field_first_byte (text pre f rest : string) (tn l parsed : Z)
    (pool : tokpool) (fuel : nat) :
  text = (pre ++ f ++ rest)%string ->
  field_ok cfg f = true ->
  dispatch cfg text (strlen text) num_tok fuel (mk_csv_p (strlen pre) tn l)
    pool parsed
  = on_other cfg text (strlen text) num_tok fuel (mk_csv_p (strlen pre) tn l)
      pool parsed.
Proof.
  intros Htext Hf.
  pose proof (strlen_nonneg pre) as Hpre.
  destruct (field_ok_chars _ _ Hf) as (c & r & Hfc & Hc & _).
  assert (Hc0 : char_at text (strlen pre) = c).
  { subst text. replace (strlen pre) with (strlen pre + 0) by lia.
    rewrite char_at_append_r by lia. rewrite Hfc, append_cons. reflexivity. }
  destruct (first_ok_inv _ Hc) as (_ & Hnl & Hd & Hq & _).
  unfold dispatch. cbn [pos]. rewrite Hc0, Hnl, Hd, Hq. reflexivity.
Qed.

(** [csvn_parse_normal] at the first byte of an acceptable field: it stops
    at the separator and steps back onto the last byte of the field, or stops
    at the end of the text and stays there; then it counts, stores, or finds
    the store full. *)
Lemma field_normal (text pre f rest : string) (tn l : Z)
    (pool : tokpool) (fuel : nat) :
  text = (pre ++ f ++ rest)%string ->
  field_ok cfg f = true ->
  (rest = EmptyString \/ exists s r, rest = String s r /\ sep_ok s = true) ->
  (String.length f < fuel)%nat ->
  let a := strlen pre in
  let last :=
    match rest with
    | EmptyString => a + strlen f
    | String _ _ => a + strlen f - 1
    end in
  csvn_parse_normal cfg text (strlen text) num_tok fuel (mk_csv_p a tn l) pool
  = Some
      match pool with
      | None => (0, mk_csv_p last tn l, None)
      | Some m =>
          if int_gt_size tn num_tok
          then (NOT_ENOUGH_MEM, mk_csv_p last tn l, Some m)
          else (0, mk_csv_p last (tn + 1) l,
                Some (<[tn := mk_csv_t a last l (last - a) DQUOTE]> m))
      end.
Proof.
  intros Htext Hf Hrest Hfuel a last.
  pose proof (strlen_nonneg pre) as Hpre.
  destruct (field_ok_chars _ _ Hf) as (c & r & Hfc & Hc & Hall).
  assert (Hstop : char_at text (a + strlen f)
                  = match rest with
                    | EmptyString => NUL
                    | String s _ => s
                    end).
  { subst text a. rewrite <- append_assoc, <- strlen_append.
    replace (strlen (pre ++ f)) with (strlen (pre ++ f) + 0) by lia.
    rewrite char_at_append_r by lia. destruct rest; reflexivity. }
  assert (Hscan : scan_byte text (strlen text) (a + strlen f) = false).
  { unfold scan_byte, byte_in_text, in_text. cbn [pos]. rewrite Hstop.
    destruct Hrest as [->|(s & r' & -> & Hs)]; [reflexivity|].
    unfold sep_ok in Hs. apply orb_prop in Hs as [Hs|Hs]; rewrite Hs;
      simpl; rewrite ?andb_false_r; reflexivity. }
  assert (Hloop : normal_loop cfg text (strlen text) fuel (mk_csv_p a tn l)
                  = Some (Done (mk_csv_p (a + strlen f) tn l))).
  { rewrite (normal_loop_run cfg text (strlen text) (String.length f) fuel);
      [|exact (field_run _ _ _ _ Htext Hall)|exact Hfuel].
    cbn [pos]. fold (strlen f). rewrite Hscan. reflexivity. }
  assert (Hback : (if (char_at text (a + strlen f) =? CSVN_NEWLINE)%char
                      || (char_at text (a + strlen f) =? CSVN_DELIM)%char
                   then set_pos (mk_csv_p (a + strlen f) tn l)
                          (a + strlen f - 1)
                   else mk_csv_p (a + strlen f) tn l)
                  = mk_csv_p last tn l).
  { rewrite Hstop. subst last.
    destruct Hrest as [->|(s & r' & -> & Hs)]; [reflexivity|].
    unfold sep_ok in Hs. rewrite orb_comm, Hs. reflexivity. }
  unfold csvn_parse_normal. rewrite Hloop. cbn [pos line].
  rewrite Hback.
  destruct pool as [m|]; [|reflexivity].
  unfold csvn_allocate_token. cbn [toknext pos line].
  destruct (int_gt_size tn num_tok); [reflexivity|].
  unfold csvn_fill_token. rewrite insert_insert_eq. reflexivity.
Qed.

Lemma field_step (text pre f rest : string) (tn l parsed : Z)
    (pool : tokpool) (fuel : nat) :
  text = (pre ++ f ++ rest)%string ->
  field_ok cfg f = true ->
  (rest = EmptyString \/ exists s r, rest = String s r /\ sep_ok s = true) ->
  (pool = None \/ 0 <= tn <= num_tok) ->
  (String.length f < fuel)%nat ->
  let a := strlen pre in
  let last :=
    match rest with
    | EmptyString => a + strlen f
    | String _ _ => a + strlen f - 1
    end in
  dispatch cfg text (strlen text) num_tok fuel (mk_csv_p a tn l) pool parsed
  = Some (Continue (mk_csv_p (last + 1) (next_tn pool tn) l)
            (store_one pool tn (mk_csv_t a last l (last - a) DQUOTE))
            (parsed + 1)).
Proof.
  intros Htext Hf Hrest Hcap Hfuel a last. subst a.
  rewrite (field_first_byte _ _ _ _ _ _ _ _ _ Htext Hf).
  unfold on_other.
  rewrite (field_normal _ _ _ _ _ _ _ _ Htext Hf Hrest Hfuel).
  destruct pool as [m|]; [|reflexivity].
  destruct Hcap as [Hcap|Hcap]; [discriminate|].
  replace (int_gt_size tn num_tok) with false
    by (symmetry; unfold int_gt_size; apply orb_false_intro;
        apply Z.ltb_ge; lia).
  reflexivity.
Qed.

(** The same iteration when the store is full: the call ends there. *)
Lemma field_step_full (text pre f rest : string) (tn l parsed : Z)
    (m : tokmem) (fuel : nat) :
  text = (pre ++ f ++ rest)%string ->
  field_ok cfg f = true ->
  (rest = EmptyString \/ exists s r, rest = String s r /\ sep_ok s = true) ->
  int_gt_size tn num_tok = true ->
  (String.length f < fuel)%nat ->
  exists pf,
    dispatch cfg text (strlen text) num_tok fuel (mk_csv_p (strlen pre) tn l)
      (Some m) parsed
    = Some (Return NOT_ENOUGH_MEM pf (Some m))
    /\ toknext pf = tn /\ line pf = l.
Proof.
  intros Htext Hf Hrest Hfull Hfuel.
  rewrite (field_first_byte _ _ _ _ _ _ _ _ _ Htext Hf).
  unfold on_other.
  rewrite (field_normal _ _ _ _ _ _ _ _ Htext Hf Hrest Hfuel).
  rewrite Hfull. cbn. eexists. split; [reflexivity|]. split; reflexivity.
Qed.

Lemma sep_step (text pre : string) (s c : ascii) (r : string)
    (tn l parsed : Z) (pool : tokpool) (fuel : nat) :
  text = (pre ++ String s (String c r))%string ->
  sep_ok s = true -> first_ok cfg c = true ->
  in_text text (strlen text) (mk_csv_p (strlen pre) tn l) = true
  /\ dispatch cfg text (strlen text) num_tok fuel
       (mk_csv_p (strlen pre) tn l) pool parsed
     = Some (Continue
               (mk_csv_p (strlen pre + 1) tn
                  (l + if (s =? CSVN_NEWLINE)%char then 1 else 0))
               pool parsed).
Proof.
  intros Htext Hs Hc.
  pose proof (strlen_nonneg pre) as Hpre.
  pose proof (strlen_nonneg r) as Hr.
  assert (Hs0 : char_at text (strlen pre) = s).
  { subst text. replace (strlen pre) with (strlen pre + 0) by lia.
    rewrite char_at_append_r by lia. reflexivity. }
  assert (Hc1 : char_at text (strlen pre + 1) = c).
  { subst text. rewrite char_at_append_r by lia. reflexivity. }
  assert (Hlen : strlen text = strlen pre + 2 + strlen r).
  { subst text. rewrite strlen_append. unfold strlen.
    cbn [String.length]. lia. }
  destruct (first_ok_inv _ Hc) as (_ & _ & Hd & _ & Hsp).
  split.
  - unfold in_text, int_lt_size. cbn [pos]. rewrite Hs0.
    unfold sep_ok in Hs.
    apply andb_true_intro. split.
    + apply orb_prop in Hs as [Hs|Hs]; apply Ascii.eqb_eq in Hs; subst s;
        reflexivity.
    + apply andb_true_intro. split; [apply Z.leb_le|apply Z.ltb_lt]; lia.
  - unfold dispatch. cbn [pos]. rewrite Hs0.
    destruct (Ascii.eqb_spec s CSVN_NEWLINE) as [Hn|Hn].
    + cbn [toknext line]. reflexivity.
    + unfold sep_ok in Hs. apply Ascii.eqb_neq in Hn. rewrite Hn in Hs.
      rewrite orb_false_r in Hs. rewrite Hs.
      rewrite on_delim_plain.
      * unfold set_pos. cbn [pos toknext line].
        replace (l + 0) with l by lia. reflexivity.
      * cbn [pos]. rewrite Hc1. apply Ascii.eqb_neq. exact Hd.
      * cbn [pos]. rewrite Hc1.
        destruct (skip_whitespace cfg); [|left; reflexivity].
        right. apply Ascii.eqb_neq. exact Hsp.
Qed.

End Tables.

(** *** The bytes a descriptor designates *)

Lemma bytes_at_cons (c : ascii) (s : string) (n : nat) :
  forall i, 0 <= i -> bytes_at (String c s) (i + 1) n = bytes_at s i n.
Proof.
  induction n as [|k IH]; intros i Hi; cbn [bytes_at]; [reflexivity|].
  rewrite char_at_cons by lia. rewrite IH by lia. reflexivity.
Qed.

Lemma bytes_at_shift (a s : string) (n : nat) :
  forall i, 0 <= i -> bytes_at (a ++ s) (strlen a + i) n = bytes_at s i n.
Proof.
  induction n as [|k IH]; intros i Hi; cbn [bytes_at]; [reflexivity|].
  rewrite char_at_append_r by lia.
  replace (strlen a + i + 1) with (strlen a + (i + 1)) by lia.
  rewrite IH by lia. reflexivity.
Qed.

Lemma bytes_at_prefix (f rest : string) :
  bytes_at (f ++ rest) 0 (String.length f) = f.
Proof.
  induction f as [|x f IH]; [reflexivity|].
  rewrite append_cons. cbn [String.length bytes_at].
  rewrite (bytes_at_cons x (f ++ rest) (String.length f) 0) by lia.
  rewrite IH. reflexivity.
Qed.

(** One byte more than the text holds: the terminating NUL comes last. *)
Lemma bytes_at_whole (f : string) :
  bytes_at f 0 (S (String.length f)) = (f ++ String NUL EmptyString)%string.
Proof.
  induction f as [|x f IH]; [reflexivity|].
  rewrite append_cons. cbn [String.length].
  change (bytes_at (String x f) 0 (S (S (String.length f))))
    with (String x (bytes_at (String x f) (0 + 1) (S (String.length f)))).
  rewrite (bytes_at_cons x f (S (String.length f)) 0) by lia.
  rewrite IH. reflexivity.
Qed.

Lemma span_text_inner (pre f rest : string) (l : Z) (tok : csv_tok) :
  span_text (pre ++ f ++ rest)
    (mk_csv_t (strlen pre) (strlen pre + strlen f - 1) l
       (strlen pre + strlen f - 1 - strlen pre) tok)
  = f.
Proof.
  unfold span_text. cbn [start size].
  replace (Z.to_nat _) with (String.length f) by (unfold strlen; lia).
  replace (strlen pre) with (strlen pre + 0) at 1 by lia.
  rewrite bytes_at_shift by lia. apply bytes_at_prefix.
Qed.

Lemma span_text_final (pre f : string) (l : Z) (tok : csv_tok) :
  span_text (pre ++ f)
    (mk_csv_t (strlen pre) (strlen pre + strlen f) l
       (strlen pre + strlen f - strlen pre) tok)
  = (f ++ String NUL EmptyString)%string.
Proof.
  unfold span_text. cbn [start size].
  replace (Z.to_nat _) with (S (String.length f)) by (unfold strlen; lia).
  replace (strlen pre) with (strlen pre + 0) at 1 by lia.
  rewrite bytes_at_shift by lia. apply bytes_at_whole.
Qed.

(** *** What the driver's copy holds *)

Lemma upto_nul_ok (cfg : config) (f : string) :
  all_chars (char_ok cfg) f = true -> upto_nul f = f.
Proof.
  induction f as [|c r IH]; simpl; intros H; [reflexivity|].
  apply andb_prop in H as [Hc Hr]. unfold char_ok in Hc.
  destruct (c =? NUL)%char; [discriminate Hc|].
  rewrite IH by assumption. reflexivity.
Qed.

Lemma get_parsed_inner (cfg : config) (pre f rest : string) (l : Z)
    (tok : csv_tok) :
  all_chars (char_ok cfg) f = true ->
  get_parsed
    (mk_csv_t (strlen pre) (strlen pre + strlen f - 1) l
       (strlen pre + strlen f - 1 - strlen pre) tok)
    (pre ++ f ++ rest)
  = f.
Proof.
  intros Hf. unfold get_parsed, strlen. cbn [start size].
  replace (Z.to_nat (Z.of_nat (String.length pre))) with (String.length pre)
    by lia.
  replace (Z.to_nat _) with (String.length f) by lia.
  rewrite substring_skip, substring_prefix. eapply upto_nul_ok; eassumption.
Qed.

(** For the field that ends the text the copy stops at the terminating NUL,
    the last of the [size + 1] bytes. *)
Lemma get_parsed_final (cfg : config) (pre f : string) (l : Z)
    (tok : csv_tok) :
  all_chars (char_ok cfg) f = true ->
  get_parsed
    (mk_csv_t (strlen pre) (strlen pre + strlen f) l
       (strlen pre + strlen f - strlen pre) tok)
    (pre ++ f)
  = f.
Proof.
  intros Hf. unfold get_parsed, strlen. cbn [start size].
  replace (Z.to_nat (Z.of_nat (String.length pre))) with (String.length pre)
    by lia.
  replace (Z.to_nat _) with (S (String.length f)) by lia.
  rewrite substring_skip, substring_whole. eapply upto_nul_ok; eassumption.
Qed.

Lemma field_stored_inner (cfg : config) (pre f rest : string) (l : Z) :
  all_chars (char_ok cfg) f = true ->
  field_stored (pre ++ f ++ rest) (strlen pre) f true l
    (mk_csv_t (strlen pre) (strlen pre + strlen f - 1) l
       (strlen pre + strlen f - 1 - strlen pre) DQUOTE).
Proof.
  intros Hf. unfold field_stored. cbn [start tend size token tline].
  repeat split; try reflexivity.
  - apply span_text_inner.
  - eapply get_parsed_inner; eassumption.
Qed.

Lemma field_stored_final (cfg : config) (pre f : string) (l : Z) :
  all_chars (char_ok cfg) f = true ->
  field_stored (pre ++ f) (strlen pre) f false l
    (mk_csv_t (strlen pre) (strlen pre + strlen f) l
       (strlen pre + strlen f - strlen pre) DQUOTE).
Proof.
  intros Hf. unfold field_stored. cbn [start tend size token tline].
  repeat split; try reflexivity; try lia.
  - apply span_text_final.
  - eapply get_parsed_final; eassumption.
Qed.

Section TableParse.

Variable cfg : config.
Variable num_tok : Z.
Variable last : string.

Lemma field_start_in_text (text pre f rest : string) (tn l : Z) :
  text = (pre ++ f ++ rest)%string ->
  field_ok cfg f = true ->
  in_text text (strlen text) (mk_csv_p (strlen pre) tn l) = true.
Proof.
  intros Htext Hf.
  destruct (field_ok_chars _ _ Hf) as (c & r & Hfc & _ & Hall).
  pose proof (field_run cfg _ _ _ _ Htext Hall) as Hrun.
  rewrite Hfc in Hrun. cbn [String.length all_from] in Hrun.
  apply andb_prop in Hrun as [Hp _]. unfold plain_byte, byte_in_text in Hp.
  repeat match type of Hp with
         | (_ && _ = true) => apply andb_prop in Hp as [Hp ?]
         end.
  exact Hp.
Qed.

Lemma parse_table :
  forall fs text pre tn l parsed pool,
    text = (pre ++ table fs last)%string ->
    table_ok cfg fs last = true ->
    (pool = None \/ (0 <= tn /\ tn + Z.of_nat (length fs) <= num_tok)) ->
    exists fuel pf poolf,
      parse_loop cfg text (strlen text) num_tok fuel
        (mk_csv_p (strlen pre) tn l) pool parsed
      = Some (parsed + Z.of_nat (length fs) + 1, pf, poolf)
      /\ pos pf = strlen text + 1
      /\ line pf = l + newline_seps fs
      /\ (forall m : tokmem, pool = Some m ->
          exists mf : tokmem,
            poolf = Some mf
            /\ forall (j : nat) f,
                table_fields fs last !! j = Some f ->
                exists d,
                  mf !! (tn + Z.of_nat j) = Some d
                  /\ field_stored text (strlen pre + field_start fs j) f
                       (j <? length fs)%nat
                       (l + newline_seps (take j fs)) d).
Proof.
  induction fs as [|[f s] rest IH]; intros text pre tn l parsed pool
    Htext Hok Hcap.
  - (* the last field *)
    cbn [table table_ok] in *.
    assert (Htext' : text = (pre ++ last ++ EmptyString)%string)
      by (rewrite append_empty_r; exact Htext).
    pose proof (field_start_in_text _ _ _ _ tn l Htext' Hok) as Hin.
    pose proof (field_step cfg num_tok _ _ _ _ tn l parsed pool
                  (S (String.length last)) Htext' Hok (or_introl eq_refl)
                  ltac:(destruct Hcap as [?|[? ?]]; [left; assumption|right; simpl in *; lia])
                  ltac:(lia)) as Hstep.
    cbv zeta in Hstep.
    eexists (S (S (String.length last))), _, _. split.
    { cbn [parse_loop]. rewrite Hin, Hstep. cbn [parse_loop].
      unfold in_text at 1, int_lt_size. cbn [pos].
      assert (Hlen : strlen text = strlen pre + strlen last)
        by (rewrite Htext; apply strlen_append).
      replace (strlen pre + strlen last + 1 <? strlen text) with false
        by (symmetry; apply Z.ltb_ge; lia).
      rewrite !andb_false_r.
      replace (parsed + Z.of_nat (length (@nil (string * ascii))) + 1)
        with (parsed + 1) by (simpl; lia).
      reflexivity. }
    cbn [pos line newline_seps].
    split; [rewrite Htext, strlen_append; lia|]. split; [lia|].
    intros m ->. cbn [store_one]. eexists. split; [reflexivity|].
    intros j f0 Hj. destruct j as [|j]; [|discriminate Hj].
    cbn in Hj. inversion Hj; subst f0.
    eexists. replace (tn + Z.of_nat 0) with tn by lia.
    rewrite lookup_insert_eq. split; [reflexivity|].
    destruct (field_ok_chars _ _ Hok) as (c0 & r0 & _ & _ & Hall).
    cbn [field_start take newline_seps length Nat.ltb Nat.leb].
    replace (strlen pre + 0) with (strlen pre) by lia.
    replace (l + 0) with l by lia.
    rewrite Htext. eapply field_stored_final; eassumption.
  - (* a field and its separator *)
    cbn [table table_ok] in *.
    apply andb_prop in Hok as [Hok Hrest]. apply andb_prop in Hok as [Hf Hs].
    destruct (table_head _ _ _ Hrest) as (c & r & Hhead & Hc).
    pose proof (field_start_in_text _ _ _ _ tn l Htext Hf) as Hin.
    assert (Hcap1 : pool = None \/ 0 <= tn <= num_tok).
    { destruct Hcap as [?|[? Hc2]]; [left; assumption|right].
      cbn [length] in Hc2. lia. }
    assert (Htext2 : text = ((pre ++ f) ++ String s (String c r))%string).
    { rewrite Htext, Hhead, append_assoc. reflexivity. }
    assert (Htext3 : text = (((pre ++ f) ++ String s EmptyString)
                               ++ table rest last)%string).
    { rewrite Htext, !append_assoc. reflexivity. }
    assert (Hlen3 : strlen ((pre ++ f) ++ String s EmptyString)
                    = strlen pre + strlen f + 1).
    { rewrite !strlen_append. unfold strlen. cbn [String.length]. lia. }
    destruct (IH text ((pre ++ f) ++ String s EmptyString)%string
                (next_tn pool tn)
                (l + if (s =? CSVN_NEWLINE)%char then 1 else 0)
                (parsed + 1)
                (store_one pool tn
                   (mk_csv_t (strlen pre) (strlen pre + strlen f - 1) l
                      (strlen pre + strlen f - 1 - strlen pre) DQUOTE))
                Htext3 Hrest)
      as (fuel_r & pf & poolf & Hrun & Hpos & Hline & Hcont).
    { destruct pool as [m|]; [right|left; reflexivity].
      destruct Hcap as [?|[? Hc2]]; [discriminate|].
      cbn [next_tn length] in *. lia. }
    rewrite Hlen3 in Hrun.
    set (G := Nat.max fuel_r (S (String.length f))).
    pose proof (field_step cfg num_tok _ _ _ _ tn l parsed pool (S G)
                  Htext Hf
                  (or_intror (ex_intro _ s (ex_intro _ _ (conj eq_refl Hs))))
                  Hcap1 ltac:(lia)) as Hstep.
    cbv zeta in Hstep.
    destruct (sep_step cfg num_tok text (pre ++ f)%string s c r
                (next_tn pool tn) l
                (parsed + 1)
                (store_one pool tn
                   (mk_csv_t (strlen pre) (strlen pre + strlen f - 1) l
                      (strlen pre + strlen f - 1 - strlen pre) DQUOTE))
                G Htext2 Hs Hc) as (Hin1 & Hsep).
    rewrite strlen_append in Hin1, Hsep.
    exists (S (S G)), pf, poolf. split.
    { cbn [parse_loop]. rewrite Hin, Hstep. cbn [parse_loop].
      replace (strlen pre + strlen f - 1 + 1) with (strlen pre + strlen f)
        by lia.
      rewrite Hin1, Hsep.
      rewrite (parse_loop_more _ _ _ _ fuel_r G _ _ _ _ ltac:(lia) Hrun).
      f_equal. f_equal. f_equal. cbn [length]. lia. }
    split; [exact Hpos|].
    split; [rewrite Hline; cbn [newline_seps]; lia|].
    intros m ->. cbn [store_one next_tn] in *.
    destruct (Hcont _ eq_refl) as (mf & -> & Hfields).
    exists mf. split; [reflexivity|].
    pose proof (parse_loop_store_inv _ _ _ _ _ _ _ _ _ _ _ Hrun)
      as (mf' & Hmf' & _ & _ & Hframe & _).
    inversion Hmf'; subst mf'. cbn [toknext] in Hframe.
    intros j f0 Hj. destruct j as [|j].
    + cbn in Hj. inversion Hj; subst f0.
      eexists. replace (tn + Z.of_nat 0) with tn by lia.
      rewrite Hframe by lia. rewrite lookup_insert_eq.
      split; [reflexivity|].
      destruct (field_ok_chars _ _ Hf) as (c0 & r0 & _ & _ & Hall).
      cbn [field_start take newline_seps length Nat.ltb Nat.leb].
      replace (strlen pre + 0) with (strlen pre) by lia.
      replace (l + 0) with l by lia.
      rewrite Htext. eapply field_stored_inner; eassumption.
    + cbn in Hj. destruct (Hfields j f0 Hj) as (d & Hd & Hst).
      exists d. replace (tn + Z.of_nat (S j)) with (tn + 1 + Z.of_nat j)
        by lia.
      split; [exact Hd|].
      rewrite Hlen3 in Hst.
      replace (strlen pre + field_start ((f, s) :: rest) (S j))
        with (strlen pre + strlen f + 1 + field_start rest j)
        by (cbn [field_start]; lia).
      replace (l + newline_seps (take (S j) ((f, s) :: rest)))
        with (l + (if (s =? CSVN_NEWLINE)%char then 1 else 0)
              + newline_seps (take j rest))
        by (cbn [take newline_seps]; lia).
      exact Hst.
Qed.

Lemma parse_table_full :
  forall fs text pre tn l parsed (m : tokmem),
    text = (pre ++ table fs last)%string ->
    table_ok cfg fs last = true ->
    0 <= tn ->
    num_tok < tn + Z.of_nat (length fs) ->
    exists fuel pf (mf : tokmem),
      parse_loop cfg text (strlen text) num_tok fuel
        (mk_csv_p (strlen pre) tn l) (Some m) parsed
      = Some (NOT_ENOUGH_MEM, pf, Some mf)
      /\ toknext pf = Z.max tn (num_tok + 1)
      /\ line pf = l + newline_seps (take (Z.to_nat (num_tok + 1 - tn)) fs)
      /\ forall (j : nat) f,
          table_fields fs last !! j = Some f ->
          tn + Z.of_nat j <= num_tok ->
          exists d,
            mf !! (tn + Z.of_nat j) = Some d
            /\ token d = DQUOTE
            /\ span_text text d = f
            /\ tline d = l + newline_seps (take j fs).
Proof.
  assert (Hfull : forall text pre f rest tn l parsed (m : tokmem),
             text = (pre ++ f ++ rest)%string ->
             field_ok cfg f = true ->
             (rest = EmptyString
              \/ exists s r, rest = String s r /\ sep_ok s = true) ->
             0 <= tn -> num_tok < tn ->
             exists fuel pf,
               parse_loop cfg text (strlen text) num_tok fuel
                 (mk_csv_p (strlen pre) tn l) (Some m) parsed
               = Some (NOT_ENOUGH_MEM, pf, Some m)
               /\ toknext pf = tn /\ line pf = l).
  { intros text pre f rest tn l parsed m Htext Hf Hrest Htn Hlt.
    pose proof (field_start_in_text _ _ _ _ tn l Htext Hf) as Hin.
    destruct (field_step_full cfg num_tok _ _ _ _ tn l parsed m
                (S (String.length f)) Htext Hf Hrest) as (pf & Hd & Ht & Hl).
    { unfold int_gt_size. apply orb_true_intro. right. apply Z.ltb_lt. lia. }
    { lia. }
    exists (S (S (String.length f))), pf. split; [|auto].
    cbn [parse_loop]. rewrite Hin, Hd. reflexivity. }
  induction fs as [|[f s] rest IH]; intros text pre tn l parsed m
    Htext Hok Htn Hcap.
  - cbn [table table_ok length] in *.
    assert (Htext' : text = (pre ++ last ++ EmptyString)%string)
      by (rewrite append_empty_r; exact Htext).
    destruct (Hfull _ _ _ _ tn l parsed m Htext' Hok (or_introl eq_refl)
                Htn ltac:(lia)) as (fuel & pf & Hrun & Ht & Hl).
    exists fuel, pf, m. split; [exact Hrun|].
    split; [lia|]. split; [rewrite take_nil; cbn; lia|].
    intros j f0 _ Hj. lia.
  - cbn [table table_ok] in *.
    apply andb_prop in Hok as [Hok Hrest]. apply andb_prop in Hok as [Hf Hs].
    destruct (Z_lt_le_dec num_tok tn) as [Hlt|Hle].
    + destruct (Hfull _ _ _ _ tn l parsed m Htext Hf
                  (or_intror (ex_intro _ s (ex_intro _ _ (conj eq_refl Hs))))
                  Htn Hlt) as (fuel & pf & Hrun & Ht & Hl).
      exists fuel, pf, m. split; [exact Hrun|].
      split; [lia|]. split.
      * replace (Z.to_nat (num_tok + 1 - tn)) with 0%nat by lia.
        cbn. lia.
      * intros j f0 _ Hj. lia.
    + destruct (table_head _ _ _ Hrest) as (c & r & Hhead & Hc).
      pose proof (field_start_in_text _ _ _ _ tn l Htext Hf) as Hin.
      assert (Htext2 : text = ((pre ++ f) ++ String s (String c r))%string).
      { rewrite Htext, Hhead, append_assoc. reflexivity. }
      assert (Htext3 : text = (((pre ++ f) ++ String s EmptyString)
                                 ++ table rest last)%string).
      { rewrite Htext, !append_assoc. reflexivity. }
      assert (Hlen3 : strlen ((pre ++ f) ++ String s EmptyString)
                      = strlen pre + strlen f + 1).
      { rewrite !strlen_append. unfold strlen. cbn [String.length]. lia. }
      destruct (IH text ((pre ++ f) ++ String s EmptyString)%string
                  (tn + 1)
                  (l + if (s =? CSVN_NEWLINE)%char then 1 else 0)
                  (parsed + 1)
                  (<[tn := mk_csv_t (strlen pre) (strlen pre + strlen f - 1) l
                             (strlen pre + strlen f - 1 - strlen pre) DQUOTE]>
                     m)
                  Htext3 Hrest ltac:(lia))
        as (fuel_r & pf & mf & Hrun & Ht & Hl & Hfields).
      { cbn [length] in Hcap. lia. }
      rewrite Hlen3 in Hrun.
      set (G := Nat.max fuel_r (S (String.length f))).
      pose proof (field_step cfg num_tok _ _ _ _ tn l parsed (Some m) (S G)
                    Htext Hf
                    (or_intror
                       (ex_intro _ s (ex_intro _ _ (conj eq_refl Hs))))
                    (or_intror (conj Htn Hle)) ltac:(lia)) as Hstep.
      cbv zeta in Hstep. cbn [next_tn store_one] in Hstep.
      destruct (sep_step cfg num_tok text (pre ++ f)%string s c r (tn + 1) l
                  (parsed + 1)
                  (Some
                     (<[tn := mk_csv_t (strlen pre)
                                (strlen pre + strlen f - 1) l
                                (strlen pre + strlen f - 1 - strlen pre)
                                DQUOTE]> m))
                  G Htext2 Hs Hc) as (Hin1 & Hsep).
      rewrite strlen_append in Hin1, Hsep.
      exists (S (S G)), pf, mf. split.
      { cbn [parse_loop]. rewrite Hin, Hstep. cbn [parse_loop].
        replace (strlen pre + strlen f - 1 + 1) with (strlen pre + strlen f)
          by lia.
        rewrite Hin1, Hsep.
        exact (parse_loop_more _ _ _ _ fuel_r G _ _ _ _ ltac:(lia) Hrun). }
      split; [lia|]. split.
      { rewrite Hl.
        replace (Z.to_nat (num_tok + 1 - tn))
          with (S (Z.to_nat (num_tok + 1 - (tn + 1)))) by lia.
        cbn [take newline_seps]. lia. }
      pose proof (parse_loop_store_inv _ _ _ _ _ _ _ _ _ _ _ Hrun)
        as (mf' & Hmf' & _ & _ & Hframe & _).
      inversion Hmf'; subst mf'. cbn [toknext] in Hframe.
      intros j f0 Hj Hfit. destruct j as [|j].
      * cbn in Hj. inversion Hj; subst f0.
        eexists. replace (tn + Z.of_nat 0) with tn by lia.
        rewrite Hframe by lia. rewrite lookup_insert_eq.
        split; [reflexivity|]. split; [reflexivity|]. split.
        -- rewrite Htext. apply span_text_inner.
        -- cbn. lia.
      * cbn in Hj.
        destruct (Hfields j f0 Hj ltac:(lia))
          as (d & Hd & Htok & Hspan & Htl).
        exists d. replace (tn + Z.of_nat (S j)) with (tn + 1 + Z.of_nat j)
          by lia.
        split; [exact Hd|]. split; [exact Htok|]. split; [exact Hspan|].
        rewrite Htl. cbn [take newline_seps]. lia.
Qed.

End TableParse.

Lemma table_fields_ok (cfg : config) (last : string) :
  forall fs (j : nat) f,
    table_ok cfg fs last = true ->
    table_fields fs last !! j = Some f ->
    field_ok cfg f = true.
Proof.
  induction fs as [|[f0 s] rest IH]; intros j f Hok Hj.
  - destruct j as [|j]; [|discriminate Hj].
    cbn in Hj. inversion Hj; subst. exact Hok.
  - cbn [table_ok] in Hok.
    apply andb_prop in Hok as [Hok Hrest]. apply andb_prop in Hok as [Hf _].
    destruct j as [|j].
    + cbn in Hj. inversion Hj; subst. exact Hf.
    + cbn in Hj. eapply IH; eassumption.
Qed.

(** A call on a well-formed row: the loop lemma at the fuel of
    [csvn_parse]. *)
Lemma parse_table_call (cfg : config) (num_tok : Z)
    (fs : list (string * ascii)) (last pre : string)
    (p : csv_p) (pool : tokpool) :
  table_ok cfg fs last = true ->
  pos p = strlen pre ->
  (pool = None
   \/ (0 <= toknext p /\ toknext p + Z.of_nat (length fs) <= num_tok)) ->
  exists pf poolf,
    csvn_parse cfg (pre ++ table fs last) (strlen (pre ++ table fs last))
      num_tok p pool
    = Some (Z.of_nat (length fs) + 1, pf, poolf)
    /\ pos pf = strlen (pre ++ table fs last) + 1
    /\ line pf = line p + newline_seps fs
    /\ toknext pf = match pool with
                    | None => toknext p
                    | Some _ => toknext p + Z.of_nat (length fs) + 1
                    end
    /\ (forall m : tokmem, pool = Some m ->
        exists mf : tokmem,
          poolf = Some mf
          /\ forall (j : nat) f,
              table_fields fs last !! j = Some f ->
              exists d,
                mf !! (toknext p + Z.of_nat j) = Some d
                /\ field_stored (pre ++ table fs last)
                     (strlen pre + field_start fs j) f (j <? length fs)%nat
                     (line p + newline_seps (take j fs)) d).
Proof.
  intros Hok Hpos Hcap. destruct p as [ps tn l]. cbn [pos toknext line] in *.
  subst ps.
  destruct (parse_table cfg num_tok last fs (pre ++ table fs last) pre tn l 0
              pool eq_refl Hok Hcap)
    as (fuel & pf & poolf & Hrun & Hp & Hl & Hcont).
  replace (0 + Z.of_nat (length fs) + 1) with (Z.of_nat (length fs) + 1)
    in Hrun by lia.
  exists pf, poolf. split.
  { unfold csvn_parse.
    destruct (parse_loop_total cfg (pre ++ table fs last)
                (strlen (pre ++ table fs last)) num_tok
                (enough_fuel (pre ++ table fs last)
                   (strlen (pre ++ table fs last))
                   (mk_csv_p (strlen pre) tn l))
                (mk_csv_p (strlen pre) tn l) pool 0) as [r Hr].
    { unfold enough_fuel, horizon, strlen. cbn [pos]. lia. }
    rewrite Hr.
    pose proof (parse_loop_more _ _ _ _ _
                  (Nat.max fuel
                     (enough_fuel (pre ++ table fs last)
                        (strlen (pre ++ table fs last))
                        (mk_csv_p (strlen pre) tn l)))
                  _ _ _ _ (Nat.le_max_l _ _) Hrun) as H1.
    pose proof (parse_loop_more _ _ _ _ _
                  (Nat.max fuel
                     (enough_fuel (pre ++ table fs last)
                        (strlen (pre ++ table fs last))
                        (mk_csv_p (strlen pre) tn l)))
                  _ _ _ _ (Nat.le_max_r _ _) Hr) as H2.
    congruence. }
  split; [exact Hp|]. split; [exact Hl|]. split; [|exact Hcont].
  destruct pool as [m|].
  - apply parse_loop_outcome in Hrun.
    destruct Hrun as [(_ & _ & Hcnt)|[(Hr & _)|(Hr & _)]].
    + specialize (Hcnt ltac:(discriminate)). cbn [toknext] in Hcnt. lia.
    + unfold NOT_ENOUGH_MEM in Hr. lia.
    + unfold INVALID_CHARACTER in Hr. lia.
  - apply parse_loop_counting in Hrun as [_ Htn]. exact Htn.
Qed.

(** X15. On a row of unquoted fields, each followed by a delimiter or a
    newline and the last one by the end of the text, [csvn_parse] returns the
    number of fields, in counting mode as in storing mode and under every
    combination of options for which the fields are acceptable.  It leaves
    [pos] one byte past the terminating NUL, has added the number of newline
    separators to the line, and in storing mode has taken one slot for each
    field.  The store needs room for one slot less than there are fields. *)
Theorem well_formed_row_count (cfg : config) (num_tok : Z)
    (fs : list (string * ascii)) (last pre : string)
    (p : csv_p) (pool : tokpool) :
  table_ok cfg fs last = true ->
  pos p = strlen pre ->
  (pool = None
   \/ (0 <= toknext p /\ toknext p + Z.of_nat (length fs) <= num_tok)) ->
  exists pf poolf,
    csvn_parse cfg (pre ++ table fs last) (strlen (pre ++ table fs last))
      num_tok p pool
    = Some (Z.of_nat (length fs) + 1, pf, poolf)
    /\ pos pf = strlen (pre ++ table fs last) + 1
    /\ line pf = line p + newline_seps fs
    /\ toknext pf = match pool with
                    | None => toknext p
                    | Some _ => toknext p + Z.of_nat (length fs) + 1
                    end.
Proof.
  intros Hok Hpos Hcap.
  destruct (parse_table_call cfg num_tok fs last pre p pool Hok Hpos Hcap)
    as (pf & poolf & Hrun & Hp & Hl & Htn & _).
  exists pf, poolf. auto.
Qed.

(** Two rows, three fields, a store of two slots. *)
Lemma well_formed_row_count_witness :
  exists pf poolf,
    csvn_parse strict_config
      (EmptyString ++ table row_a_b "c")
      (strlen (EmptyString ++ table row_a_b "c"))
      2 fresh (Some ∅)
    = Some (Z.of_nat (length row_a_b) + 1,
            pf, poolf)
    /\ pos pf
       = strlen (EmptyString ++ table row_a_b "c") + 1
    /\ line pf
       = line fresh + newline_seps row_a_b
    /\ toknext pf
       = toknext fresh
         + Z.of_nat (length row_a_b) + 1.
Proof.
  refine (well_formed_row_count strict_config 2
            row_a_b "c" EmptyString fresh (Some ∅)
            _ _ _).
  - vm_compute. reflexivity.
  - vm_compute. reflexivity.
  - right. vm_compute. split; discriminate.
Defined.

(** X16. In storing mode on such a row, the slot of each field holds the
    [DQUOTE] descriptor of that field: it starts on the first byte of the
    field and carries the line of the field.  For a field followed by a
    separator it ends on the last byte of the field, so that its size is the
    length of the field less one and its [size + 1] bytes are the bytes of
    the field.  For the field that ends the text it ends one byte further, on
    the terminating NUL: its size is the length of the field and its
    [size + 1] bytes are the field followed by that NUL.  In both cases the
    bytes that the driver's [get_parsed] copies up to a NUL are the field. *)
Theorem well_formed_row_fields (cfg : config) (num_tok : Z)
    (fs : list (string * ascii)) (last pre : string)
    (p : csv_p) (m : tokmem) :
  table_ok cfg fs last = true ->
  pos p = strlen pre ->
  0 <= toknext p ->
  toknext p + Z.of_nat (length fs) <= num_tok ->
  exists pf mf,
    csvn_parse cfg (pre ++ table fs last) (strlen (pre ++ table fs last))
      num_tok p (Some m)
    = Some (Z.of_nat (length fs) + 1, pf, Some mf)
    /\ forall (j : nat) f,
        table_fields fs last !! j = Some f ->
        exists d,
          mf !! (toknext p + Z.of_nat j) = Some d
          /\ start d = strlen pre + field_start fs j
          /\ tend d
             = start d + strlen f - (if (j <? length fs)%nat then 1 else 0)
          /\ size d = tend d - start d
          /\ token d = DQUOTE
          /\ tline d = line p + newline_seps (take j fs)
          /\ span_text (pre ++ table fs last) d
             = (if (j <? length fs)%nat then f
                else (f ++ String NUL EmptyString)%string)
          /\ get_parsed d (pre ++ table fs last) = f.
Proof.
  intros Hok Hpos Htn Hcap.
  destruct (parse_table_call cfg num_tok fs last pre p (Some m) Hok Hpos
              (or_intror (conj Htn Hcap)))
    as (pf & poolf & Hrun & _ & _ & _ & Hcont).
  destruct (Hcont m eq_refl) as (mf & -> & Hfields).
  exists pf, mf. split; [exact Hrun|].
  intros j f Hj.
  destruct (Hfields j f Hj)
    as (d & Hd & Hs & He & Hsz & Htok & Hl & Hspan & Hget).
  exists d. rewrite <- Hs in He.
  repeat split; assumption.
Qed.

(** The second row of a text whose first row has been parsed already, and
    the descriptor of its last field [e]: it ends on the NUL at the offset
    12, and its two bytes are [e] and that NUL. *)
Lemma well_formed_row_fields_witness :
  slot (csvn_parse default_config (("x,y" ++ nl) ++ table row_ab_cd "e")
          12 4 (mk_csv_p 4 2 2) (Some ∅)) 4
  = Some (mk_csv_t 11 12 3 1 DQUOTE)
  /\ span_text (("x,y" ++ nl) ++ table row_ab_cd "e")
       (mk_csv_t 11 12 3 1 DQUOTE)
     = ("e" ++ String NUL EmptyString)%string
  /\ exists pf mf,
       csvn_parse default_config (("x,y" ++ nl) ++ table row_ab_cd "e")
         (strlen (("x,y" ++ nl) ++ table row_ab_cd "e"))
         4 (mk_csv_p 4 2 2) (Some ∅)
       = Some (Z.of_nat (length row_ab_cd) + 1, pf, Some mf)
       /\ forall (j : nat) f,
           table_fields row_ab_cd "e" !! j = Some f ->
           exists d,
             mf !! (toknext (mk_csv_p 4 2 2) + Z.of_nat j) = Some d
             /\ start d = strlen ("x,y" ++ nl) + field_start row_ab_cd j
             /\ tend d
                = start d + strlen f
                  - (if (j <? length row_ab_cd)%nat then 1 else 0)
             /\ size d = tend d - start d
             /\ token d = DQUOTE
             /\ tline d
                = line (mk_csv_p 4 2 2) + newline_seps (take j row_ab_cd)
             /\ span_text (("x,y" ++ nl) ++ table row_ab_cd "e") d
                = (if (j <? length row_ab_cd)%nat then f
                   else (f ++ String NUL EmptyString)%string)
             /\ get_parsed d (("x,y" ++ nl) ++ table row_ab_cd "e") = f.
Proof.
  split; [vm_compute; reflexivity|]. split; [vm_compute; reflexivity|].
  refine (well_formed_row_fields default_config 4
            row_ab_cd "e" ("x,y" ++ nl)
            (mk_csv_p 4 2 2) ∅ _ _ _ _).
  - vm_compute. reflexivity.
  - vm_compute. reflexivity.
  - vm_compute. discriminate.
  - vm_compute. discriminate.
Defined.

(** X17. In storing mode on such a row with more fields than the capacity
    plus one, [csvn_parse] returns [CSVN_NOT_ENOUGH_MEM] and leaves [toknext]
    at the capacity plus one (or where it was, if it was beyond already).  The
    fields that found a slot, those up to the index [num_tok] included, are
    stored as in a successful call, and the line is that of the first field
    left out. *)
Theorem well_formed_row_overflow (cfg : config) (num_tok : Z)
    (fs : list (string * ascii)) (last pre : string)
    (p : csv_p) (m : tokmem) :
  table_ok cfg fs last = true ->
  pos p = strlen pre ->
  0 <= toknext p ->
  num_tok < toknext p + Z.of_nat (length fs) ->
  exists pf mf,
    csvn_parse cfg (pre ++ table fs last) (strlen (pre ++ table fs last))
      num_tok p (Some m)
    = Some (NOT_ENOUGH_MEM, pf, Some mf)
    /\ toknext pf = Z.max (toknext p) (num_tok + 1)
    /\ line pf
       = line p + newline_seps (take (Z.to_nat (num_tok + 1 - toknext p)) fs)
    /\ forall (j : nat) f,
        table_fields fs last !! j = Some f ->
        toknext p + Z.of_nat j <= num_tok ->
        exists d,
          mf !! (toknext p + Z.of_nat j) = Some d
          /\ token d = DQUOTE
          /\ span_text (pre ++ table fs last) d = f
          /\ tline d = line p + newline_seps (take j fs).
Proof.
  intros Hok Hpos Htn Hcap. destruct p as [ps tn l].
  cbn [pos toknext line] in *. subst ps.
  destruct (parse_table_full cfg num_tok last fs (pre ++ table fs last) pre
              tn l 0 m eq_refl Hok Htn Hcap)
    as (fuel & pf & mf & Hrun & Ht & Hl & Hfields).
  exists pf, mf. split; [|auto].
  unfold csvn_parse.
  destruct (parse_loop_total cfg (pre ++ table fs last)
              (strlen (pre ++ table fs last)) num_tok
              (enough_fuel (pre ++ table fs last)
                 (strlen (pre ++ table fs last))
                 (mk_csv_p (strlen pre) tn l))
              (mk_csv_p (strlen pre) tn l) (Some m) 0) as [r Hr].
  { unfold enough_fuel, horizon, strlen. cbn [pos]. lia. }
  rewrite Hr.
  pose proof (parse_loop_more _ _ _ _ _
                (Nat.max fuel
                   (enough_fuel (pre ++ table fs last)
                      (strlen (pre ++ table fs last))
                      (mk_csv_p (strlen pre) tn l)))
                _ _ _ _ (Nat.le_max_l _ _) Hrun) as H1.
  pose proof (parse_loop_more _ _ _ _ _
                (Nat.max fuel
                   (enough_fuel (pre ++ table fs last)
                      (strlen (pre ++ table fs last))
                      (mk_csv_p (strlen pre) tn l)))
                _ _ _ _ (Nat.le_max_r _ _) Hr) as H2.
  congruence.
Qed.

(** The text and the capacity of the first call of the driver's
    [test_normal]. *)
Lemma well_formed_row_overflow_witness :
  exists pf mf,
    csvn_parse default_config (EmptyString ++ table row_test_normal "this")
      (strlen (EmptyString ++ table row_test_normal "this")) 0 fresh (Some ∅)
    = Some (NOT_ENOUGH_MEM, pf, Some mf)
    /\ toknext pf = Z.max (toknext fresh) (0 + 1)
    /\ line pf
       = line fresh
         + newline_seps
             (take (Z.to_nat (0 + 1 - toknext fresh)) row_test_normal)
    /\ forall (j : nat) f,
        table_fields row_test_normal "this" !! j = Some f ->
        toknext fresh + Z.of_nat j <= 0 ->
        exists d,
          mf !! (toknext fresh + Z.of_nat j) = Some d
          /\ token d = DQUOTE
          /\ span_text (EmptyString ++ table row_test_normal "this") d = f
          /\ tline d = line fresh + newline_seps (take j row_test_normal).
Proof.
  refine (well_formed_row_overflow default_config 0 row_test_normal "this"
            EmptyString fresh ∅ _ _ _ _).
  - vm_compute. reflexivity.
  - vm_compute. reflexivity.
  - vm_compute. discriminate.
  - vm_compute. reflexivity.
Defined.
